(** * The blocklist poller of tempodb (tempodb/blocklist/poller.go)

    A shallow embedding of [Poller.Do] and of the functions it calls, and the
    properties of the specification that are about them.

    Conventions of the embedding.
    - A Go pointer result that the code tests against [nil] is an [option];
      a Go [error] is an [option error] ([None] is [nil]).
    - The collaborators of the poller are Go interfaces ([backend.Reader],
      [backend.Writer], [backend.Compactor], [JobSharder]); they are type
      classes over an abstract world [W].  Every method passes the world
      along, so a backend may answer differently on each call.
    - The poller's computations live in a state-and-writer monad [M]: the
      world is threaded, and every call of a collaborator, every error-level
      log line and every metric update is appended to a list of events.
    - Goroutines are run one after the other: the tenant goroutines of [Do]
      in the order of the tenant listing, the block goroutines of
      [pollUnknown] in the order in which the Go runtime ranges over the map
      of unknown blocks, which is any permutation of its entries
      ([MapRange]).  Mutexes and wait groups have no other content then.
    - Tracing spans, Info-level log lines and the jitter sleep are left
      out: they change neither results nor the calls that are made. *)

From Stdlib Require Import ZArith Lia Ascii String.
From stdpp Require Import base option list gmap strings pretty.

Set Warnings "-register-all,-clear-no-such-hyp".

Local Open Scope string_scope.
Local Open Scope list_scope.
Local Open Scope Z_scope.

(** ** Data of package [backend] *)

Module backend.

(** [uuid.UUID]: sixteen bytes, read as one number.  Only equality is used. *)
Definition UUID := N.
Bind Scope N_scope with UUID.

(** [time.Time] and [time.Duration], both in nanoseconds. *)
Definition Time := Z.
Definition Duration := Z.

Record BlockMeta := mkBlockMeta {
  BlockID : UUID;
  TenantID : string;
  TotalObjects : Z;
  Size_ : Z
}.

(** [CompactedBlockMeta] embeds [BlockMeta]. *)
Record CompactedBlockMeta := mkCompactedBlockMeta {
  Embedded : BlockMeta;
  CompactedTime : Time
}.

Record TenantIndex := mkTenantIndex {
  CreatedAt : Time;
  Meta : list BlockMeta;
  CompactedMeta : list CompactedBlockMeta
}.

Definition KeyPath := list string.

Record FindMatch := mkFindMatch {
  Key : string;
  Modified : Time
}.

End backend.

#[global] Instance BlockMeta_eq_dec : EqDecision backend.BlockMeta.
Proof. solve_decision. Defined.
#[global] Instance CompactedBlockMeta_eq_dec : EqDecision backend.CompactedBlockMeta.
Proof. solve_decision. Defined.

(** The block ID of a compacted meta, through the embedded struct. *)
Definition CompactedBlockID (c : backend.CompactedBlockMeta) : backend.UUID :=
  backend.BlockID (backend.Embedded c).

(** ** Errors *)

(** Go error values, as far as the poller makes or inspects them. *)
Inductive error :=
  | ErrDoesNotExist                        (* backend.ErrDoesNotExist *)
  | ErrOpaque (msg : string)               (* any other error of a collaborator *)
  | ErrNew (msg : string)                  (* errors.New, fmt.Errorf without %w *)
  | ErrStale (createdAt : backend.Time)    (* "tenant index created at %s is stale" *)
  | ErrWrap (msg : string) (e : error)      (* fmt.Errorf("msg: %w", e) *)
  | ErrJoin (es : list error).             (* errors.Join(es...) *)

(** [errors.Is(err, backend.ErrDoesNotExist)] on a non-nil error. *)
Fixpoint isDoesNotExist (e : error) : bool :=
  match e with
  | ErrDoesNotExist => true
  | ErrWrap _ e' => isDoesNotExist e'
  | ErrJoin es =>
      (fix any (l : list error) : bool :=
         match l with
         | [] => false
         | x :: l' => isDoesNotExist x || any l'
         end) es
  | _ => false
  end.

(** [errors.Is(err, backend.ErrDoesNotExist)]; false on [nil]. *)
Definition errors_Is_DoesNotExist (err : option error) : bool :=
  match err with
  | Some e => isDoesNotExist e
  | None => false
  end.

(** ** Events: what the poller does to the outside *)

Inductive Call :=
  | CallTenants
  | CallBlocks (tenant : string)
  | CallBlockMeta (id : backend.UUID) (tenant : string)
  | CallCompactedBlockMeta (id : backend.UUID) (tenant : string)
  | CallTenantIndex (tenant : string)
  | CallHasNoCompactFlag (id : backend.UUID) (tenant : string)
  | CallFind (kp : backend.KeyPath)
  | CallWriteTenantIndex (tenant : string) (metas : list backend.BlockMeta)
      (compacted : list backend.CompactedBlockMeta)
  | CallDelete (name : string) (kp : backend.KeyPath) (result : option error)
  | CallOwns (job : string).

(** The error-level log lines. *)
Inductive LogLine :=
  | LogExitingEarly
  | LogFailedToPoll (tenant : string) (err : error)
  | LogFallingBack (tenant : string) (err : error)
  | LogFailedToWriteIndex (tenant : string) (err : error).

Inductive Status := blockStatusLiveLabel | blockStatusCompactedLabel.

Inductive Metric :=
  | BlocklistErrorsInc (tenant : string)
  | BlocklistLengthSet (tenant : string) (n : Z)
  | BlocklistLengthDelete (tenant : string)
  | BackendObjectsSet (tenant : string) (status : Status) (n : Z)
  | BackendObjectsDelete (tenant : string)
  | BackendBytesSet (tenant : string) (status : Status) (n : Z)
  | BackendBytesDelete (tenant : string)
  | TenantIndexErrorsInc (tenant : string)
  | TenantIndexBuilderSet (tenant : string) (v : Z)
  | TenantIndexAgeSecondsSet (tenant : string) (seconds : Z)
  | BlocklistPollDurationObserve (d : backend.Duration).

Inductive Event :=
  | EvCall (c : Call)
  | EvLog (l : LogLine)
  | EvMetric (m : Metric).

(** ** The interfaces the poller is given *)

Class Reader (W : Type) := {
  Tenants : W -> (list string * option error) * W;
  Blocks : string -> W ->
           (list backend.UUID * list backend.UUID * option error) * W;
  BlockMeta : backend.UUID -> string -> W ->
              (option backend.BlockMeta * option error) * W;
  (* the index is dereferenced whenever the error is nil: one or the other *)
  TenantIndex : string -> W -> (backend.TenantIndex + error) * W;
  HasNoCompactFlag : backend.UUID -> string -> W -> (bool * option error) * W;
  (* the matches the callback is called on, and the error returned after *)
  Find : backend.KeyPath -> W -> (list backend.FindMatch * option error) * W
}.

Class Compactor (W : Type) := {
  CompactedBlockMeta : backend.UUID -> string -> W ->
                       (option backend.CompactedBlockMeta * option error) * W
}.

Class Writer (W : Type) := {
  WriteTenantIndex : string -> list backend.BlockMeta ->
                     list backend.CompactedBlockMeta -> W -> option error * W;
  Delete : string -> backend.KeyPath -> W -> option error * W
}.

Class JobSharder (W : Type) := {
  Owns : string -> W -> bool * W
}.

(** What the Go runtime and the caller decide: the cancellation of the
    parent context, the clock, and the order in which [range] visits a map,
    which is some permutation of its entries. *)
Class Runtime (W : Type) := {
  ctxErr : W -> option error * W;
  Now : W -> backend.Time * W;
  MapRange : list (backend.UUID * bool) -> W -> list (backend.UUID * bool) * W;
  MapRange_Permutation : forall l w, (MapRange l w).1 ≡ₚ l
}.

(** ** Configuration *)

Record PollerConfig := mkPollerConfig {
  PollConcurrency : Z;
  TenantPollConcurrency : Z;
  PollFallback : bool;
  TenantIndexBuilders : Z;
  StaleTenantIndex : backend.Duration;
  PollJitterMs : Z;
  TolerateConsecutiveErrors : Z;
  TolerateTenantFailures : Z;
  EmptyTenantDeletionAge : backend.Duration;
  EmptyTenantDeletionEnabled : bool;
  SkipNoCompactBlocks : bool
}.

Definition jobPrefix : string := "build-tenant-index-".

(** ** Machine integers *)

Definition wrap_int32 (z : Z) : Z := (z + 2 ^ 31) mod 2 ^ 32 - 2 ^ 31.
Definition wrap_int64 (z : Z) : Z := (z + 2 ^ 63) mod 2 ^ 64 - 2 ^ 63.
Definition wrap_uint64 (z : Z) : Z := z mod 2 ^ 64.

(** [time.Time.Sub] saturates at the ends of [Duration]. *)
Definition saturate_int64 (z : Z) : Z :=
  Z.max (- 2 ^ 63) (Z.min (2 ^ 63 - 1) z).

(** ** The previous blocklist *)

Abbreviation PerTenant := (gmap string (list backend.BlockMeta)).
Abbreviation PerTenantCompacted := (gmap string (list backend.CompactedBlockMeta)).

(** Modelled from the spec: the type [List] of the package (list.go) is not
    among the sources.  It holds the published snapshot, the live and the
    compacted metas per tenant, and [Metas] and [CompactedMetas] return the
    sequence of a tenant, empty when the tenant has none. *)
Record List := mkList {
  metas : gmap string (list backend.BlockMeta);
  compactedMetas : gmap string (list backend.CompactedBlockMeta)
}.

Definition Metas (l : List) (tenantID : string) : list backend.BlockMeta :=
  default [] (metas l !! tenantID).

Definition CompactedMetas (l : List) (tenantID : string)
  : list backend.CompactedBlockMeta :=
  default [] (compactedMetas l !! tenantID).

(** ** The poller *)

Section Poller.

Context {W : Type}.
Context `{!Reader W, !Compactor W, !Writer W, !JobSharder W, !Runtime W}.

(** *** The monad *)

Definition M (A : Type) : Type := W -> A * W * list Event.

Definition ret {A} (a : A) : M A := fun w => (a, w, []).

Definition bind {A B} (m : M A) (k : A -> M B) : M B :=
  fun w =>
    let '(a, w1, e1) := m w in
    let '(b, w2, e2) := k a w1 in
    (b, w2, e1 ++ e2).

Definition emit (e : Event) : M unit := fun w => (tt, w, [e]).

(** A call of a collaborator, recorded as [c]. *)
Definition call {A} (c : Call) (op : W -> A * W) : M A :=
  fun w => let '(a, w1) := op w in (a, w1, [EvCall c]).

(** A call whose record shows the result. *)
Definition call_with {A} (c : A -> Call) (op : W -> A * W) : M A :=
  fun w => let '(a, w1) := op w in (a, w1, [EvCall (c a)]).

(** Reading the runtime leaves no record. *)
Definition ask {A} (op : W -> A * W) : M A :=
  fun w => let '(a, w1) := op w in (a, w1, []).

Definition val {A} (r : A * W * list Event) : A := r.1.1.
Definition wld {A} (r : A * W * list Event) : W := r.1.2.
Definition evs {A} (r : A * W * list Event) : list Event := r.2.

Notation "'let*' x := m 'in' k" := (bind m (fun x => k))
  (at level 10, x pattern, m at level 100, k at level 200,
   only parsing).
Notation "m ;;; k" := (bind m (fun _ => k))
  (at level 100, right associativity, only parsing).

Variable cfg : PollerConfig.

(** *** [pollBlock] *)

Definition pollBlock (tenantID : string) (blockID : backend.UUID)
    (compacted : bool)
  : M (option backend.BlockMeta * option backend.CompactedBlockMeta
       * option error) :=
  (* the nocompact gate: [Some r] returns [r], [None] goes on *)
  let* gate :=
    (if negb compacted && SkipNoCompactBlocks cfg then
       let* (noCompact, flagErr) :=
         call (CallHasNoCompactFlag blockID tenantID)
              (HasNoCompactFlag blockID tenantID) in
       match flagErr with
       | Some e =>
           ret (Some (None, None,
                      Some (ErrWrap "failed to check nocompact flag" e)))
       | None =>
           if noCompact : bool then ret (Some (None, None, None))
           else ret None
       end
     else ret None) in
  match gate with
  | Some r => ret r
  | None =>
      let* (blockMeta, err) :=
        (if negb compacted then
           call (CallBlockMeta blockID tenantID) (BlockMeta blockID tenantID)
         else ret (None, None)) in
      (* if the normal meta doesn't exist maybe it's compacted. *)
      let* (blockMeta, compactedBlockMeta, err) :=
        (if errors_Is_DoesNotExist err || compacted then
           let* (cm, err') :=
             call (CallCompactedBlockMeta blockID tenantID)
                  (CompactedBlockMeta blockID tenantID) in
           ret (None, cm, err')
         else ret (blockMeta, None, err)) in
      (* blocks in intermediate states may have neither meta *)
      if errors_Is_DoesNotExist err then ret (None, None, None)
      else
        match err with
        | Some e => ret (None, None, Some e)
        | None => ret (blockMeta, compactedBlockMeta, None)
        end
  end.

(** *** [tenantIndexBuilder] *)

(** The loop [for i := 0; i < TenantIndexBuilders; i++], entered at [i]
    with [n] rounds to go. *)
Fixpoint tenantIndexBuilder_from (tenant : string) (i : Z) (n : nat)
  : M bool :=
  match n with
  | O => ret false
  | S n' =>
      let job := jobPrefix +:+ pretty i +:+ "-" +:+ tenant in
      let* owns := call (CallOwns job) (Owns job) in
      if owns : bool then ret true
      else tenantIndexBuilder_from tenant (i + 1) n'
  end.

Definition tenantIndexBuilder (tenant : string) : M bool :=
  tenantIndexBuilder_from tenant 0 (Z.to_nat (TenantIndexBuilders cfg)).

(** *** [tenantIndexPollError] *)

(** [time.Since(t)] *)
Definition time_Since (t : backend.Time) : M backend.Duration :=
  let* now := ask Now in
  ret (saturate_int64 (now - t)).

Definition tenantIndexPollError (r : backend.TenantIndex + error)
  : M (option error) :=
  match r with
  | inr err => ret (Some err)
  | inl idx =>
      if negb (StaleTenantIndex cfg =? 0) then
        let* age := time_Since (backend.CreatedAt idx) in
        if age >? StaleTenantIndex cfg
        then ret (Some (ErrStale (backend.CreatedAt idx)))
        else ret None
      else ret None
  end.

(** *** [deleteTenant] *)

(** [path.Split]: the split is after the last slash; without a slash the
    directory is empty. *)
Fixpoint path_Split (p : string) : string * string :=
  match p with
  | EmptyString => (EmptyString, EmptyString)
  | String c rest =>
      let '(dir, name) := path_Split rest in
      match dir with
      | EmptyString =>
          if Ascii.eqb c "/"%char then (String c EmptyString, name)
          else (EmptyString, String c name)
      | _ => (String c dir, name)
      end
  end.

(** The callback given to [Find], called on each match in turn. *)
Fixpoint deleteTenant_visit (matches : list backend.FindMatch)
    (foundObjects : list string) (recentObjects : Z)
  : M (list string * Z) :=
  match matches with
  | [] => ret (foundObjects, recentObjects)
  | opts :: rest =>
      let* age := time_Since (backend.Modified opts) in
      if age >? EmptyTenantDeletionAge cfg
      then deleteTenant_visit rest (foundObjects ++ [backend.Key opts])
                              recentObjects
      else deleteTenant_visit rest foundObjects (recentObjects + 1)
  end.

(** The loop [for _, object := range foundObjects]. *)
Fixpoint deleteTenant_delete (foundObjects : list string)
  : M (option error) :=
  match foundObjects with
  | [] => ret None
  | object :: rest =>
      let '(dir, name) := path_Split object in
      let* err := call_with (CallDelete name [dir]) (Delete name [dir]) in
      match err with
      | Some e => ret (Some e)
      | None => deleteTenant_delete rest
      end
  end.

Definition deleteTenant (tenantID : string) : M (option error) :=
  (* If we have not enabled empty tenant deletion, do nothing. *)
  if negb (EmptyTenantDeletionEnabled cfg) then ret None
  else if EmptyTenantDeletionAge cfg =? 0 then
    ret (Some (ErrNew "empty tenant deletion age must be greater than 0"))
  else
    let* (matches, err) := call (CallFind [tenantID]) (Find [tenantID]) in
    let* (foundObjects, recentObjects) := deleteTenant_visit matches [] 0 in
    match err with
    | Some e => ret (Some e)
    | None =>
        (* do nothing if there are recent objects for this tenant. *)
        if recentObjects >? 0 then ret None
        else
          (* do nothing if the tenant index has appeared. *)
          let* r := call (CallTenantIndex tenantID) (TenantIndex tenantID) in
          let err := match r with inl _ => None | inr e => Some e end in
          if negb (errors_Is_DoesNotExist err) then ret None
          else deleteTenant_delete foundObjects
    end.

(** *** [pollUnknown] *)

(** What a block goroutine does with the result of [pollBlock], under the
    mutex: the accumulators are [newBlockList], [newCompactedBlocklist]
    and [errs]. *)
Definition pollUnknown_collect
    (r : option backend.BlockMeta * option backend.CompactedBlockMeta
         * option error)
    (acc : list backend.BlockMeta * list backend.CompactedBlockMeta
           * list error)
  : list backend.BlockMeta * list backend.CompactedBlockMeta * list error :=
  let '(newBlockList, newCompactedBlocklist, errs) := acc in
  match r with
  | (Some m, _, _) => (newBlockList ++ [m], newCompactedBlocklist, errs)
  | (None, Some cm, _) => (newBlockList, newCompactedBlocklist ++ [cm], errs)
  | (None, None, Some pollBlockErr) =>
      (newBlockList, newCompactedBlocklist, errs ++ [pollBlockErr])
  | (None, None, None) => acc
  end.

(** The loop [for blockID, compacted := range unknownBlocks] over the
    entries in the order of the range. *)
Fixpoint pollUnknown_range (tenantID : string)
    (entries : list (backend.UUID * bool))
    (acc : list backend.BlockMeta * list backend.CompactedBlockMeta
           * list error)
  : M (list backend.BlockMeta * list backend.CompactedBlockMeta
       * list error) :=
  match entries with
  | [] => ret acc
  | (blockID, compacted) :: rest =>
      (* Avoid polling if we've already encountered an error *)
      if 0 <? Z.of_nat (length acc.2) then ret acc
      else
        let* r := pollBlock tenantID blockID compacted in
        pollUnknown_range tenantID rest (pollUnknown_collect r acc)
  end.

Definition pollUnknown (unknownBlocks : gmap backend.UUID bool)
    (tenantID : string)
  : M (list backend.BlockMeta * list backend.CompactedBlockMeta
       * option error) :=
  let* entries := ask (MapRange (map_to_list unknownBlocks)) in
  let* (newBlockList, newCompactedBlocklist, errs) :=
    pollUnknown_range tenantID entries ([], [], []) in
  if 0 <? Z.of_nat (length errs) then
    emit (EvMetric (TenantIndexErrorsInc tenantID)) ;;;
    ret ([], [], Some (ErrJoin errs))
  else ret (newBlockList, newCompactedBlocklist, None).

(** *** [pollTenantBlocks] *)

(** [for _, i := range metas { mm[i.BlockID] = i }] *)
Fixpoint index_metas (l : list backend.BlockMeta)
    (mm : gmap backend.UUID backend.BlockMeta)
  : gmap backend.UUID backend.BlockMeta :=
  match l with
  | [] => mm
  | i :: rest => index_metas rest (<[backend.BlockID i := i]> mm)
  end.

(** [for _, i := range compactedMetas { cm[i.BlockID] = i }] *)
Fixpoint index_compactedMetas (l : list backend.CompactedBlockMeta)
    (cm : gmap backend.UUID backend.CompactedBlockMeta)
  : gmap backend.UUID backend.CompactedBlockMeta :=
  match l with
  | [] => cm
  | i :: rest => index_compactedMetas rest (<[CompactedBlockID i := i]> cm)
  end.

(** The loop over [currentBlockIDs]: a known block keeps its meta, an
    unknown one is noted with [false]. *)
Fixpoint known_blocks (mm : gmap backend.UUID backend.BlockMeta)
    (currentBlockIDs : list backend.UUID)
    (newBlockList : list backend.BlockMeta)
    (unknownBlockIDs : gmap backend.UUID bool)
  : list backend.BlockMeta * gmap backend.UUID bool :=
  match currentBlockIDs with
  | [] => (newBlockList, unknownBlockIDs)
  | blockID :: rest =>
      match mm !! blockID with
      | Some v => known_blocks mm rest (newBlockList ++ [v]) unknownBlockIDs
      | None =>
          known_blocks mm rest newBlockList (<[blockID := false]> unknownBlockIDs)
      end
  end.

(** The loop over [currentCompactedBlockIDs]; unknown ones are noted with
    [true]. *)
Fixpoint known_compacted (cm : gmap backend.UUID backend.CompactedBlockMeta)
    (currentCompactedBlockIDs : list backend.UUID)
    (newCompactedBlocklist : list backend.CompactedBlockMeta)
    (unknownBlockIDs : gmap backend.UUID bool)
  : list backend.CompactedBlockMeta * gmap backend.UUID bool :=
  match currentCompactedBlockIDs with
  | [] => (newCompactedBlocklist, unknownBlockIDs)
  | blockID :: rest =>
      match cm !! blockID with
      | Some v =>
          known_compacted cm rest (newCompactedBlocklist ++ [v]) unknownBlockIDs
      | None =>
          known_compacted cm rest newCompactedBlocklist
                          (<[blockID := true]> unknownBlockIDs)
      end
  end.

Definition pollTenantBlocks (tenantID : string) (previous : List)
  : M (list backend.BlockMeta * list backend.CompactedBlockMeta
       * option error) :=
  let* (currentBlockIDs, currentCompactedBlockIDs, err) :=
    call (CallBlocks tenantID) (Blocks tenantID) in
  match err with
  | Some e => ret ([], [], Some (ErrWrap "failed listing tenant blocks" e))
  | None =>
      let mm := index_metas (Metas previous tenantID) ∅ in
      let cm := index_compactedMetas (CompactedMetas previous tenantID) ∅ in
      let '(newBlockList, unknownBlockIDs) :=
        known_blocks mm currentBlockIDs [] ∅ in
      let '(newCompactedBlocklist, unknownBlockIDs) :=
        known_compacted cm currentCompactedBlockIDs [] unknownBlockIDs in
      let* (newM, newCm, err) := pollUnknown unknownBlockIDs tenantID in
      match err with
      | Some e =>
          ret ([], [], Some (ErrWrap "failed reading unknown blocks" e))
      | None =>
          ret (newBlockList ++ newM, newCompactedBlocklist ++ newCm, None)
      end
  end.

(** *** [pollTenantAndCreateIndex] *)

(** The follower's part: [Some r] when the function returns [r] from
    there, [None] when it goes on to poll, as a builder or as a fallback. *)
Definition pollTenantAndCreateIndex_pull (tenantID : string)
  : M (option (list backend.BlockMeta * list backend.CompactedBlockMeta
               * option error)) :=
  (* are we a tenant index builder? *)
  let* builder := tenantIndexBuilder tenantID in
  if negb builder then
    emit (EvMetric (TenantIndexBuilderSet tenantID 0)) ;;;
    let* i := call (CallTenantIndex tenantID) (TenantIndex tenantID) in
    let* err := tenantIndexPollError i in
    match err, i with
    | None, inl idx =>
        (* success! return the retrieved index *)
        let* age := time_Since (backend.CreatedAt idx) in
        emit (EvMetric (TenantIndexAgeSecondsSet tenantID
                          (age `quot` 1000000000))) ;;;
        ret (Some (backend.Meta idx, backend.CompactedMeta idx, None))
    | Some e, _ | None, inr e =>
        emit (EvMetric (TenantIndexErrorsInc tenantID)) ;;;
        (* there was an error, return the error if we're not supposed to
           fallback to polling *)
        if negb (PollFallback cfg) then
          ret (Some ([], [], Some (ErrWrap
            "failed to pull tenant index and no fallback configured" e)))
        else
          emit (EvLog (LogFallingBack tenantID e)) ;;;
          ret None
    end
  else ret None.

(** The builder's part: poll the blocks, write the index, reap the tenant
    when there is no block. *)
Definition pollTenantAndCreateIndex_build (tenantID : string)
    (previous : List)
  : M (list backend.BlockMeta * list backend.CompactedBlockMeta
       * option error) :=
  emit (EvMetric (TenantIndexBuilderSet tenantID 1)) ;;;
  let* (blocklist, compactedBlocklist, err) :=
    pollTenantBlocks tenantID previous in
  match err with
  | Some e => ret ([], [], Some (ErrWrap "failed to poll tenant blocks" e))
  | None =>
      (* everything is happy, write this tenant index *)
      let* werr :=
        call (CallWriteTenantIndex tenantID blocklist compactedBlocklist)
             (WriteTenantIndex tenantID blocklist compactedBlocklist) in
      match werr with
      | Some e =>
          emit (EvMetric (TenantIndexErrorsInc tenantID)) ;;;
          emit (EvLog (LogFailedToWriteIndex tenantID e))
      | None => ret tt
      end ;;;
      let* derr :=
        (if (Z.of_nat (length blocklist) =? 0)
            && (Z.of_nat (length compactedBlocklist) =? 0)
         then deleteTenant tenantID
         else ret None) in
      match derr with
      | Some e => ret ([], [], Some (ErrWrap "failed to delete tenant" e))
      | None =>
          emit (EvMetric (TenantIndexAgeSecondsSet tenantID 0)) ;;;
          ret (blocklist, compactedBlocklist, None)
      end
  end.

Definition pollTenantAndCreateIndex (tenantID : string) (previous : List)
  : M (list backend.BlockMeta * list backend.CompactedBlockMeta
       * option error) :=
  let* pulled := pollTenantAndCreateIndex_pull tenantID in
  match pulled with
  | Some r => ret r
  | None => pollTenantAndCreateIndex_build tenantID previous
  end.

(** *** [sumTotalBackendMetaMetrics] *)

Record backendMetaMetrics := mkBackendMetaMetrics {
  blockMetaTotalObjects : Z;
  compactedBlockMetaTotalObjects : Z;
  blockMetaTotalBytes : Z;
  compactedBlockMetaTotalBytes : Z
}.

Definition sumTotalBackendMetaMetrics
    (blockMeta : list backend.BlockMeta)
    (compactedBlockMeta : list backend.CompactedBlockMeta)
  : backendMetaMetrics :=
  let sumTotalObjectsBM :=
    foldl (fun acc bm => wrap_int64 (acc + backend.TotalObjects bm))
          0 blockMeta in
  let sumTotalBytesBM :=
    foldl (fun acc bm => wrap_uint64 (acc + backend.Size_ bm))
          0 blockMeta in
  let sumTotalObjectsCBM :=
    foldl (fun acc cbm =>
             wrap_int64 (acc + backend.TotalObjects (backend.Embedded cbm)))
          0 compactedBlockMeta in
  let sumTotalBytesCBM :=
    foldl (fun acc cbm =>
             wrap_uint64 (acc + backend.Size_ (backend.Embedded cbm)))
          0 compactedBlockMeta in
  {| blockMetaTotalObjects := sumTotalObjectsBM;
     compactedBlockMetaTotalObjects := sumTotalObjectsCBM;
     blockMetaTotalBytes := sumTotalBytesBM;
     compactedBlockMetaTotalBytes := sumTotalBytesCBM |}.

(** *** [Do] *)

(** What the tenant goroutines share: the two maps under [mtx] and the
    atomic counter. *)
Record DoState := mkDoState {
  blocklist : PerTenant;
  compactedBlocklist : PerTenantCompacted;
  tenantFailuresRemaining : Z
}.

(** The loop [for consecutiveErrorsRemaining >= 0] with [n] rounds to go;
    [cur] holds [newBlockList], [newCompactedBlockList] and [err]. *)
Fixpoint Do_retry (tenantID : string) (previous : List) (n : nat)
    (cur : list backend.BlockMeta * list backend.CompactedBlockMeta
           * option error)
  : M (list backend.BlockMeta * list backend.CompactedBlockMeta
       * option error) :=
  match n with
  | O => ret cur
  | S n' =>
      let* r := pollTenantAndCreateIndex tenantID previous in
      match r.2 with
      | None => ret r
      | Some _ => Do_retry tenantID previous n' r
      end
  end.

(** The retries of one tenant: [consecutiveErrorsRemaining] starts at
    [TolerateConsecutiveErrors], the lists empty and [err] nil. *)
Definition Do_poll (tenantID : string) (previous : List)
  : M (list backend.BlockMeta * list backend.CompactedBlockMeta
       * option error) :=
  Do_retry tenantID previous
           (Z.to_nat (TolerateConsecutiveErrors cfg + 1)) ([], [], None).

(** The goroutine of one tenant. *)
Definition Do_func (tenantID : string) (previous : List) (st : DoState)
  : M DoState :=
  let* (newBlockList, newCompactedBlockList, err) :=
    Do_poll tenantID previous in
  match err with
  | Some e =>
      emit (EvLog (LogFailedToPoll tenantID e)) ;;;
      ret {| blocklist :=
               <[tenantID := Metas previous tenantID]> (blocklist st);
             compactedBlocklist :=
               <[tenantID := CompactedMetas previous tenantID]>
                 (compactedBlocklist st);
             tenantFailuresRemaining :=
               wrap_int32 (tenantFailuresRemaining st - 1) |}
  | None =>
      if (0 <? Z.of_nat (length newBlockList))
         || (0 <? Z.of_nat (length newCompactedBlockList))
      then
        let backendMetaMetrics :=
          sumTotalBackendMetaMetrics newBlockList newCompactedBlockList in
        emit (EvMetric (BlocklistLengthSet tenantID
                          (Z.of_nat (length newBlockList)))) ;;;
        emit (EvMetric (BackendObjectsSet tenantID blockStatusLiveLabel
                          (blockMetaTotalObjects backendMetaMetrics))) ;;;
        emit (EvMetric (BackendObjectsSet tenantID blockStatusCompactedLabel
                          (compactedBlockMetaTotalObjects backendMetaMetrics))) ;;;
        emit (EvMetric (BackendBytesSet tenantID blockStatusLiveLabel
                          (blockMetaTotalBytes backendMetaMetrics))) ;;;
        emit (EvMetric (BackendBytesSet tenantID blockStatusCompactedLabel
                          (compactedBlockMetaTotalBytes backendMetaMetrics))) ;;;
        ret {| blocklist := <[tenantID := newBlockList]> (blocklist st);
               compactedBlocklist :=
                 <[tenantID := newCompactedBlockList]> (compactedBlocklist st);
               tenantFailuresRemaining := tenantFailuresRemaining st |}
      else
        emit (EvMetric (BlocklistLengthDelete tenantID)) ;;;
        emit (EvMetric (BackendObjectsDelete tenantID)) ;;;
        emit (EvMetric (BackendObjectsDelete tenantID)) ;;;
        emit (EvMetric (BackendBytesDelete tenantID)) ;;;
        ret st
  end.

(** The loop [for _, tenantID := range tenants]; the error is the one of
    the cancelled context, with which [Do] returns from inside the loop. *)
Fixpoint Do_range (previous : List) (tenants : list string) (st : DoState)
  : M (DoState * option error) :=
  match tenants with
  | [] => ret (st, None)
  | tenantID :: rest =>
      (* Do not continue if we have been canceled. *)
      let* cerr := ask ctxErr in
      match cerr with
      | Some e => ret (st, Some e)
      | None =>
          (* Exit early if we have exceeded our tolerance for number of
             failing tenants. *)
          if tenantFailuresRemaining st <? 0 then
            emit (EvLog LogExitingEarly) ;;;
            ret (st, None)
          else
            let* st' := Do_func tenantID previous st in
            Do_range previous rest st'
      end
  end.

Definition ErrTooManyTenantFailures : error :=
  ErrNew "too many tenant failures; abandoning polling cycle".

(** The maps and the counter before the loop. *)
Definition Do_start : DoState :=
  {| blocklist := ∅;
     compactedBlocklist := ∅;
     tenantFailuresRemaining := wrap_int32 (TolerateTenantFailures cfg) |}.

Definition Do (previous : List)
  : M (option PerTenant * option PerTenantCompacted * option error) :=
  let* start := ask Now in
  let* (tenants, err) := call CallTenants Tenants in
  match err with
  | Some e =>
      emit (EvMetric (BlocklistErrorsInc "")) ;;;
      ret (None, None, Some e)
  | None =>
      let* (st, cerr) := Do_range previous tenants Do_start in
      match cerr with
      | Some e => ret (None, None, Some e)
      | None =>
          if tenantFailuresRemaining st <? 0 then
            ret (None, None, Some ErrTooManyTenantFailures)
          else
            let* diff := time_Since start in
            emit (EvMetric (BlocklistPollDurationObserve diff)) ;;;
            ret (Some (blocklist st), Some (compactedBlocklist st), None)
      end
  end.

End Poller.

Arguments M W A : clear implicits.

(** *** [OwnsNothingSharder] *)

(** [OwnsNothingSharder] owns nothing. *)
Definition ownsNothingSharder {W : Type} : JobSharder W :=
  {| Owns _ w := (false, w) |}.

(** ** A scripted backend

    A backend whose answers are tables, in the manner of the mock reader,
    writer and compactor of the package's tests.  The first [glitches] calls
    of [Blocks] fail, the later ones answer from the table; nothing else
    changes.  The runtime ranges over maps in the order of their keys. *)

Module Mock.

Record World := mkWorld {
  tenants : list string * option error;
  blocks : string -> list backend.UUID * list backend.UUID * option error;
  blockMeta : backend.UUID -> string ->
              option backend.BlockMeta * option error;
  compactedBlockMeta : backend.UUID -> string ->
                       option backend.CompactedBlockMeta * option error;
  tenantIndex : string -> backend.TenantIndex + error;
  noCompactFlag : backend.UUID -> string -> bool * option error;
  objects : backend.KeyPath -> list backend.FindMatch * option error;
  deleteResult : string -> backend.KeyPath -> option error;
  owned : string -> bool;
  cancelled : option error;
  clock : backend.Time;
  glitches : nat
}.

Definition glitch (w : World) : World :=
  {| tenants := tenants w; blocks := blocks w; blockMeta := blockMeta w;
     compactedBlockMeta := compactedBlockMeta w;
     tenantIndex := tenantIndex w; noCompactFlag := noCompactFlag w;
     objects := objects w; deleteResult := deleteResult w;
     owned := owned w; cancelled := cancelled w; clock := clock w;
     glitches := pred (glitches w) |}.

#[global] Instance reader : Reader World := {|
  Tenants w := (tenants w, w);
  Blocks t w :=
    match glitches w with
    | O => (blocks w t, w)
    | S _ => (([], [], Some (ErrOpaque "glitch")), glitch w)
    end;
  BlockMeta id t w := (blockMeta w id t, w);
  TenantIndex t w := (tenantIndex w t, w);
  HasNoCompactFlag id t w := (noCompactFlag w id t, w);
  Find kp w := (objects w kp, w)
|}.

#[global] Instance compactor : Compactor World := {|
  CompactedBlockMeta id t w := (compactedBlockMeta w id t, w)
|}.

#[global] Instance writer : Writer World := {|
  WriteTenantIndex _ _ _ w := (None, w);
  Delete name kp w := (deleteResult w name kp, w)
|}.

#[global] Instance sharder : JobSharder World := {|
  Owns job w := (owned w job, w)
|}.

#[global] Instance runtime : Runtime World := {|
  ctxErr w := (cancelled w, w);
  Now w := (clock w, w);
  MapRange l w := (l, w);
  MapRange_Permutation l w := Permutation_refl l
|}.

(** Blocks and metas to script with. *)
Definition meta (id : backend.UUID) (t : string) : backend.BlockMeta :=
  {| backend.BlockID := id; backend.TenantID := t;
     backend.TotalObjects := 10; backend.Size_ := 100 |}.

Definition cmeta (id : backend.UUID) (t : string)
  : backend.CompactedBlockMeta :=
  {| backend.Embedded := meta id t; backend.CompactedTime := 5 |}.

Definition config : PollerConfig :=
  {| PollConcurrency := 50; TenantPollConcurrency := 1;
     PollFallback := true; TenantIndexBuilders := 1;
     StaleTenantIndex := 0; PollJitterMs := 0;
     TolerateConsecutiveErrors := 1; TolerateTenantFailures := 1;
     EmptyTenantDeletionAge := 0; EmptyTenantDeletionEnabled := false;
     SkipNoCompactBlocks := false |}.

(** An empty store that owns every job: every answer is "nothing there". *)
Definition empty : World :=
  {| tenants := ([], None);
     blocks _ := ([], [], None);
     blockMeta _ _ := (None, Some ErrDoesNotExist);
     compactedBlockMeta _ _ := (None, Some ErrDoesNotExist);
     tenantIndex _ := inr ErrDoesNotExist;
     noCompactFlag _ _ := (false, None);
     objects _ := ([], None);
     deleteResult _ _ := None;
     owned _ := true;
     cancelled := None;
     clock := 1000;
     glitches := 0 |}.

(** A store with the tenants [ts] and the block listings [listing], in
    which every meta that is asked for is there; no tenant index. *)
Definition stocked (ts : list string)
    (listing : string -> list backend.UUID * list backend.UUID * option error)
  : World :=
  {| tenants := (ts, None);
     blocks := listing;
     blockMeta id t := (Some (meta id t), None);
     compactedBlockMeta id t := (Some (cmeta id t), None);
     tenantIndex _ := inr ErrDoesNotExist;
     noCompactFlag _ _ := (false, None);
     objects _ := ([], None);
     deleteResult _ _ := None;
     owned _ := true;
     cancelled := None;
     clock := 1000;
     glitches := 0 |}.

(** Two tenants; the listing of "t1" always fails, "t2" has one block. *)
Definition one_failing : World :=
  stocked ["t1"; "t2"]
    (fun t => if String.eqb t "t1"
              then ([], [], Some (ErrOpaque "listing failed"))
              else ([3%N], [], None)).

(** One tenant without blocks, with two old objects and no index. *)
Definition deserted : World :=
  {| tenants := (["t3"], None);
     blocks _ := ([], [], None);
     blockMeta _ _ := (None, Some ErrDoesNotExist);
     compactedBlockMeta _ _ := (None, Some ErrDoesNotExist);
     tenantIndex _ := inr ErrDoesNotExist;
     noCompactFlag _ _ := (false, None);
     objects _ :=
       ([ {| backend.Key := "t3/b1/data"; backend.Modified := 10 |};
          {| backend.Key := "t3/b1/bloom-0"; backend.Modified := 20 |} ],
        None);
     deleteResult _ _ := None;
     owned _ := true;
     cancelled := None;
     clock := 1000;
     glitches := 0 |}.

Definition strict : PollerConfig :=
  {| PollConcurrency := 50; TenantPollConcurrency := 1;
     PollFallback := false; TenantIndexBuilders := 0;
     StaleTenantIndex := 0; PollJitterMs := 0;
     TolerateConsecutiveErrors := 1; TolerateTenantFailures := 0;
     EmptyTenantDeletionAge := 0; EmptyTenantDeletionEnabled := false;
     SkipNoCompactBlocks := false |}.

Definition no_tolerance : PollerConfig :=
  {| PollConcurrency := 50; TenantPollConcurrency := 1;
     PollFallback := true; TenantIndexBuilders := 1;
     StaleTenantIndex := 0; PollJitterMs := 0;
     TolerateConsecutiveErrors := 1; TolerateTenantFailures := 0;
     EmptyTenantDeletionAge := 0; EmptyTenantDeletionEnabled := false;
     SkipNoCompactBlocks := false |}.

Definition reaping : PollerConfig :=
  {| PollConcurrency := 50; TenantPollConcurrency := 1;
     PollFallback := true; TenantIndexBuilders := 1;
     StaleTenantIndex := 0; PollJitterMs := 0;
     TolerateConsecutiveErrors := 1; TolerateTenantFailures := 1;
     EmptyTenantDeletionAge := 100; EmptyTenantDeletionEnabled := true;
     SkipNoCompactBlocks := false |}.

(** One tenant whose block 1 is listed as live and as compacted, as it
    is while the block is being marked compacted. *)
Definition listed_twice : World :=
  stocked ["t1"] (fun _ => ([1%N], [1%N], None)).

(** A meta of block 1 as an earlier cycle has read it. *)
Definition old_meta : backend.BlockMeta :=
  {| backend.BlockID := 1; backend.TenantID := "t1";
     backend.TotalObjects := 7; backend.Size_ := 70 |}.

Definition old_list : List :=
  {| metas := {[ "t1" := [old_meta] ]}; compactedMetas := ∅ |}.

(** A previous list that knows the live block 2 of tenant t1 and nothing
    else. *)
Definition second_known : List :=
  {| metas := {[ "t1" := [meta 2%N "t1"] ]}; compactedMetas := ∅ |}.

(** One tenant whose block 1 cannot be read. *)
Definition broken : World :=
  {| tenants := (["t1"], None);
     blocks _ := ([1%N], [], None);
     blockMeta _ _ := (None, Some (ErrOpaque "read failed"));
     compactedBlockMeta _ _ := (None, Some ErrDoesNotExist);
     tenantIndex _ := inr ErrDoesNotExist;
     noCompactFlag _ _ := (false, None);
     objects _ := ([], None);
     deleteResult _ _ := None;
     owned _ := true;
     cancelled := None;
     clock := 1000;
     glitches := 0 |}.

(** One tenant without blocks whose objects cannot be walked. *)
Definition unwalkable : World :=
  {| tenants := (["t3"], None);
     blocks _ := ([], [], None);
     blockMeta _ _ := (None, Some ErrDoesNotExist);
     compactedBlockMeta _ _ := (None, Some ErrDoesNotExist);
     tenantIndex _ := inr ErrDoesNotExist;
     noCompactFlag _ _ := (false, None);
     objects _ := ([], Some (ErrOpaque "walk failed"));
     deleteResult _ _ := None;
     owned _ := true;
     cancelled := None;
     clock := 1000;
     glitches := 0 |}.

(** One tenant with the live blocks 1 and 2; block 2 carries the nocompact
    flag. *)
Definition flagged : World :=
  {| tenants := (["t1"], None);
     blocks _ := ([1%N; 2%N], [], None);
     blockMeta id t := (Some (meta id t), None);
     compactedBlockMeta id t := (Some (cmeta id t), None);
     tenantIndex _ := inr ErrDoesNotExist;
     noCompactFlag id _ := ((id =? 2)%N, None);
     objects _ := ([], None);
     deleteResult _ _ := None;
     owned _ := true;
     cancelled := None;
     clock := 1000;
     glitches := 0 |}.

(** One tenant whose index is there, written at time 900; no job is
    owned. *)
Definition index_of_t1 : backend.TenantIndex :=
  {| backend.CreatedAt := 900;
     backend.Meta := [meta 1%N "t1"];
     backend.CompactedMeta := [cmeta 2%N "t1"] |}.

Definition indexed : World :=
  {| tenants := (["t1"], None);
     blocks _ := ([5%N], [], None);
     blockMeta id t := (Some (meta id t), None);
     compactedBlockMeta id t := (Some (cmeta id t), None);
     tenantIndex _ := inl index_of_t1;
     noCompactFlag _ _ := (false, None);
     objects _ := ([], None);
     deleteResult _ _ := None;
     owned _ := false;
     cancelled := None;
     clock := 1000;
     glitches := 0 |}.

(** A store whose tenants cannot be listed. *)
Definition unlisted : World :=
  {| tenants := ([], Some (ErrOpaque "listing tenants failed"));
     blocks _ := ([], [], None);
     blockMeta _ _ := (None, Some ErrDoesNotExist);
     compactedBlockMeta _ _ := (None, Some ErrDoesNotExist);
     tenantIndex _ := inr ErrDoesNotExist;
     noCompactFlag _ _ := (false, None);
     objects _ := ([], None);
     deleteResult _ _ := None;
     owned _ := true;
     cancelled := None;
     clock := 1000;
     glitches := 0 |}.

(** One tenant with one block, and a parent context that is cancelled. *)
Definition called_off : World :=
  {| tenants := (["t1"], None);
     blocks _ := ([1%N], [], None);
     blockMeta id t := (Some (meta id t), None);
     compactedBlockMeta id t := (Some (cmeta id t), None);
     tenantIndex _ := inr ErrDoesNotExist;
     noCompactFlag _ _ := (false, None);
     objects _ := ([], None);
     deleteResult _ _ := None;
     owned _ := true;
     cancelled := Some (ErrOpaque "context canceled");
     clock := 1000;
     glitches := 0 |}.

Definition skipping : PollerConfig :=
  {| PollConcurrency := 50; TenantPollConcurrency := 1;
     PollFallback := true; TenantIndexBuilders := 1;
     StaleTenantIndex := 0; PollJitterMs := 0;
     TolerateConsecutiveErrors := 1; TolerateTenantFailures := 1;
     EmptyTenantDeletionAge := 0; EmptyTenantDeletionEnabled := false;
     SkipNoCompactBlocks := true |}.

Definition no_retry : PollerConfig :=
  {| PollConcurrency := 50; TenantPollConcurrency := 1;
     PollFallback := true; TenantIndexBuilders := 1;
     StaleTenantIndex := 0; PollJitterMs := 0;
     TolerateConsecutiveErrors := -1; TolerateTenantFailures := 1;
     EmptyTenantDeletionAge := 0; EmptyTenantDeletionEnabled := false;
     SkipNoCompactBlocks := false |}.

Definition no_budget : PollerConfig :=
  {| PollConcurrency := 50; TenantPollConcurrency := 1;
     PollFallback := true; TenantIndexBuilders := 1;
     StaleTenantIndex := 0; PollJitterMs := 0;
     TolerateConsecutiveErrors := 1; TolerateTenantFailures := -1;
     EmptyTenantDeletionAge := 0; EmptyTenantDeletionEnabled := false;
     SkipNoCompactBlocks := false |}.

(** One tenant with the live block 1. *)
Definition one_block : World := stocked ["t1"] (fun _ => ([1%N], [], None)).

(** A previous list that holds two metas under the ID of block 1. *)
Definition held_twice : List :=
  {| metas := {[ "t1" := [old_meta; meta 1%N "t1"] ]}; compactedMetas := ∅ |}.

(** The store [w] whose next [n] listings of blocks fail. *)
Definition failing_first (n : nat) (w : World) : World :=
  {| tenants := tenants w; blocks := blocks w; blockMeta := blockMeta w;
     compactedBlockMeta := compactedBlockMeta w;
     tenantIndex := tenantIndex w; noCompactFlag := noCompactFlag w;
     objects := objects w; deleteResult := deleteResult w;
     owned := owned w; cancelled := cancelled w; clock := clock w;
     glitches := n |}.

(** A tenant listing that names "t1" twice; the tenant has one block, and
    the first two listings of blocks fail. *)
Definition named_twice : World :=
  failing_first 2 (stocked ["t1"; "t1"] (fun _ => ([1%N], [], None))).

(** A tenant listing that names "t3" twice; the tenant has no block, and
    the first two listings of blocks fail. *)
Definition nothing_twice : World :=
  failing_first 2 (stocked ["t3"; "t3"] (fun _ => ([], [], None))).

(** One tenant with the live blocks 1 and 7; block 7 has neither meta. *)
Definition ghost : World :=
  {| tenants := (["t1"], None);
     blocks _ := ([1%N; 7%N], [], None);
     blockMeta id t :=
       if (id =? 7)%N then (None, Some ErrDoesNotExist)
       else (Some (meta id t), None);
     compactedBlockMeta _ _ := (None, Some ErrDoesNotExist);
     tenantIndex _ := inr ErrDoesNotExist;
     noCompactFlag _ _ := (false, None);
     objects _ := ([], None);
     deleteResult _ _ := None;
     owned _ := true;
     cancelled := None;
     clock := 1000;
     glitches := 0 |}.

End Mock.

Definition emptyList : List := {| metas := ∅; compactedMetas := ∅ |}.

(** ** A steady backend

    The backend of a snapshot: it has no state (its world is [unit]), so
    every call is answered the same way each time, and nothing is written. *)

Module Steady.

Section Snapshot.

Variable s : Mock.World.

Definition reader : Reader unit := {|
  Tenants _ := (Mock.tenants s, tt);
  Blocks t _ := (Mock.blocks s t, tt);
  BlockMeta id t _ := (Mock.blockMeta s id t, tt);
  TenantIndex t _ := (Mock.tenantIndex s t, tt);
  HasNoCompactFlag id t _ := (Mock.noCompactFlag s id t, tt);
  Find kp _ := (Mock.objects s kp, tt)
|}.

Definition compactor : Compactor unit := {|
  CompactedBlockMeta id t _ := (Mock.compactedBlockMeta s id t, tt)
|}.

Definition writer : Writer unit := {|
  WriteTenantIndex _ _ _ _ := (None, tt);
  Delete name kp _ := (Mock.deleteResult s name kp, tt)
|}.

Definition sharder : JobSharder unit := {|
  Owns job _ := (Mock.owned s job, tt)
|}.

Definition runtime : Runtime unit := {|
  ctxErr _ := (Mock.cancelled s, tt);
  Now _ := (Mock.clock s, tt);
  MapRange l _ := (l, tt);
  MapRange_Permutation l _ := Permutation_refl l
|}.

End Snapshot.

(** One tenant with the live blocks 1 and 2 and the compacted block 3; the
    meta of block 2 is gone, its compacted meta is there. *)
Definition snapshot : Mock.World :=
  {| Mock.tenants := (["t1"], None);
     Mock.blocks _ := ([1%N; 2%N], [3%N], None);
     Mock.blockMeta id t :=
       if (id =? 2)%N then (None, Some ErrDoesNotExist)
       else (Some (Mock.meta id t), None);
     Mock.compactedBlockMeta id t := (Some (Mock.cmeta id t), None);
     Mock.tenantIndex _ := inr ErrDoesNotExist;
     Mock.noCompactFlag _ _ := (false, None);
     Mock.objects _ := ([], None);
     Mock.deleteResult _ _ := None;
     Mock.owned _ := true;
     Mock.cancelled := None;
     Mock.clock := 1000;
     Mock.glitches := 0 |}.

#[global] Instance snapshot_reader : Reader unit := reader snapshot.
#[global] Instance snapshot_compactor : Compactor unit := compactor snapshot.
#[global] Instance snapshot_writer : Writer unit := writer snapshot.
#[global] Instance snapshot_sharder : JobSharder unit := sharder snapshot.
#[global] Instance snapshot_runtime : Runtime unit := runtime snapshot.

End Steady.

(** ** A backend whose context runs out

    The answers of the store, the sharder and the clock are those of a
    snapshot [s] and do not change; the world counts the checks of the
    context made so far, and the context is cancelled from check number
    [patience] on. *)

Module Deadline.

Section Script.

Variable s : Mock.World.
Variable patience : nat.

Definition reader : Reader nat := {|
  Tenants n := (Mock.tenants s, n);
  Blocks t n := (Mock.blocks s t, n);
  BlockMeta id t n := (Mock.blockMeta s id t, n);
  TenantIndex t n := (Mock.tenantIndex s t, n);
  HasNoCompactFlag id t n := (Mock.noCompactFlag s id t, n);
  Find kp n := (Mock.objects s kp, n)
|}.

Definition compactor : Compactor nat := {|
  CompactedBlockMeta id t n := (Mock.compactedBlockMeta s id t, n)
|}.

Definition writer : Writer nat := {|
  WriteTenantIndex _ _ _ n := (None, n);
  Delete name kp n := (Mock.deleteResult s name kp, n)
|}.

Definition sharder : JobSharder nat := {|
  Owns job n := (Mock.owned s job, n)
|}.

Definition runtime : Runtime nat := {|
  ctxErr n :=
    (if (patience <=? n)%nat then Some (ErrOpaque "context canceled")
     else None,
     S n);
  Now n := (Mock.clock s, n);
  MapRange l n := (l, n);
  MapRange_Permutation l n := Permutation_refl l
|}.

End Script.

(** The script of the examples: the store of [Mock.one_failing], and a
    context that is cancelled from its second check on. *)
#[global] Instance script_reader : Reader nat := reader Mock.one_failing.
#[global] Instance script_compactor : Compactor nat :=
  compactor Mock.one_failing.
#[global] Instance script_writer : Writer nat := writer Mock.one_failing.
#[global] Instance script_sharder : JobSharder nat := sharder Mock.one_failing.
#[global] Instance script_runtime : Runtime nat := runtime Mock.one_failing 1.

End Deadline.

(** ** Vocabulary of the statements *)

(** The nocompact gate of [pollBlock] lets a block listed as live through,
    from world [w] to world [w1]: either the gate is off, or the flag is
    read and is not set. *)
Definition gate_open `{!Reader W} (cfg : PollerConfig)
    (blockID : backend.UUID) (tenantID : string) (w w1 : W) : Prop :=
  (SkipNoCompactBlocks cfg = false /\ w1 = w)
  \/ (SkipNoCompactBlocks cfg = true
      /\ HasNoCompactFlag blockID tenantID w = ((false, None), w1)).

(** The calls of [Delete] among the events. *)
Definition is_delete (e : Event) : bool :=
  match e with EvCall (CallDelete _ _ _) => true | _ => false end.

Definition deletes (l : list Event) : list Event := List.filter is_delete l.

(** The calls [Delete(name, KeyPath{dir})] for the objects, in their order,
    with the results they had. *)
Fixpoint delete_calls (objects : list string) (results : list (option error))
  : list Event :=
  match objects, results with
  | object :: objects', r :: results' =>
      EvCall (CallDelete (path_Split object).2 [(path_Split object).1] r)
        :: delete_calls objects' results'
  | _, _ => []
  end.

(** [errors.Is(err, backend.ErrDoesNotExist)] on the error of an index
    read. *)
Definition index_missing (r : backend.TenantIndex + error) : bool :=
  match r with
  | inl _ => false
  | inr e => isDoesNotExist e
  end.

(** What [Do] does once the poll of a tenant is over says how it ended:
    the log line of a failure, the length gauge set after a poll that
    found blocks, the length gauge deleted after one that found none.
    Every other event comes from the poll itself. *)
Definition is_outcome (e : Event) : bool :=
  match e with
  | EvLog (LogFailedToPoll _ _) => true
  | EvMetric (BlocklistLengthSet _ _) => true
  | EvMetric (BlocklistLengthDelete _) => true
  | _ => false
  end.

Definition inner (e : Event) : Prop := is_outcome e = false.

(** The tenant whose poll an outcome event is about. *)
Definition about (T : string) (e : Event) : Prop :=
  match e with
  | EvLog (LogFailedToPoll T' _) => T' = T
  | EvMetric (BlocklistLengthSet T' _) => T' = T
  | EvMetric (BlocklistLengthDelete T') => T' = T
  | _ => False
  end.

(** Every event of the computation [m] satisfies [P]. *)
Definition emits {W A} (P : Event -> Prop) (m : M W A) : Prop :=
  forall w, Forall P (evs (m w)).

(** The block IDs of a live and a compacted list, in a row. *)
Definition block_ids (live : list backend.BlockMeta)
    (compacted : list backend.CompactedBlockMeta) : list backend.UUID :=
  map backend.BlockID live ++ map CompactedBlockID compacted.

(** Every block ID appears at most once across the two lists. *)
Definition unique_block_ids (live : list backend.BlockMeta)
    (compacted : list backend.CompactedBlockMeta) : Prop :=
  NoDup (block_ids live compacted).

(** The metas that the store hands out carry the ID they were asked for. *)
Definition metas_carry_their_id `{!Reader W, !Compactor W} : Prop :=
  (forall id t w m, (BlockMeta id t w).1.1 = Some m -> backend.BlockID m = id)
  /\ (forall id t w m,
        (CompactedBlockMeta id t w).1.1 = Some m -> CompactedBlockID m = id).

(** The store lists no block of a tenant twice, neither within its live or
    its compacted listing nor across the two. *)
Definition listings_are_sets `{!Reader W} : Prop :=
  forall t w, NoDup ((Blocks t w).1.1.1 ++ (Blocks t w).1.1.2).

(** The tenant indexes of the store have every block at most once. *)
Definition indexes_are_sound `{!Reader W} : Prop :=
  forall t w idx,
    (TenantIndex t w).1 = inl idx ->
    unique_block_ids (backend.Meta idx) (backend.CompactedMeta idx).

(** The same of a blocklist. *)
Definition list_is_sound (l : List) : Prop :=
  forall t, unique_block_ids (Metas l t) (CompactedMetas l t).

(** Every value the computation [m] can return satisfies [Q]. *)
Definition returns {W A} (Q : A -> Prop) (m : M W A) : Prop :=
  forall w, Q (val (m w)).

(** The entries of one tenant in the two maps satisfy [Q] wherever both
    are there. *)
Definition entries_satisfy
    (Q : list backend.BlockMeta -> list backend.CompactedBlockMeta -> Prop)
    (bl : PerTenant) (cbl : PerTenantCompacted) : Prop :=
  forall T live comp, bl !! T = Some live -> cbl !! T = Some comp -> Q live comp.

Definition unique_result
    (r : list backend.BlockMeta * list backend.CompactedBlockMeta
         * option error) : Prop :=
  unique_block_ids r.1.1 r.1.2.

(** The backend does not change: each of its answers is the same in every
    world.  (The order in which the runtime ranges over a map may still
    differ from one time to the next.) *)
Record unchanging `{!Reader W, !Compactor W, !Writer W, !JobSharder W,
                    !Runtime W} : Prop := {
  same_Tenants : forall w w', (Tenants w).1 = (Tenants w').1;
  same_Blocks : forall t w w', (Blocks t w).1 = (Blocks t w').1;
  same_BlockMeta : forall id t w w', (BlockMeta id t w).1 = (BlockMeta id t w').1;
  same_TenantIndex : forall t w w', (TenantIndex t w).1 = (TenantIndex t w').1;
  same_HasNoCompactFlag :
    forall id t w w', (HasNoCompactFlag id t w).1 = (HasNoCompactFlag id t w').1;
  same_Find : forall kp w w', (Find kp w).1 = (Find kp w').1;
  same_CompactedBlockMeta :
    forall id t w w',
      (CompactedBlockMeta id t w).1 = (CompactedBlockMeta id t w').1;
  same_Delete : forall name kp w w', (Delete name kp w).1 = (Delete name kp w').1;
  same_Owns : forall job w w', (Owns job w).1 = (Owns job w').1;
  same_ctxErr : forall w w', (ctxErr w).1 = (ctxErr w').1;
  same_Now : forall w w', (Now w).1 = (Now w').1
}.

(** Whatever the worlds, the values of [m] and [m'] are related by [R]. *)
Definition agree {W A B} (R : A -> B -> Prop) (m : M W A) (m' : M W B) : Prop :=
  forall w w', R (val (m w)) (val (m' w')).

(** Two results of a poll are alike: both are errors, or both are lists,
    the same up to the order of their elements. *)
Definition alike
    (r r' : list backend.BlockMeta * list backend.CompactedBlockMeta
            * option error) : Prop :=
  match r.2, r'.2 with
  | Some _, Some _ => True
  | None, None => r.1.1 ≡ₚ r'.1.1 /\ r.1.2 ≡ₚ r'.1.2
  | _, _ => False
  end.

(** The loop of [pollUnknown] over answers [R] that do not depend on the
    world. *)
Fixpoint collect_all
    (R : backend.UUID * bool ->
         option backend.BlockMeta * option backend.CompactedBlockMeta
         * option error)
    (entries : list (backend.UUID * bool))
    (acc : list backend.BlockMeta * list backend.CompactedBlockMeta
           * list error)
  : list backend.BlockMeta * list backend.CompactedBlockMeta * list error :=
  match entries with
  | [] => acc
  | e :: rest =>
      if 0 <? Z.of_nat (length acc.2) then acc
      else collect_all R rest (pollUnknown_collect (R e) acc)
  end.

(** A result of [pollBlock] has one meta at most, and none with an error. *)
Definition well_shaped
    (r : option backend.BlockMeta * option backend.CompactedBlockMeta
         * option error) : Prop :=
  match r with
  | (Some _, None, None) | (None, Some _, None) | (None, None, _) => True
  | _ => False
  end.

(** The blocks of a listing that [pollTenantBlocks] has to read, given the
    previous live and compacted metas. *)
Definition unknown_of (pl : list backend.BlockMeta)
    (pc : list backend.CompactedBlockMeta) (live comp : list backend.UUID)
  : gmap backend.UUID bool :=
  (known_compacted (index_compactedMetas pc ∅) comp []
     (known_blocks (index_metas pl ∅) live [] ∅).2).2.

(** The lists of a successful [pollTenantBlocks], up to order: the known
    metas of the listing and the metas that the answers [R] give for the
    unknown blocks. *)
Definition polled_live
    (R : backend.UUID * bool ->
         option backend.BlockMeta * option backend.CompactedBlockMeta
         * option error)
    (pl : list backend.BlockMeta) (pc : list backend.CompactedBlockMeta)
    (live comp : list backend.UUID) : list backend.BlockMeta :=
  omap (fun id => index_metas pl ∅ !! id) live
  ++ omap (fun e => (R e).1.1) (map_to_list (unknown_of pl pc live comp)).

Definition polled_compacted
    (R : backend.UUID * bool ->
         option backend.BlockMeta * option backend.CompactedBlockMeta
         * option error)
    (pl : list backend.BlockMeta) (pc : list backend.CompactedBlockMeta)
    (live comp : list backend.UUID) : list backend.CompactedBlockMeta :=
  omap (fun id => index_compactedMetas pc ∅ !! id) comp
  ++ omap (fun e => (R e).1.2) (map_to_list (unknown_of pl pc live comp)).

(** No unknown block has an error for answer. *)
Definition all_resolved
    (R : backend.UUID * bool ->
         option backend.BlockMeta * option backend.CompactedBlockMeta
         * option error)
    (unknown : gmap backend.UUID bool) : Prop :=
  Forall (fun e => (R e).2 = None) (map_to_list unknown).

(** If the first poll has succeeded, so has the second one, with the same
    lists up to order. *)
Definition again
    (r r' : list backend.BlockMeta * list backend.CompactedBlockMeta
            * option error) : Prop :=
  r.2 = None -> r'.2 = None /\ r'.1.1 ≡ₚ r.1.1 /\ r'.1.2 ≡ₚ r.1.2.

(** The entries that the goroutine of tenant [T] leaves in the maps, given
    the result [r] of its poll. *)
Definition entry_of
    (r : list backend.BlockMeta * list backend.CompactedBlockMeta
         * option error)
    (previous : List) (T : string)
    (eb : option (list backend.BlockMeta))
    (ec : option (list backend.CompactedBlockMeta)) : Prop :=
  match r.2 with
  | Some _ =>
      eb = Some (Metas previous T) /\ ec = Some (CompactedMetas previous T)
  | None =>
      if (0 <? Z.of_nat (length r.1.1)) || (0 <? Z.of_nat (length r.1.2))
      then eb = Some r.1.1 /\ ec = Some r.1.2
      else eb = None /\ ec = None
  end.

(** Two entries of a map are the same up to the order of the list. *)
Definition same_up_to_order {A} (e e' : option (list A)) : Prop :=
  match e, e' with
  | Some l, Some l' => l ≡ₚ l'
  | None, None => True
  | _, _ => False
  end.

(** The answer of [pollBlock] for an entry of the map of unknown blocks. *)
Definition resolve `{!Reader W, !Compactor W, !Writer W, !JobSharder W,
                     !Runtime W}
    (cfg : PollerConfig) (tenantID : string) (w0 : W)
    (e : backend.UUID * bool)
  : option backend.BlockMeta * option backend.CompactedBlockMeta
    * option error :=
  val (pollBlock cfg tenantID e.1 e.2 w0).

(** ** Vocabulary of the further properties *)

(** The job that [tenantIndexBuilder] asks the sharder about in round [i]. *)
Definition builder_job (tenant : string) (i : Z) : string :=
  jobPrefix +:+ pretty i +:+ "-" +:+ tenant.

(** The sum of a list of numbers, without bounds. *)
Definition Zsum (l : list Z) : Z := foldr Z.add 0 l.

(** The totals of live and compacted metas as unbounded sums. *)
Definition exact_totals (blockMeta : list backend.BlockMeta)
    (compactedBlockMeta : list backend.CompactedBlockMeta)
  : backendMetaMetrics :=
  {| blockMetaTotalObjects := Zsum (map backend.TotalObjects blockMeta);
     compactedBlockMetaTotalObjects :=
       Zsum (map (fun c => backend.TotalObjects (backend.Embedded c))
                 compactedBlockMeta);
     blockMetaTotalBytes := Zsum (map backend.Size_ blockMeta);
     compactedBlockMetaTotalBytes :=
       Zsum (map (fun c => backend.Size_ (backend.Embedded c))
                 compactedBlockMeta) |}.

(** The counts and sizes of a meta fit the sums: they are not negative. *)
Definition plausible (m : backend.BlockMeta) : Prop :=
  0 <= backend.TotalObjects m /\ 0 <= backend.Size_ m.

(** What [pollBlock] and [pollUnknown] do for tenant [T]: the reads of a
    block, and the count of a failure. *)
Definition reads_blocks_of (T : string) (e : Event) : Prop :=
  match e with
  | EvCall (CallBlockMeta _ t) | EvCall (CallCompactedBlockMeta _ t)
  | EvCall (CallHasNoCompactFlag _ t) | EvMetric (TenantIndexErrorsInc t) =>
      t = T
  | _ => False
  end.

(** What the follower's part of [pollTenantAndCreateIndex] does for tenant
    [T]. *)
Definition pulls_index_of (T : string) (e : Event) : Prop :=
  match e with
  | EvCall (CallOwns job) => exists i : Z, job = builder_job T i
  | EvCall (CallTenantIndex t) | EvLog (LogFallingBack t _)
  | EvMetric (TenantIndexErrorsInc t) | EvMetric (TenantIndexBuilderSet t _)
  | EvMetric (TenantIndexAgeSecondsSet t _) => t = T
  | _ => False
  end.

(** What [deleteTenant] does for tenant [T]. *)
Definition reaps (T : string) (e : Event) : Prop :=
  match e with
  | EvCall (CallFind kp) => kp = [T]
  | EvCall (CallTenantIndex t) => t = T
  | EvCall (CallDelete _ _ _) => True
  | _ => False
  end.

(** The walk over a tenant's objects and their deletion. *)
Definition is_reaping (e : Event) : bool :=
  match e with
  | EvCall (CallFind _) | EvCall (CallDelete _ _ _) => true
  | _ => false
  end.

(** The listing of a tenant's blocks. *)
Definition is_listing (e : Event) : bool :=
  match e with EvCall (CallBlocks _) => true | _ => false end.

(** The calls a follower makes: it lists the tenants, asks the sharder and
    pulls tenant indexes. *)
Definition follower_call (e : Event) : bool :=
  match e with
  | EvCall CallTenants | EvCall (CallOwns _) | EvCall (CallTenantIndex _) =>
      true
  | EvCall _ => false
  | _ => true
  end.

(** The tenant that a call of the store or of the compactor is about. *)
Definition called_tenant (c : Call) : option string :=
  match c with
  | CallBlocks t | CallBlockMeta _ t | CallCompactedBlockMeta _ t
  | CallTenantIndex t | CallHasNoCompactFlag _ t
  | CallWriteTenantIndex t _ _ => Some t
  | _ => None
  end.

(** The failed polls among the events. *)
Definition is_failure (e : Event) : bool :=
  match e with EvLog (LogFailedToPoll _ _) => true | _ => false end.

(** What [pollTenantAndCreateIndex] does for tenant [T], all in all. *)
Definition poll_event (T : string) (e : Event) : Prop :=
  match e with
  | EvCall CallTenants => False
  | EvCall (CallOwns job) => exists i : Z, job = builder_job T i
  | EvCall (CallFind kp) => kp = [T]
  | EvCall (CallDelete _ _ _) => True
  | EvCall c => called_tenant c = Some T
  | EvLog (LogFallingBack t _) | EvLog (LogFailedToWriteIndex t _) => t = T
  | EvLog _ => False
  | EvMetric (TenantIndexErrorsInc t) | EvMetric (TenantIndexBuilderSet t _)
  | EvMetric (TenantIndexAgeSecondsSet t _) => t = T
  | EvMetric _ => False
  end.

(** What the goroutine of tenant [T] in [Do] notes after the poll. *)
Definition tenant_note (T : string) (e : Event) : Prop :=
  match e with
  | EvLog (LogFailedToPoll t _) | EvMetric (BlocklistLengthSet t _)
  | EvMetric (BlocklistLengthDelete t) | EvMetric (BackendObjectsSet t _ _)
  | EvMetric (BackendObjectsDelete t) | EvMetric (BackendBytesSet t _ _)
  | EvMetric (BackendBytesDelete t) => t = T
  | _ => False
  end.

(** What [Do] does itself, outside of the goroutines of the tenants. *)
Definition cycle_event (e : Event) : Prop :=
  match e with
  | EvCall CallTenants | EvMetric (BlocklistErrorsInc "") | EvLog LogExitingEarly
  | EvMetric (BlocklistPollDurationObserve _) => True
  | _ => False
  end.

(** An event of [Do] is its own or belongs to a tenant of [tenants]. *)
Definition cycle_over (tenants : list string) (e : Event) : Prop :=
  cycle_event e
  \/ exists T, T ∈ tenants /\ (poll_event T e \/ tenant_note T e).

(** How many events of a kind there are. *)
Definition count (f : Event -> bool) (l : list Event) : nat :=
  length (List.filter f l).

(** [Do] has returned with nil maps and an error, or with maps and no
    error. *)
Definition maps_or_error
    (r : option PerTenant * option PerTenantCompacted * option error) : Prop :=
  match r with
  | (Some _, Some _, None) | (None, None, Some _) => True
  | _ => False
  end.

(** ** Vocabulary of the cycle, tenant by tenant *)

(** The loop of [Do] over the tenants [pre], the first ones of the
    listing. *)
Definition Do_upto `{!Reader W, !Compactor W, !Writer W, !JobSharder W,
                     !Runtime W}
    (cfg : PollerConfig) (previous : List) (w : W) (pre : list string)
  : DoState * option error * W * list Event :=
  Do_range cfg previous pre (Do_start cfg) (Tenants (Now w).2).2.

(** The failure counter once the goroutines of [pre] are over. *)
Definition failures_remaining `{!Reader W, !Compactor W, !Writer W,
                                !JobSharder W, !Runtime W}
    (cfg : PollerConfig) (previous : List) (w : W) (pre : list string) : Z :=
  tenantFailuresRemaining (val (Do_upto cfg previous w pre)).1.

(** The world in which the goroutine of the tenant listed next after [pre]
    starts: the goroutines of [pre] are over and the context has been
    checked. *)
Definition Do_world_after `{!Reader W, !Compactor W, !Writer W,
                            !JobSharder W, !Runtime W}
    (cfg : PollerConfig) (previous : List) (w : W) (pre : list string) : W :=
  (ctxErr (wld (Do_upto cfg previous w pre))).2.

(** The [n] attempts of polling the tenant [T], made one after the other
    from the world [w], all fail. *)
Fixpoint every_attempt_fails `{!Reader W, !Compactor W, !Writer W,
                                 !JobSharder W, !Runtime W}
    (cfg : PollerConfig) (T : string) (previous : List) (n : nat) (w : W)
  : Prop :=
  match n with
  | O => True
  | S n' =>
      (val (pollTenantAndCreateIndex cfg T previous w)).2 <> None
      /\ every_attempt_fails cfg T previous n'
           (wld (pollTenantAndCreateIndex cfg T previous w))
  end.

(** ** Vocabulary of the blocks without metas *)

(** The reads of the blocks of the tenant [T] fail with DoesNotExist or
    not at all, and the nocompact flag, when it is looked at, is read
    without error. *)
Definition reads_fail_softly `{!Reader W, !Compactor W}
    (cfg : PollerConfig) (T : string) : Prop :=
  forall (id : backend.UUID) (w : W),
    (SkipNoCompactBlocks cfg = true -> (HasNoCompactFlag id T w).1.2 = None)
    /\ ((BlockMeta id T w).1.2 = None
        \/ errors_Is_DoesNotExist (BlockMeta id T w).1.2 = true)
    /\ ((CompactedBlockMeta id T w).1.2 = None
        \/ errors_Is_DoesNotExist (CompactedBlockMeta id T w).1.2 = true).

(** The block [B] of the tenant [T] has neither meta: both reads fail
    with DoesNotExist. *)
Definition without_metas `{!Reader W, !Compactor W}
    (T : string) (B : backend.UUID) : Prop :=
  forall w : W,
    errors_Is_DoesNotExist (BlockMeta B T w).1.2 = true
    /\ errors_Is_DoesNotExist (CompactedBlockMeta B T w).1.2 = true.

(** The previous list has no meta of the block [B] for the tenant [T]. *)
Definition unknown_to (previous : List) (T : string) (B : backend.UUID)
  : Prop :=
  (forall m, m ∈ Metas previous T -> backend.BlockID m <> B)
  /\ (forall c, c ∈ CompactedMetas previous T -> CompactedBlockID c <> B).

(** ** Vocabulary of the reaper *)

(** The objects of a walk, each with the time at which the callback of
    [deleteTenant] looks at it: the clock is read once for every object,
    in the order of the walk.  The world is the one after the walk. *)
Fixpoint looked_at `{!Runtime W} (matches : list backend.FindMatch) (w : W)
  : list (backend.FindMatch * backend.Time) * W :=
  match matches with
  | [] => ([], w)
  | o :: rest =>
      let seen := looked_at rest (Now w).2 in
      ((o, (Now w).1) :: seen.1, seen.2)
  end.

(** * Properties *)

(** Case analysis on the innermost scrutinee of the goal. *)
Ltac case_run :=
  match goal with
  | |- context [match ?x with _ => _ end] =>
      lazymatch x with
      | context [match _ with _ => _ end] => fail
      | _ => destruct x eqn:?
      end
  end.

Section PollerFacts.

Context {W : Type}.
Context `{!Reader W, !Compactor W, !Writer W, !JobSharder W, !Runtime W}.
Variable cfg : PollerConfig.

(** ** Running the monad *)

Lemma bind_run {A B} (m : M W A) (k : A -> M W B) w :
  bind m k w =
    (val (k (val (m w)) (wld (m w))),
     wld (k (val (m w)) (wld (m w))),
     evs (m w) ++ evs (k (val (m w)) (wld (m w)))).
Proof.
  unfold bind, val, wld, evs.
  destruct (m w) as [[a w1] e1]; simpl.
  destruct (k a w1) as [[b w2] e2]; reflexivity.
Qed.

Lemma bind_val {A B} (m : M W A) (k : A -> M W B) w :
  val (bind m k w) = val (k (val (m w)) (wld (m w))).
Proof. rewrite bind_run. reflexivity. Qed.

Lemma bind_wld {A B} (m : M W A) (k : A -> M W B) w :
  wld (bind m k w) = wld (k (val (m w)) (wld (m w))).
Proof. rewrite bind_run. reflexivity. Qed.

Lemma bind_evs {A B} (m : M W A) (k : A -> M W B) w :
  evs (bind m k w) = evs (m w) ++ evs (k (val (m w)) (wld (m w))).
Proof. rewrite bind_run. reflexivity. Qed.

Lemma call_eq {A} (c : Call) (op : W -> A * W) w a w1 :
  op w = (a, w1) -> call c op w = (a, w1, [EvCall c]).
Proof. intros E. unfold call. rewrite E. reflexivity. Qed.

Lemma call_with_eq {A} (c : A -> Call) (op : W -> A * W) w a w1 :
  op w = (a, w1) -> call_with c op w = (a, w1, [EvCall (c a)]).
Proof. intros E. unfold call_with. rewrite E. reflexivity. Qed.

Lemma ask_eq {A} (op : W -> A * W) w a w1 :
  op w = (a, w1) -> ask op w = (a, w1, []).
Proof. intros E. unfold ask. rewrite E. reflexivity. Qed.

(** ** [pollBlock] *)

(** C10. [pollBlock] never returns a live meta together with a compacted
    meta: whatever the reader and the compactor answer, one of the two
    metas it returns is nil. *)
Theorem C10_pollBlock_at_most_one_meta :
  forall (tenantID : string) (blockID : backend.UUID) (compacted : bool)
         (w : W),
    (val (pollBlock cfg tenantID blockID compacted w)).1.1 = None
    \/ (val (pollBlock cfg tenantID blockID compacted w)).1.2 = None.
Proof.
  intros. unfold pollBlock, bind, call, ret, val.
  repeat (case_run; simpl in *; simplify_eq; auto).
Qed.

(** ** [tenantIndexBuilder] *)

(** C8. With zero or fewer tenant index builders configured,
    [tenantIndexBuilder] returns false without asking the sharder, so the
    tenant is polled as a follower; with no fallback to polling, a tenant
    whose index cannot be read then fails. *)
Theorem C8_no_builders_means_follower :
  forall (tenant : string) (w : W),
    TenantIndexBuilders cfg <= 0 ->
    tenantIndexBuilder cfg tenant w = (false, w, [])
    /\ forall (previous : List) (e : error) (w1 : W),
         PollFallback cfg = false ->
         TenantIndex tenant w = (inr e, w1) ->
         val (pollTenantAndCreateIndex cfg tenant previous w)
         = ([], [], Some (ErrWrap
             "failed to pull tenant index and no fallback configured" e)).
Proof.
  intros tenant w Hn.
  assert (Hb : tenantIndexBuilder cfg tenant w = (false, w, [])).
  { unfold tenantIndexBuilder.
    replace (Z.to_nat (TenantIndexBuilders cfg)) with O by lia.
    reflexivity. }
  split; [exact Hb|].
  intros previous e w1 Hf Hidx.
  unfold pollTenantAndCreateIndex, pollTenantAndCreateIndex_pull,
    bind, emit, call, val.
  rewrite Hb. simpl. rewrite Hidx. simpl. rewrite Hf. reflexivity.
Qed.

(** ** [deleteTenant] *)

Lemma deleteTenant_visit_evs matches found recent w :
  evs (deleteTenant_visit cfg matches found recent w) = [].
Proof.
  revert found recent w.
  induction matches as [|o rest IH]; intros found recent w; [reflexivity|].
  cbn [deleteTenant_visit]. rewrite bind_evs.
  unfold time_Since. rewrite bind_evs, bind_val, bind_wld.
  destruct (Now w) as [now w1] eqn:Hnow. rewrite (ask_eq _ _ _ _ Hnow).
  cbn [val wld evs ret fst snd app].
  match goal with |- context [if ?b then _ else _] => destruct b end;
    apply IH.
Qed.

(** With a clock that stands still, the callback sorts the matches by
    their age: the keys of those older than the deletion age are kept,
    the others are counted. *)
Lemma deleteTenant_visit_steady (now : backend.Time) matches found recent w :
  (forall w', (Now w').1 = now) ->
  val (deleteTenant_visit cfg matches found recent w)
  = (found ++ map backend.Key
       (List.filter
          (fun o => saturate_int64 (now - backend.Modified o)
                    >? EmptyTenantDeletionAge cfg) matches),
     recent + Z.of_nat (length
       (List.filter
          (fun o => negb (saturate_int64 (now - backend.Modified o)
                          >? EmptyTenantDeletionAge cfg)) matches))).
Proof.
  intros Hclock. revert found recent w.
  induction matches as [|o rest IH]; intros found recent w.
  - simpl. rewrite app_nil_r, Z.add_0_r. reflexivity.
  - cbn [deleteTenant_visit]. rewrite bind_val.
    unfold time_Since. rewrite bind_val, bind_wld.
    destruct (Now w) as [now' w1] eqn:Hnow. rewrite (ask_eq _ _ _ _ Hnow).
    cbn [val wld ret fst snd].
    assert (now' = now) as -> by (rewrite <- (Hclock w), Hnow; reflexivity).
    cbn [List.filter].
    destruct (saturate_int64 (now - backend.Modified o)
              >? EmptyTenantDeletionAge cfg); rewrite IH; cbn [negb].
    + rewrite <- app_assoc. reflexivity.
    + f_equal. simpl length. lia.
Qed.

Lemma deleteTenant_delete_spec found w :
  match val (deleteTenant_delete found w) with
  | None =>
      evs (deleteTenant_delete found w)
      = delete_calls found (replicate (length found) None)
  | Some e =>
      exists n : nat,
        (n < length found)%nat
        /\ evs (deleteTenant_delete found w)
           = delete_calls (take (S n) found) (replicate n None ++ [Some e])
  end.
Proof.
  revert w. induction found as [|o rest IH]; intros w; [reflexivity|].
  cbn [deleteTenant_delete].
  destruct (path_Split o) as [dir name] eqn:Hsplit.
  rewrite bind_val, bind_evs.
  destruct (Delete name [dir] w) as [[e|] w1] eqn:Hdel;
    rewrite (call_with_eq _ _ _ _ _ Hdel); cbn [val wld evs ret fst snd].
  - exists O. split; [simpl; lia|]. simpl. rewrite Hsplit. reflexivity.
  - specialize (IH w1). destruct (val (deleteTenant_delete rest w1)) as [e|].
    + destruct IH as (n & Hn & Hev). exists (S n). split; [simpl; lia|].
      rewrite Hev. simpl. rewrite Hsplit. reflexivity.
    + rewrite IH. simpl. rewrite Hsplit. reflexivity.
Qed.

Lemma deleteTenant_delete_only_deletes found w :
  deletes (evs (deleteTenant_delete found w))
  = evs (deleteTenant_delete found w).
Proof.
  revert w. induction found as [|o rest IH]; intros w; [reflexivity|].
  cbn [deleteTenant_delete].
  destruct (path_Split o) as [dir name] eqn:Hsplit.
  rewrite bind_evs.
  destruct (Delete name [dir] w) as [[e|] w1] eqn:Hdel;
    rewrite (call_with_eq _ _ _ _ _ Hdel); cbn [val wld evs ret fst snd].
  - reflexivity.
  - simpl. f_equal. apply IH.
Qed.

(** The callback sorts the objects by the age they have when it looks at
    them: the keys of those older than the deletion age are kept, the
    others are counted. *)
Lemma deleteTenant_visit_looked_at matches found recent w :
  let seen := looked_at matches w in
  val (deleteTenant_visit cfg matches found recent w)
  = (found ++ map (fun s => backend.Key s.1)
       (List.filter
          (fun s => saturate_int64 (s.2 - backend.Modified s.1)
                    >? EmptyTenantDeletionAge cfg) seen.1),
     recent + Z.of_nat (length
       (List.filter
          (fun s => negb (saturate_int64 (s.2 - backend.Modified s.1)
                          >? EmptyTenantDeletionAge cfg)) seen.1)))
  /\ wld (deleteTenant_visit cfg matches found recent w) = seen.2.
Proof.
  revert found recent w.
  induction matches as [|o rest IH]; intros found recent w.
  - simpl. rewrite app_nil_r, Z.add_0_r. split; reflexivity.
  - cbn [deleteTenant_visit looked_at]. rewrite bind_val, bind_wld.
    unfold time_Since. rewrite bind_val, bind_wld.
    destruct (Now w) as [now w1] eqn:Hnow. rewrite (ask_eq _ _ _ _ Hnow).
    cbn [val wld ret fst snd List.filter].
    destruct (saturate_int64 (now - backend.Modified o)
              >? EmptyTenantDeletionAge cfg); cbn [negb];
      match goal with
      | |- context [deleteTenant_visit cfg rest ?f ?r w1] =>
          destruct (IH f r w1) as [-> ->]
      end; cbv zeta; cbn [map length fst snd].
    + rewrite <- app_assoc. split; reflexivity.
    + split; [|reflexivity]. f_equal. lia.
Qed.

(** A list none of whose elements fails a test passes it whole. *)
Lemma filter_without_rest {A} (p : A -> bool) (l : list A) :
  List.filter (fun x => negb (p x)) l = [] -> List.filter p l = l.
Proof.
  induction l as [|x l IH]; [reflexivity|]. simpl.
  destruct (p x); simpl; [|discriminate]. intros Hl. f_equal. auto.
Qed.

(** After a walk that succeeds, in terms of what the callback has
    gathered. *)
Lemma deleteTenant_after_the_walk :
  forall (tenantID : string) (w : W),
    EmptyTenantDeletionEnabled cfg = true ->
    EmptyTenantDeletionAge cfg <> 0 ->
    forall (matches : list backend.FindMatch) (w1 : W),
      Find [tenantID] w = ((matches, None), w1) ->
      let visit := deleteTenant_visit cfg matches [] 0 w1 in
      let foundObjects := (val visit).1 in
      let recentObjects := (val visit).2 in
      (0 < recentObjects ->
       val (deleteTenant cfg tenantID w) = None
       /\ deletes (evs (deleteTenant cfg tenantID w)) = [])
      /\ (recentObjects <= 0 ->
          forall (r : backend.TenantIndex + error) (w2 : W),
            TenantIndex tenantID (wld visit) = (r, w2) ->
            (index_missing r = false ->
             val (deleteTenant cfg tenantID w) = None
             /\ deletes (evs (deleteTenant cfg tenantID w)) = [])
            /\ (index_missing r = true ->
                match val (deleteTenant cfg tenantID w) with
                | None =>
                    deletes (evs (deleteTenant cfg tenantID w))
                    = delete_calls foundObjects
                        (replicate (length foundObjects) None)
                | Some e =>
                    exists n : nat,
                      (n < length foundObjects)%nat
                      /\ deletes (evs (deleteTenant cfg tenantID w))
                         = delete_calls (take (S n) foundObjects)
                             (replicate n None ++ [Some e])
                end)).
Proof.
  intros tenantID w He Ha matches w1 Hfind visit foundObjects recentObjects.
  assert (Ha' : (EmptyTenantDeletionAge cfg =? 0) = false) by lia.
  unfold deleteTenant. rewrite He, Ha'. cbn [negb].
  rewrite bind_val, bind_evs. rewrite (call_eq _ _ _ _ _ Hfind).
  cbn [val wld evs fst snd].
  rewrite bind_val, bind_evs. fold visit.
  pose proof (deleteTenant_visit_evs matches [] 0 w1) as Hvis.
  fold visit in Hvis. rewrite Hvis.
  destruct (val visit) as [found recent] eqn:Hv.
  subst foundObjects recentObjects. cbn [fst snd].
  split.
  - intros Hr. replace (recent >? 0) with true by lia. split; reflexivity.
  - intros Hr r w2 Hidx. replace (recent >? 0) with false by lia.
    rewrite bind_val, bind_evs. rewrite (call_eq _ _ _ _ _ Hidx).
    cbn [val wld evs fst snd].
    assert (Hm : errors_Is_DoesNotExist
                   match r with inl _ => None | inr e => Some e end
                 = index_missing r) by (destruct r; reflexivity).
    rewrite Hm. split; intros Hmiss; rewrite Hmiss; cbn [negb].
    + split; reflexivity.
    + pose proof (deleteTenant_delete_spec found w2) as Hd.
      cbn [app deletes List.filter is_delete].
      fold (deletes (evs (deleteTenant_delete found w2))).
      rewrite deleteTenant_delete_only_deletes. exact Hd.
Qed.


(** ** The delta of [pollTenantBlocks] *)

Lemma index_metas_other l mm k :
  (forall i, i ∈ l -> backend.BlockID i <> k) ->
  index_metas l mm !! k = mm !! k.
Proof.
  revert mm. induction l as [|i rest IH]; intros mm Hl; [reflexivity|].
  cbn [index_metas]. rewrite IH by (intros; apply Hl; right; assumption).
  apply lookup_insert_ne. apply Hl. left.
Qed.

Lemma index_metas_unique l mm M :
  M ∈ l ->
  (forall M', M' ∈ l -> backend.BlockID M' = backend.BlockID M -> M' = M) ->
  index_metas l mm !! backend.BlockID M = Some M.
Proof.
  revert mm. induction l as [|i rest IH]; intros mm Hin Huniq.
  { inversion Hin. }
  cbn [index_metas].
  destruct (decide (M ∈ rest)) as [Hrest|Hrest].
  - apply IH; [assumption|]. intros M' HM'. apply Huniq. right; assumption.
  - apply elem_of_cons in Hin as [->|Hin]; [|contradiction].
    rewrite index_metas_other; [apply lookup_insert_eq|].
    intros j Hj Heq. apply Hrest.
    rewrite <- (Huniq j); [assumption|right; assumption|assumption].
Qed.

Lemma known_blocks_fst mm ids acc unk :
  (known_blocks mm ids acc unk).1 = acc ++ omap (fun id => mm !! id) ids.
Proof.
  revert acc unk. induction ids as [|id rest IH]; intros acc unk.
  - simpl. rewrite app_nil_r. reflexivity.
  - cbn [known_blocks omap list_omap]. destruct (mm !! id) as [v|] eqn:Hv.
    + rewrite IH, <- app_assoc. reflexivity.
    + rewrite IH. reflexivity.
Qed.

Lemma known_blocks_snd mm ids acc unk k :
  (known_blocks mm ids acc unk).2 !! k
  = if decide (k ∈ ids /\ mm !! k = None) then Some false else unk !! k.
Proof.
  revert acc unk. induction ids as [|id rest IH]; intros acc unk.
  - cbn [known_blocks snd]. rewrite decide_False; [reflexivity|].
    intros [Hk _]. inversion Hk.
  - cbn [known_blocks]. destruct (mm !! id) as [v|] eqn:Hv; rewrite IH.
    + apply decide_ext. rewrite elem_of_cons. naive_solver.
    + destruct (decide (id = k)) as [->|Hne].
      * rewrite lookup_insert_eq.
        rewrite (decide_True (P := k ∈ k :: rest /\ _));
          [|split; [left|assumption]].
        match goal with |- context [decide ?P] => destruct (decide P) end;
          reflexivity.
      * rewrite lookup_insert_ne by assumption.
        apply decide_ext. rewrite elem_of_cons. naive_solver.
Qed.

Lemma known_compacted_fst cm ids acc unk :
  (known_compacted cm ids acc unk).1 = acc ++ omap (fun id => cm !! id) ids.
Proof.
  revert acc unk. induction ids as [|id rest IH]; intros acc unk.
  - simpl. rewrite app_nil_r. reflexivity.
  - cbn [known_compacted omap list_omap]. destruct (cm !! id) as [v|] eqn:Hv.
    + rewrite IH, <- app_assoc. reflexivity.
    + rewrite IH. reflexivity.
Qed.

Lemma known_compacted_snd cm ids acc unk k :
  (known_compacted cm ids acc unk).2 !! k
  = if decide (k ∈ ids /\ cm !! k = None) then Some true else unk !! k.
Proof.
  revert acc unk. induction ids as [|id rest IH]; intros acc unk.
  - cbn [known_compacted snd]. rewrite decide_False; [reflexivity|].
    intros [Hk _]. inversion Hk.
  - cbn [known_compacted]. destruct (cm !! id) as [v|] eqn:Hv; rewrite IH.
    + apply decide_ext. rewrite elem_of_cons. naive_solver.
    + destruct (decide (id = k)) as [->|Hne].
      * rewrite lookup_insert_eq.
        rewrite (decide_True (P := k ∈ k :: rest /\ _));
          [|split; [left|assumption]].
        match goal with |- context [decide ?P] => destruct (decide P) end;
          reflexivity.
      * rewrite lookup_insert_ne by assumption.
        apply decide_ext. rewrite elem_of_cons. naive_solver.
Qed.

(** ** The calls of [pollBlock] and [pollUnknown] *)

Lemma pollBlock_reads tenantID blockID compacted w id t :
  In (EvCall (CallBlockMeta id t))
     (evs (pollBlock cfg tenantID blockID compacted w)) ->
  id = blockID /\ t = tenantID /\ compacted = false.
Proof.
  unfold pollBlock, bind, call, ret, evs.
  destruct compacted; simpl;
    repeat (case_run; simpl in *; simplify_eq); intros Hin;
    rewrite ?in_app_iff in Hin; simpl in Hin; naive_solver.
Qed.

Lemma pollUnknown_range_reads tenantID entries acc w id t :
  In (EvCall (CallBlockMeta id t))
     (evs (pollUnknown_range cfg tenantID entries acc w)) ->
  In (id, false) entries /\ t = tenantID.
Proof.
  revert acc w. induction entries as [|[blockID compacted] rest IH];
    intros acc w Hin.
  - destruct Hin.
  - cbn [pollUnknown_range] in Hin.
    destruct (0 <? Z.of_nat (length acc.2)); [destruct Hin|].
    rewrite bind_evs in Hin. apply in_app_or in Hin as [Hin|Hin].
    + apply pollBlock_reads in Hin as (-> & -> & ->). split; [left|]; reflexivity.
    + apply IH in Hin as [Hin ->]. split; [right; assumption|reflexivity].
Qed.

Lemma pollUnknown_reads unknownBlocks tenantID w id t :
  In (EvCall (CallBlockMeta id t))
     (evs (pollUnknown cfg unknownBlocks tenantID w)) ->
  unknownBlocks !! id = Some false.
Proof.
  unfold pollUnknown. rewrite bind_evs.
  destruct (MapRange (map_to_list unknownBlocks) w) as [entries w1] eqn:Hrange.
  rewrite (ask_eq _ _ _ _ Hrange). cbn [val wld evs fst snd app].
  rewrite bind_evs. intros Hin. apply in_app_or in Hin as [Hin|Hin].
  - apply pollUnknown_range_reads in Hin as [Hin _].
    pose proof (MapRange_Permutation (map_to_list unknownBlocks) w) as Hperm.
    rewrite Hrange in Hperm. cbn [fst] in Hperm.
    apply list_elem_of_In in Hin. rewrite Hperm in Hin.
    apply elem_of_map_to_list in Hin. exact Hin.
  - destruct (val (pollUnknown_range cfg tenantID entries ([], [], []) w1))
      as [[nb nc] errs].
    destruct (0 <? Z.of_nat (length errs)).
    + rewrite bind_evs in Hin. simpl in Hin. destruct Hin as [Hin|[]]. discriminate.
    + destruct Hin.
Qed.

(** The lists of [pollTenantBlocks] when it succeeds: the known metas in
    the order of the listing, then the newly read ones. *)
Lemma pollTenantBlocks_run tenantID previous w live comp w1 :
  Blocks tenantID w = ((live, comp, None), w1) ->
  let mm := index_metas (Metas previous tenantID) ∅ in
  let cm := index_compactedMetas (CompactedMetas previous tenantID) ∅ in
  let unknown :=
    (known_compacted cm comp [] (known_blocks mm live [] ∅).2).2 in
  let polled := pollUnknown cfg unknown tenantID w1 in
  val (pollTenantBlocks cfg tenantID previous w)
  = match (val polled).2 with
    | Some e => ([], [], Some (ErrWrap "failed reading unknown blocks" e))
    | None =>
        (omap (fun id => mm !! id) live ++ (val polled).1.1,
         omap (fun id => cm !! id) comp ++ (val polled).1.2, None)
    end
  /\ evs (pollTenantBlocks cfg tenantID previous w)
     = EvCall (CallBlocks tenantID) :: evs polled.
Proof.
  intros Hblocks mm cm unknown polled.
  unfold pollTenantBlocks. rewrite bind_val, bind_evs.
  rewrite (call_eq _ _ _ _ _ Hblocks). cbn [val wld evs fst snd].
  fold mm cm.
  pose proof (known_blocks_fst mm live [] ∅) as Hk1.
  destruct (known_blocks mm live [] ∅) as [nb unk1] eqn:Hkb.
  pose proof (known_compacted_fst cm comp [] unk1) as Hk2.
  subst unknown. cbn [snd] in *.
  destruct (known_compacted cm comp [] unk1) as [nc unk2] eqn:Hkc.
  cbn [fst snd] in *. subst nb nc. cbn [app].
  rewrite bind_val, bind_evs. fold polled.
  destruct (val polled) as [[newM newCm] [e|]]; cbn [fst snd];
    rewrite app_nil_r; split; reflexivity.
Qed.

Lemma index_metas_app l1 l2 mm :
  index_metas (l1 ++ l2) mm = index_metas l2 (index_metas l1 mm).
Proof.
  revert mm. induction l1 as [|i rest IH]; intros mm; [reflexivity|].
  cbn [app index_metas]. apply IH.
Qed.

(** The map of the previous metas holds, for a block, the last meta of
    the list that has its ID. *)
Lemma index_metas_last before M after mm :
  (forall M', M' ∈ after -> backend.BlockID M' <> backend.BlockID M) ->
  index_metas (before ++ M :: after) mm !! backend.BlockID M = Some M.
Proof.
  intros Hafter. rewrite index_metas_app. cbn [index_metas].
  rewrite index_metas_other by exact Hafter. apply lookup_insert_eq.
Qed.

(** C2, amended. On the builder path, a block [B] that the store still
    lists as live and for which the previous list holds the meta [M] as
    the last meta with the ID [B] (the previous list is [before], then
    [M], then [after], and no meta of [after] has the ID [B]) keeps that
    very meta in the live list that is returned, and its meta is not read
    from the store. *)
Theorem C2_known_meta_is_carried_forward :
  forall (tenantID : string) (previous : List) (w w1 : W)
         (live comp : list backend.UUID)
         (B : backend.UUID) (M : backend.BlockMeta)
         (before after : list backend.BlockMeta)
         (l : list backend.BlockMeta) (c : list backend.CompactedBlockMeta),
    Blocks tenantID w = ((live, comp, None), w1) ->
    Metas previous tenantID = before ++ M :: after ->
    backend.BlockID M = B ->
    (forall M', M' ∈ after -> backend.BlockID M' <> B) ->
    B ∈ live ->
    val (pollTenantBlocks cfg tenantID previous w) = (l, c, None) ->
    M ∈ l
    /\ ~ In (EvCall (CallBlockMeta B tenantID))
            (evs (pollTenantBlocks cfg tenantID previous w)).
Proof.
  intros tenantID previous w w1 live comp B M before after l c
         Hblocks HM HB Hlast Hlive Hval.
  destruct (pollTenantBlocks_run tenantID previous w live comp w1 Hblocks)
    as [Hv He].
  set (mm := index_metas (Metas previous tenantID) ∅) in *.
  set (cm := index_compactedMetas (CompactedMetas previous tenantID) ∅) in *.
  assert (Hmm : mm !! B = Some M).
  { subst B mm. rewrite HM. apply index_metas_last. exact Hlast. }
  split.
  - rewrite Hv in Hval.
    destruct (val (pollUnknown cfg _ tenantID w1)).2; [discriminate|].
    injection Hval as <- _. apply elem_of_app. left.
    apply list_elem_of_omap. exists B. split; assumption.
  - rewrite He. intros [Hin|Hin]; [discriminate|].
    apply pollUnknown_reads in Hin.
    rewrite known_compacted_snd in Hin. case_decide; [discriminate|].
    rewrite known_blocks_snd in Hin. case_decide as Hd.
    + destruct Hd as [_ Hd]. congruence.
    + rewrite lookup_empty in Hin. discriminate.
Qed.

(** ** Events of a kind *)

Lemma emits_ret {A} P (a : A) : emits P (ret a : M W A).
Proof. intros w. constructor. Qed.

Lemma emits_ask {A} P (op : W -> A * W) : emits P (ask op).
Proof. intros w. unfold ask. destruct (op w). constructor. Qed.

Lemma emits_emit P e : P e -> emits P (emit e : M W unit).
Proof. intros He w. repeat constructor. exact He. Qed.

Lemma emits_call {A} P c (op : W -> A * W) : P (EvCall c) -> emits P (call c op).
Proof. intros He w. unfold call. destruct (op w). repeat constructor. exact He. Qed.

Lemma emits_call_with {A} P c (op : W -> A * W) :
  (forall a, P (EvCall (c a))) -> emits P (call_with c op).
Proof.
  intros He w. unfold call_with. destruct (op w). repeat constructor. apply He.
Qed.

Lemma emits_bind {A B} P (m : M W A) (k : A -> M W B) :
  emits P m -> (forall a, emits P (k a)) -> emits P (bind m k).
Proof.
  intros Hm Hk w. rewrite bind_evs. apply Forall_app. split; [apply Hm|apply Hk].
Qed.

Ltac emits_step :=
  first
    [ apply emits_ret
    | apply emits_ask
    | apply emits_emit; reflexivity
    | apply emits_call; reflexivity
    | apply emits_call_with; intros; reflexivity
    | apply emits_bind; [|intros]
    | match goal with
      | |- emits _ (let _ := _ in _) => cbv zeta
      | |- emits _ (match ?x with _ => _ end) => destruct x
      end ].

Lemma pollBlock_inner tenantID blockID compacted :
  emits inner (pollBlock cfg tenantID blockID compacted).
Proof. unfold pollBlock. repeat emits_step. Qed.

Lemma tenantIndexBuilder_inner tenant : emits inner (tenantIndexBuilder cfg tenant).
Proof.
  unfold tenantIndexBuilder. generalize 0.
  induction (Z.to_nat (TenantIndexBuilders cfg)) as [|n IH]; intros i;
    cbn [tenantIndexBuilder_from]; repeat emits_step. apply IH.
Qed.

Lemma time_Since_inner t : emits inner (time_Since t).
Proof. unfold time_Since. repeat emits_step. Qed.

Lemma tenantIndexPollError_inner r : emits inner (tenantIndexPollError cfg r).
Proof. unfold tenantIndexPollError. repeat (apply time_Since_inner || emits_step). Qed.

Lemma deleteTenant_inner tenantID : emits inner (deleteTenant cfg tenantID).
Proof.
  assert (Hv : forall ms f r, emits inner (deleteTenant_visit cfg ms f r)).
  { induction ms as [|o rest IH]; intros f r; cbn [deleteTenant_visit];
      repeat (apply time_Since_inner || emits_step); apply IH. }
  assert (Hd : forall f, emits inner (deleteTenant_delete f)).
  { induction f as [|o rest IH]; cbn [deleteTenant_delete];
      repeat emits_step. apply IH. }
  unfold deleteTenant. repeat (apply Hv || apply Hd || emits_step).
Qed.

Lemma pollUnknown_inner unknownBlocks tenantID :
  emits inner (pollUnknown cfg unknownBlocks tenantID).
Proof.
  assert (Hr : forall entries acc,
             emits inner (pollUnknown_range cfg tenantID entries acc)).
  { induction entries as [|[id c] rest IH]; intros acc;
      cbn [pollUnknown_range]; repeat (apply pollBlock_inner || emits_step).
    apply IH. }
  unfold pollUnknown. repeat (apply Hr || emits_step).
Qed.

Lemma pollTenantBlocks_inner tenantID previous :
  emits inner (pollTenantBlocks cfg tenantID previous).
Proof.
  unfold pollTenantBlocks. repeat (apply pollUnknown_inner || emits_step).
Qed.

Lemma pollTenantAndCreateIndex_inner tenantID previous :
  emits inner (pollTenantAndCreateIndex cfg tenantID previous).
Proof.
  unfold pollTenantAndCreateIndex, pollTenantAndCreateIndex_pull,
    pollTenantAndCreateIndex_build.
  repeat (apply tenantIndexBuilder_inner
          || apply tenantIndexPollError_inner || apply time_Since_inner
          || apply pollTenantBlocks_inner || apply deleteTenant_inner
          || emits_step).
Qed.

Lemma Do_retry_inner tenantID previous n cur :
  emits inner (Do_retry cfg tenantID previous n cur).
Proof.
  revert cur. induction n as [|n IH]; intros cur; cbn [Do_retry];
    repeat (apply pollTenantAndCreateIndex_inner || emits_step). apply IH.
Qed.


Lemma Do_poll_inner tenantID previous :
  emits inner (Do_poll cfg tenantID previous).
Proof. apply Do_retry_inner. Qed.

(** ** The goroutine of a tenant *)

Lemma not_inner_outcome e l :
  In e l -> is_outcome e = true -> Forall inner l -> False.
Proof.
  intros Hin He Hl. rewrite Forall_forall in Hl.
  apply list_elem_of_In, Hl in Hin. unfold inner in Hin. congruence.
Qed.

Lemma Do_func_failed tenantID previous st w e :
  (val (Do_poll cfg tenantID previous w)).2 = Some e ->
  val (Do_func cfg tenantID previous st w)
  = {| blocklist := <[tenantID := Metas previous tenantID]> (blocklist st);
       compactedBlocklist :=
         <[tenantID := CompactedMetas previous tenantID]>
           (compactedBlocklist st);
       tenantFailuresRemaining :=
         wrap_int32 (tenantFailuresRemaining st - 1) |}
  /\ evs (Do_func cfg tenantID previous st w)
     = evs (Do_poll cfg tenantID previous w) ++ [EvLog (LogFailedToPoll tenantID e)].
Proof.
  intros He. unfold Do_func. rewrite bind_val, bind_evs. fold (Do_poll cfg tenantID previous w).
  destruct (val (Do_poll cfg tenantID previous w)) as [[nb nc] err].
  cbn [snd] in He. subst err. split; reflexivity.
Qed.

Lemma Do_func_succeeded tenantID previous st w :
  (val (Do_poll cfg tenantID previous w)).2 = None ->
  let newBlockList := (val (Do_poll cfg tenantID previous w)).1.1 in
  let newCompactedBlockList := (val (Do_poll cfg tenantID previous w)).1.2 in
  if (0 <? Z.of_nat (length newBlockList))
     || (0 <? Z.of_nat (length newCompactedBlockList))
  then
    val (Do_func cfg tenantID previous st w)
    = {| blocklist := <[tenantID := newBlockList]> (blocklist st);
         compactedBlocklist :=
           <[tenantID := newCompactedBlockList]> (compactedBlocklist st);
         tenantFailuresRemaining := tenantFailuresRemaining st |}
    /\ exists tail,
         evs (Do_func cfg tenantID previous st w)
         = evs (Do_poll cfg tenantID previous w)
           ++ EvMetric (BlocklistLengthSet tenantID
                          (Z.of_nat (length newBlockList))) :: tail
         /\ Forall inner tail
  else
    val (Do_func cfg tenantID previous st w) = st
    /\ exists tail,
         evs (Do_func cfg tenantID previous st w)
         = evs (Do_poll cfg tenantID previous w)
           ++ EvMetric (BlocklistLengthDelete tenantID) :: tail
         /\ Forall inner tail.
Proof.
  intros He. unfold Do_func. rewrite bind_val, bind_evs.
  fold (Do_poll cfg tenantID previous w).
  destruct (val (Do_poll cfg tenantID previous w)) as [[nb nc] err].
  cbn [fst snd] in *. subst err.
  destruct ((0 <? Z.of_nat (length nb)) || (0 <? Z.of_nat (length nc))).
  - split; [reflexivity|]. eexists. split; [reflexivity|].
    repeat constructor.
  - split; [reflexivity|]. eexists. split; [reflexivity|].
    repeat constructor.
Qed.

(** How the poll of a tenant ended, read off the events. *)
Lemma Do_func_outcome tenantID previous st w e :
  is_outcome e = true ->
  In e (evs (Do_func cfg tenantID previous st w)) ->
  match e with
  | EvLog (LogFailedToPoll T err) =>
      T = tenantID
      /\ (val (Do_poll cfg tenantID previous w)).2 = Some err
  | EvMetric (BlocklistLengthSet T n) =>
      T = tenantID
      /\ (val (Do_poll cfg tenantID previous w)).2 = None
      /\ n = Z.of_nat (length (val (Do_poll cfg tenantID previous w)).1.1)
      /\ ((val (Do_poll cfg tenantID previous w)).1.1 <> []
          \/ (val (Do_poll cfg tenantID previous w)).1.2 <> [])
  | EvMetric (BlocklistLengthDelete T) =>
      T = tenantID
      /\ val (Do_poll cfg tenantID previous w) = ([], [], None)
  | _ => False
  end.
Proof.
  intros Hout Hin.
  pose proof (Do_poll_inner tenantID previous w) as Hinner.
  fold (Do_poll cfg tenantID previous w) in Hinner.
  destruct (val (Do_poll cfg tenantID previous w)).2 as [err|] eqn:Herr.
  - destruct (Do_func_failed tenantID previous st w err Herr) as [_ Hev].
    rewrite Hev in Hin. apply in_app_or in Hin as [Hin|[<-|[]]].
    + exfalso. eapply not_inner_outcome; [exact Hin|exact Hout|assumption].
    + split; reflexivity.
  - pose proof (Do_func_succeeded tenantID previous st w Herr) as Hs.
    cbv zeta in Hs.
    destruct (val (Do_poll cfg tenantID previous w)) as [[nb nc] err'].
    cbn [fst snd] in *.
    destruct ((0 <? Z.of_nat (length nb)) || (0 <? Z.of_nat (length nc)))
      eqn:Hlen; destruct Hs as (_ & tail & Hev & Htail);
      rewrite Hev in Hin; apply in_app_or in Hin as [Hin|[<-|Hin]];
      try (exfalso; eapply not_inner_outcome;
           [exact Hin|exact Hout|assumption]).
    + repeat split; try reflexivity.
      destruct nb; [|left; discriminate]. destruct nc; [|right; discriminate].
      discriminate.
    + subst err'. split; [reflexivity|].
      destruct nb; [|discriminate]. destruct nc; [|discriminate]. reflexivity.
Qed.


Lemma Do_func_about tenantID previous st w e T :
  about T e ->
  In e (evs (Do_func cfg tenantID previous st w)) ->
  T = tenantID.
Proof.
  intros Ha Hin.
  assert (Hout : is_outcome e = true)
    by (destruct e as [?|[]|[]]; try destruct Ha; reflexivity).
  pose proof (Do_func_outcome tenantID previous st w e Hout Hin) as Ho.
  destruct e as [?|[]|[]]; try destruct Ha; cbn in *; destruct Ho; congruence.
Qed.

Lemma Do_func_other tenantID previous st w T :
  T <> tenantID ->
  blocklist (val (Do_func cfg tenantID previous st w)) !! T
  = blocklist st !! T
  /\ compactedBlocklist (val (Do_func cfg tenantID previous st w)) !! T
     = compactedBlocklist st !! T.
Proof.
  intros Hne.
  destruct (val (Do_poll cfg tenantID previous w)).2 as [err|] eqn:Herr.
  - destruct (Do_func_failed tenantID previous st w err Herr) as [-> _].
    cbn [blocklist compactedBlocklist].
    rewrite !lookup_insert_ne by congruence. split; reflexivity.
  - pose proof (Do_func_succeeded tenantID previous st w Herr) as Hs.
    cbv zeta in Hs.
    destruct (_ || _); destruct Hs as [-> _]; [|split; reflexivity].
    cbn [blocklist compactedBlocklist].
    rewrite !lookup_insert_ne by congruence. split; reflexivity.
Qed.

Lemma Do_func_counter tenantID previous st w :
  tenantFailuresRemaining (val (Do_func cfg tenantID previous st w))
  = match (val (Do_poll cfg tenantID previous w)).2 with
    | Some _ => wrap_int32 (tenantFailuresRemaining st - 1)
    | None => tenantFailuresRemaining st
    end.
Proof.
  destruct (val (Do_poll cfg tenantID previous w)).2 as [err|] eqn:Herr.
  - destruct (Do_func_failed tenantID previous st w err Herr) as [-> _].
    reflexivity.
  - pose proof (Do_func_succeeded tenantID previous st w Herr) as Hs.
    cbv zeta in Hs. destruct (_ || _); destruct Hs as [-> _]; reflexivity.
Qed.

(** ** The loop over the tenants *)

Lemma Do_range_cons previous tenantID rest st w :
  Do_range cfg previous (tenantID :: rest) st w
  = match (ctxErr w).1 with
    | Some e => ((st, Some e), (ctxErr w).2, [])
    | None =>
        if tenantFailuresRemaining st <? 0
        then ((st, None), (ctxErr w).2, [EvLog LogExitingEarly])
        else
          let task := Do_func cfg tenantID previous st (ctxErr w).2 in
          let r := Do_range cfg previous rest (val task) (wld task) in
          (val r, wld r, evs task ++ evs r)
    end.
Proof.
  cbn [Do_range]. rewrite bind_run.
  destruct (ctxErr w) as [[e|] w0] eqn:Hctx; rewrite (ask_eq _ _ _ _ Hctx);
    cbn [val wld evs fst snd app]; [reflexivity|].
  destruct (tenantFailuresRemaining st <? 0); [reflexivity|].
  rewrite bind_run. reflexivity.
Qed.

Lemma Do_range_other previous tenants st w T :
  T ∉ tenants ->
  blocklist (val (Do_range cfg previous tenants st w)).1 !! T
  = blocklist st !! T
  /\ compactedBlocklist (val (Do_range cfg previous tenants st w)).1 !! T
     = compactedBlocklist st !! T
  /\ forall e, about T e ->
               ~ In e (evs (Do_range cfg previous tenants st w)).
Proof.
  revert st w. induction tenants as [|t rest IH]; intros st w Hnot.
  - repeat split. intros e _ [].
  - rewrite Do_range_cons. apply not_elem_of_cons in Hnot as [Hne Hrest].
    destruct (ctxErr w).1 as [cerr|]; [repeat split; intros e _ []|].
    destruct (tenantFailuresRemaining st <? 0).
    + repeat split. intros e Ha [<-|[]]. exact Ha.
    + cbv zeta. cbn [val wld evs fst snd].
      destruct (IH (val (Do_func cfg t previous st (ctxErr w).2))
                   (wld (Do_func cfg t previous st (ctxErr w).2)) Hrest)
        as (Hb & Hc & He).
      destruct (Do_func_other t previous st (ctxErr w).2 T Hne) as [Hb' Hc'].
      unfold val in *. cbn [fst snd] in *.
      rewrite Hb, Hc, Hb', Hc'. repeat split.
      intros e Ha Hin. apply in_app_or in Hin as [Hin|Hin].
      * apply Hne. eapply Do_func_about; eassumption.
      * eapply He; eassumption.
Qed.

Lemma wrap_int32_range z : - 2 ^ 31 <= wrap_int32 z < 2 ^ 31.
Proof.
  unfold wrap_int32.
  pose proof (Z.mod_pos_bound (z + 2 ^ 31) (2 ^ 32) ltac:(lia)). lia.
Qed.

Lemma wrap_int32_pred z : 0 <= z < 2 ^ 31 -> wrap_int32 (z - 1) = z - 1.
Proof.
  intros Hz. unfold wrap_int32. rewrite Z.mod_small; lia.
Qed.

(** With every tenant listed once, an outcome event about [T] comes from
    the one goroutine of [T], which started with the entries of [T] as
    they were at the start of the loop, with a counter that is not
    negative, and whose entries for [T] are those at the end of the
    loop. *)
Lemma Do_range_task previous tenants st w T e :
  NoDup tenants ->
  tenantFailuresRemaining st < 2 ^ 31 ->
  about T e ->
  In e (evs (Do_range cfg previous tenants st w)) ->
  exists st0 w0,
    In e (evs (Do_func cfg T previous st0 w0))
    /\ 0 <= tenantFailuresRemaining st0 < 2 ^ 31
    /\ blocklist st0 !! T = blocklist st !! T
    /\ compactedBlocklist st0 !! T = compactedBlocklist st !! T
    /\ blocklist (val (Do_range cfg previous tenants st w)).1 !! T
       = blocklist (val (Do_func cfg T previous st0 w0)) !! T
    /\ compactedBlocklist (val (Do_range cfg previous tenants st w)).1 !! T
       = compactedBlocklist (val (Do_func cfg T previous st0 w0)) !! T.
Proof.
  revert st w. induction tenants as [|t rest IH]; intros st w Hnd Hlt Ha Hin.
  - destruct Hin.
  - apply NoDup_cons in Hnd as [Hnot Hnd].
    rewrite Do_range_cons in Hin |- *.
    destruct (ctxErr w).1 as [cerr|]; [destruct Hin|].
    destruct (tenantFailuresRemaining st <? 0) eqn:Hneg.
    { destruct Hin as [<-|[]]. destruct Ha. }
    cbv zeta in Hin |- *. cbn [val wld evs fst snd] in Hin |- *.
    set (task := Do_func cfg t previous st (ctxErr w).2) in *.
    apply in_app_or in Hin as [Hin|Hin].
    + assert (T = t) as -> by (eapply Do_func_about; eassumption).
      exists st, (ctxErr w).2. fold task.
      destruct (Do_range_other previous rest (val task) (wld task) t Hnot)
        as (Hb & Hc & _).
      unfold val in *. cbn [fst snd] in *. rewrite Hb, Hc.
      repeat split; try lia. exact Hin.
    + destruct (decide (T = t)) as [->|Hne].
      { exfalso.
        destruct (Do_range_other previous rest (val task) (wld task) t Hnot)
          as (_ & _ & He). eapply He; eassumption. }
      assert (Hlt' : tenantFailuresRemaining (val task) < 2 ^ 31).
      { unfold task. rewrite Do_func_counter.
        destruct (val (Do_poll cfg t previous (ctxErr w).2)).2; [|lia].
        rewrite wrap_int32_pred; lia. }
      destruct (IH (val task) (wld task) Hnd Hlt' Ha Hin)
        as (st0 & w0 & Hin0 & Hr0 & Hb0 & Hc0 & Hb & Hc).
      destruct (Do_func_other t previous st (ctxErr w).2 T Hne) as [Hb' Hc'].
      fold task in Hb', Hc'.
      exists st0, w0. unfold val in *. cbn [fst snd] in *.
      rewrite Hb, Hc, Hb0, Hc0, Hb', Hc'. repeat split; try lia. exact Hin0.
Qed.

(** The loop returns no error but the one of the cancelled context. *)
Lemma Do_range_error previous tenants st w e :
  (val (Do_range cfg previous tenants st w)).2 = Some e ->
  exists w', (ctxErr w').1 = Some e.
Proof.
  revert st w. induction tenants as [|t rest IH]; intros st w.
  - discriminate.
  - rewrite Do_range_cons.
    destruct (ctxErr w).1 as [cerr|] eqn:Hc.
    + intros [= <-]. exists w. exact Hc.
    + destruct (tenantFailuresRemaining st <? 0); [discriminate|]. apply IH.
Qed.

(** ** [Do] *)

(** [Do] around its loop: what it returns, and that the outcome events
    are those of the loop. *)
Lemma Do_run previous w :
  let w0 := (Now w).2 in
  let tenants := (Tenants w0).1.1 in
  let r := Do_range cfg previous tenants (Do_start cfg) (Tenants w0).2 in
  match (Tenants w0).1.2 with
  | Some e =>
      val (Do cfg previous w) = (None, None, Some e)
      /\ forall ev, is_outcome ev = true -> ~ In ev (evs (Do cfg previous w))
  | None =>
      val (Do cfg previous w)
      = match (val r).2 with
        | Some e => (None, None, Some e)
        | None =>
            if tenantFailuresRemaining (val r).1 <? 0
            then (None, None, Some ErrTooManyTenantFailures)
            else (Some (blocklist (val r).1),
                  Some (compactedBlocklist (val r).1), None)
        end
      /\ forall ev, is_outcome ev = true ->
                    In ev (evs (Do cfg previous w)) -> In ev (evs r)
  end.
Proof.
  intros w0 tenants r. unfold Do.
  rewrite bind_val, bind_evs.
  destruct (Now w) as [start w0'] eqn:Hnow. rewrite (ask_eq _ _ _ _ Hnow).
  cbn [val wld evs fst snd app]. subst w0. cbn [snd] in *.
  rewrite bind_val, bind_evs.
  destruct (Tenants w0') as [[ts err] w1] eqn:Hten.
  rewrite (call_eq _ _ _ _ _ Hten). cbn [val wld evs fst snd] in *.
  subst tenants. destruct err as [e|].
  - split; [reflexivity|]. intros ev Hout Hin. cbn in Hin.
    destruct Hin as [<-|[<-|[]]]; discriminate.
  - rewrite bind_val, bind_evs. fold r.
    destruct (val r) as [st cerr]. cbn [fst snd]. destruct cerr as [e|].
    + split; [reflexivity|]. intros ev Hout Hin. cbn [app] in Hin.
      destruct Hin as [<-|Hin]; [discriminate|].
      rewrite app_nil_r in Hin. exact Hin.
    + destruct (tenantFailuresRemaining st <? 0).
      * split; [reflexivity|]. intros ev Hout Hin. cbn [app] in Hin.
        destruct Hin as [<-|Hin]; [discriminate|].
        rewrite app_nil_r in Hin. exact Hin.
      * rewrite bind_val, bind_evs, bind_val, bind_evs.
        split; [reflexivity|]. intros ev Hout Hin. cbn [app] in Hin.
        destruct Hin as [<-|Hin]; [discriminate|].
        apply in_app_or in Hin as [Hin|Hin]; [exact Hin|].
        exfalso. unfold time_Since in Hin. rewrite bind_evs in Hin.
        unfold ask at 1 in Hin. destruct (Now (wld r)) as [now w2].
        cbn in Hin. destruct Hin as [<-|[]]. discriminate.
Qed.

(** ** Block IDs appear once *)

Lemma submseteq_NoDup {A} (l k : list A) : l ⊆+ k -> NoDup k -> NoDup l.
Proof.
  intros Hsub Hk. apply submseteq_Permutation in Hsub as [k' Hk'].
  rewrite Hk' in Hk. apply NoDup_app in Hk as [Hl _]. exact Hl.
Qed.

Lemma index_metas_key l mm k v :
  (forall k' v', mm !! k' = Some v' -> backend.BlockID v' = k') ->
  index_metas l mm !! k = Some v -> backend.BlockID v = k.
Proof.
  revert mm. induction l as [|i rest IH]; intros mm Hmm Hv.
  - apply Hmm. exact Hv.
  - cbn [index_metas] in Hv. eapply IH; [|exact Hv].
    intros k' v'. destruct (decide (backend.BlockID i = k')) as [<-|Hne].
    + rewrite lookup_insert_eq. congruence.
    + rewrite lookup_insert_ne by assumption. apply Hmm.
Qed.

Lemma index_compactedMetas_key l cm k v :
  (forall k' v', cm !! k' = Some v' -> CompactedBlockID v' = k') ->
  index_compactedMetas l cm !! k = Some v -> CompactedBlockID v = k.
Proof.
  revert cm. induction l as [|i rest IH]; intros cm Hcm Hv.
  - apply Hcm. exact Hv.
  - cbn [index_compactedMetas] in Hv. eapply IH; [|exact Hv].
    intros k' v'. destruct (decide (CompactedBlockID i = k')) as [<-|Hne].
    + rewrite lookup_insert_eq. congruence.
    + rewrite lookup_insert_ne by assumption. apply Hcm.
Qed.

(** The IDs of the metas found for a listing in a map keyed by ID. *)
Lemma known_ids {V} (f : V -> backend.UUID) (m : gmap backend.UUID V) ids :
  (forall k v, m !! k = Some v -> f v = k) ->
  map f (omap (fun id => m !! id) ids)
  = List.filter (fun id => bool_decide (is_Some (m !! id))) ids.
Proof.
  intros Hkey. induction ids as [|id rest IH]; [reflexivity|].
  cbn [omap list_omap List.filter]. destruct (m !! id) as [v|] eqn:Hv.
  - rewrite bool_decide_true by eauto. cbn [map].
    rewrite (Hkey _ _ Hv). f_equal. exact IH.
  - rewrite bool_decide_false by (intros [? ?]; discriminate). exact IH.
Qed.

Lemma pollBlock_ids tenantID blockID compacted w :
  metas_carry_their_id ->
  (forall m, (val (pollBlock cfg tenantID blockID compacted w)).1.1 = Some m ->
             backend.BlockID m = blockID)
  /\ (forall cm, (val (pollBlock cfg tenantID blockID compacted w)).1.2 = Some cm ->
                 CompactedBlockID cm = blockID).
Proof.
  intros [HM HC]. unfold pollBlock, bind, call, ret, val.
  split; intros x;
    repeat (case_run; simpl in *; simplify_eq); intros Hx; simplify_eq;
    repeat match goal with
      | H : BlockMeta _ _ _ = _ |- _ =>
          apply (f_equal (fun r => r.1.1)) in H; cbn in H; apply HM in H
      | H : CompactedBlockMeta _ _ _ = _ |- _ =>
          apply (f_equal (fun r => r.1.1)) in H; cbn in H; apply HC in H
      end; congruence.
Qed.

Lemma pollUnknown_collect_ids r acc id :
  (forall m, r.1.1 = Some m -> backend.BlockID m = id) ->
  (forall cm, r.1.2 = Some cm -> CompactedBlockID cm = id) ->
  exists ids,
    ids ⊆+ [id]
    /\ block_ids (pollUnknown_collect r acc).1.1 (pollUnknown_collect r acc).1.2
       ≡ₚ ids ++ block_ids acc.1.1 acc.1.2.
Proof.
  intros Hm Hc. destruct acc as [[nb nc] errs].
  destruct r as [[[m|] [cm|]] e]; cbn [pollUnknown_collect fst snd] in *.
  - exists [id]. split; [reflexivity|]. unfold block_ids.
    rewrite map_app. cbn. rewrite (Hm m eq_refl).
    rewrite <- app_assoc. cbn. symmetry. apply Permutation_middle.
  - exists [id]. split; [reflexivity|]. unfold block_ids.
    rewrite map_app. cbn. rewrite (Hm m eq_refl).
    rewrite <- app_assoc. cbn. symmetry. apply Permutation_middle.
  - exists [id]. split; [reflexivity|]. unfold block_ids.
    rewrite map_app. cbn. rewrite (Hc cm eq_refl).
    rewrite app_assoc. apply Permutation_app_comm.
  - exists []. split; [apply submseteq_nil_l|].
    destruct e; reflexivity.
Qed.

Lemma pollUnknown_range_ids tenantID entries acc w :
  metas_carry_their_id ->
  let r := val (pollUnknown_range cfg tenantID entries acc w) in
  exists ids,
    ids ⊆+ entries.*1
    /\ block_ids r.1.1 r.1.2 ≡ₚ ids ++ block_ids acc.1.1 acc.1.2.
Proof.
  intros Hid. revert acc w.
  induction entries as [|[id c] rest IH]; intros acc w r.
  - exists []. split; reflexivity.
  - subst r. cbn [pollUnknown_range].
    destruct (0 <? Z.of_nat (length acc.2)).
    { exists []. split; [apply submseteq_nil_l|reflexivity]. }
    rewrite bind_val.
    set (p := pollBlock cfg tenantID id c w).
    destruct (pollBlock_ids tenantID id c w Hid) as [Hm Hc]. fold p in Hm, Hc.
    destruct (pollUnknown_collect_ids (val p) acc id Hm Hc)
      as (ids1 & Hsub1 & Hperm1).
    destruct (IH (pollUnknown_collect (val p) acc) (wld p))
      as (ids2 & Hsub2 & Hperm2).
    exists (ids1 ++ ids2). split.
    + change (((id, c) :: rest).*1) with ([id] ++ rest.*1).
      apply submseteq_app; assumption.
    + rewrite Hperm2, Hperm1. rewrite !app_assoc.
      apply Permutation_app_tail. apply Permutation_app_comm.
Qed.

Lemma pollUnknown_ids unknownBlocks tenantID w :
  metas_carry_their_id ->
  let r := val (pollUnknown cfg unknownBlocks tenantID w) in
  NoDup (block_ids r.1.1 r.1.2)
  /\ forall id, id ∈ block_ids r.1.1 r.1.2 -> is_Some (unknownBlocks !! id).
Proof.
  intros Hid r. subst r. unfold pollUnknown. rewrite bind_val.
  destruct (MapRange (map_to_list unknownBlocks) w) as [entries w1] eqn:Hrange.
  rewrite (ask_eq _ _ _ _ Hrange). cbn [val wld fst snd].
  pose proof (MapRange_Permutation (map_to_list unknownBlocks) w) as Hperm.
  rewrite Hrange in Hperm. cbn [fst] in Hperm.
  destruct (pollUnknown_range_ids tenantID entries ([], [], []) w1 Hid)
    as (ids & Hsub & Hids).
  rewrite bind_val.
  destruct (val (pollUnknown_range cfg tenantID entries ([], [], []) w1))
    as [[nb nc] errs]. cbn [fst snd] in *.
  destruct (0 <? Z.of_nat (length errs)).
  { rewrite bind_val. cbn. split; [constructor|]. intros id Hin. inversion Hin. }
  cbn [ret val fst snd]. unfold block_ids at 2 in Hids. cbn [map app] in Hids.
  rewrite app_nil_r in Hids. rewrite Hperm in Hsub.
  split.
  - rewrite Hids. eapply submseteq_NoDup; [exact Hsub|].
    apply NoDup_fst_map_to_list.
  - intros id Hin. rewrite Hids in Hin.
    eapply elem_of_submseteq in Hin; [|exact Hsub].
    apply list_elem_of_fmap in Hin as [[k v] [-> Hkv]].
    apply elem_of_map_to_list in Hkv. eauto.
Qed.


Lemma pollTenantBlocks_unique tenantID previous w :
  listings_are_sets ->
  metas_carry_their_id ->
  unique_block_ids (val (pollTenantBlocks cfg tenantID previous w)).1.1
                   (val (pollTenantBlocks cfg tenantID previous w)).1.2.
Proof.
  intros Hsets Hid.
  destruct (Blocks tenantID w) as [[[live comp] [e|]] w1] eqn:Hblocks.
  { unfold pollTenantBlocks. rewrite bind_val, (call_eq _ _ _ _ _ Hblocks).
    constructor. }
  specialize (Hsets tenantID w). rewrite Hblocks in Hsets. cbn [fst snd] in Hsets.
  destruct (pollTenantBlocks_run tenantID previous w live comp w1 Hblocks)
    as [Hv _]. rewrite Hv. clear Hv.
  set (mm := index_metas (Metas previous tenantID) ∅).
  set (cm := index_compactedMetas (CompactedMetas previous tenantID) ∅).
  set (unknown := (known_compacted cm comp [] (known_blocks mm live [] ∅).2).2).
  destruct (pollUnknown_ids unknown tenantID w1 Hid) as [Hnd Hdom].
  destruct (val (pollUnknown cfg unknown tenantID w1)) as [[newM newCm] [e|]];
    cbn [fst snd] in *; [constructor|].
  assert (Hmm : forall k v, mm !! k = Some v -> backend.BlockID v = k).
  { intros k v. apply index_metas_key. intros k' v'. rewrite lookup_empty.
    discriminate. }
  assert (Hcm : forall k v, cm !! k = Some v -> CompactedBlockID v = k).
  { intros k v. apply index_compactedMetas_key. intros k' v'.
    rewrite lookup_empty. discriminate. }
  unfold unique_block_ids, block_ids in *.
  rewrite !map_app, (known_ids _ mm live Hmm), (known_ids _ cm comp Hcm).
  set (KL := List.filter (fun id => bool_decide (is_Some (mm !! id))) live).
  set (KC := List.filter (fun id => bool_decide (is_Some (cm !! id))) comp).
  assert (HKL : forall x, x ∈ KL -> x ∈ live /\ is_Some (mm !! x)).
  { intros x Hx. apply list_elem_of_In, filter_In in Hx as [Hx Hb].
    apply bool_decide_eq_true in Hb. split; [apply list_elem_of_In|]; assumption. }
  assert (HKC : forall x, x ∈ KC -> x ∈ comp /\ is_Some (cm !! x)).
  { intros x Hx. apply list_elem_of_In, filter_In in Hx as [Hx Hb].
    apply bool_decide_eq_true in Hb. split; [apply list_elem_of_In|]; assumption. }
  apply NoDup_app in Hsets as (Hlive & Hdisj & Hcomp).
  assert (Hnew : forall x, x ∈ map backend.BlockID newM ++ map CompactedBlockID newCm ->
                 (x ∈ live /\ mm !! x = None) \/ (x ∈ comp /\ cm !! x = None)).
  { intros x Hx. apply Hdom in Hx. subst unknown.
    rewrite known_compacted_snd in Hx. case_decide as Hc; [right; exact Hc|].
    rewrite known_blocks_snd in Hx. case_decide as Hl; [left; exact Hl|].
    rewrite lookup_empty in Hx. destruct Hx; discriminate. }
  assert (Hperm : (KL ++ map backend.BlockID newM)
                  ++ KC ++ map CompactedBlockID newCm
                  ≡ₚ (KL ++ KC)
                     ++ map backend.BlockID newM ++ map CompactedBlockID newCm).
  { rewrite <- !app_assoc. apply Permutation_app_head.
    rewrite !app_assoc. apply Permutation_app_tail. apply Permutation_app_comm. }
  rewrite Hperm. apply NoDup_app. split; [|split; [|exact Hnd]].
  - apply NoDup_app. split; [|split].
    + apply NoDup_ListNoDup, List.NoDup_filter, NoDup_ListNoDup, Hlive.
    + intros x Hx Hx'. apply HKL in Hx as [Hx _]. apply HKC in Hx' as [Hx' _].
      exact (Hdisj x Hx Hx').
    + apply NoDup_ListNoDup, List.NoDup_filter, NoDup_ListNoDup, Hcomp.
  - intros x Hx Hx'. apply Hnew in Hx'.
    apply elem_of_app in Hx as [Hx|Hx].
    + apply HKL in Hx as [Hx [v Hv]].
      destruct Hx' as [[_ Hn]|[Hc _]]; [congruence|exact (Hdisj x Hx Hc)].
    + apply HKC in Hx as [Hx [v Hv]].
      destruct Hx' as [[Hl _]|[_ Hn]]; [exact (Hdisj x Hl Hx)|congruence].
Qed.


(** ** What a computation returns *)

Lemma returns_ret {A} (Q : A -> Prop) (a : A) : Q a -> returns Q (ret a : M W A).
Proof. intros Ha w. exact Ha. Qed.

Lemma returns_bind {A B} (R : A -> Prop) (Q : B -> Prop)
    (m : M W A) (k : A -> M W B) :
  returns R m -> (forall a, R a -> returns Q (k a)) -> returns Q (bind m k).
Proof. intros Hm Hk w. rewrite bind_val. apply Hk, Hm. Qed.

Lemma returns_any {A} (m : M W A) : returns (fun _ => True) m.
Proof. intros w. exact I. Qed.

Lemma returns_seq {A B} (Q : B -> Prop) (m : M W A) (k : A -> M W B) :
  (forall a, returns Q (k a)) -> returns Q (bind m k).
Proof. intros Hk. apply (returns_bind (fun _ => True)); [apply returns_any|auto]. Qed.

Lemma returns_call {A} (R : A -> Prop) c (op : W -> A * W) :
  (forall w, R (op w).1) -> returns R (call c op).
Proof.
  intros Hop w. specialize (Hop w). unfold call, val.
  destruct (op w). exact Hop.
Qed.

Lemma unique_nil e : unique_result ([], [], e).
Proof. constructor. Qed.

Lemma pollTenantAndCreateIndex_unique tenantID previous :
  listings_are_sets -> metas_carry_their_id -> indexes_are_sound ->
  returns unique_result (pollTenantAndCreateIndex cfg tenantID previous).
Proof.
  intros Hsets Hid Hidx. unfold pollTenantAndCreateIndex.
  apply (returns_bind (fun pulled => forall r, pulled = Some r -> unique_result r)).
  - unfold pollTenantAndCreateIndex_pull. apply returns_seq. intros builder.
    destruct builder; cbn [negb]; [apply returns_ret; discriminate|].
    apply returns_seq. intros _.
    apply (returns_bind (fun i => forall idx, i = inl idx ->
             unique_block_ids (backend.Meta idx) (backend.CompactedMeta idx))).
    { apply returns_call. intros w idx Hi. eapply Hidx. exact Hi. }
    intros i Hi. apply returns_seq. intros err.
    destruct err as [e|], i as [idx|e'].
    + apply returns_seq. intros _. destruct (negb (PollFallback cfg)).
      * apply returns_ret. intros r [= <-]. apply unique_nil.
      * apply returns_seq. intros _. apply returns_ret. discriminate.
    + apply returns_seq. intros _. destruct (negb (PollFallback cfg)).
      * apply returns_ret. intros r [= <-]. apply unique_nil.
      * apply returns_seq. intros _. apply returns_ret. discriminate.
    + apply returns_seq. intros age. apply returns_seq. intros _.
      apply returns_ret. intros r [= <-]. apply Hi. reflexivity.
    + apply returns_seq. intros _. destruct (negb (PollFallback cfg)).
      * apply returns_ret. intros r [= <-]. apply unique_nil.
      * apply returns_seq. intros _. apply returns_ret. discriminate.
  - intros [r|] Hr; [apply returns_ret, Hr; reflexivity|].
    unfold pollTenantAndCreateIndex_build.
    apply returns_seq. intros _.
    apply (returns_bind unique_result).
    { intros w. apply pollTenantBlocks_unique; assumption. }
    intros [[l c] [e|]] Hlc; [apply returns_ret, unique_nil|].
    apply returns_seq. intros werr. apply returns_seq. intros _.
    apply returns_seq. intros [e|]; [apply returns_ret, unique_nil|].
    apply returns_seq. intros _. apply returns_ret. exact Hlc.
Qed.

Lemma Do_poll_unique tenantID previous :
  listings_are_sets -> metas_carry_their_id -> indexes_are_sound ->
  returns unique_result (Do_poll cfg tenantID previous).
Proof.
  intros Hsets Hid Hidx. unfold Do_poll.
  assert (Hcur : unique_result ([], [], None)) by apply unique_nil.
  revert Hcur. generalize ([] : list backend.BlockMeta,
                           [] : list backend.CompactedBlockMeta,
                           None : option error).
  induction (Z.to_nat (TolerateConsecutiveErrors cfg + 1)) as [|n IH];
    intros cur Hcur; cbn [Do_retry].
  - apply returns_ret, Hcur.
  - apply (returns_bind unique_result).
    { apply pollTenantAndCreateIndex_unique; assumption. }
    intros r Hr. destruct r.2; [apply IH, Hr|apply returns_ret, Hr].
Qed.

Lemma Do_func_entries tenantID previous st w
    (Q : list backend.BlockMeta -> list backend.CompactedBlockMeta -> Prop) :
  Q (Metas previous tenantID) (CompactedMetas previous tenantID) ->
  Q (val (Do_poll cfg tenantID previous w)).1.1
    (val (Do_poll cfg tenantID previous w)).1.2 ->
  entries_satisfy Q (blocklist st) (compactedBlocklist st) ->
  entries_satisfy Q (blocklist (val (Do_func cfg tenantID previous st w)))
                    (compactedBlocklist (val (Do_func cfg tenantID previous st w))).
Proof.
  intros Hprev Hnew Hst.
  assert (Hins : forall l c, Q l c ->
            entries_satisfy Q (<[tenantID := l]> (blocklist st))
                              (<[tenantID := c]> (compactedBlocklist st))).
  { intros l c Hlc T live comp.
    destruct (decide (tenantID = T)) as [->|Hne].
    - rewrite !lookup_insert_eq. intros [= <-] [= <-]. exact Hlc.
    - rewrite !lookup_insert_ne by assumption. apply Hst. }
  destruct (val (Do_poll cfg tenantID previous w)).2 as [err|] eqn:Herr.
  - destruct (Do_func_failed tenantID previous st w err Herr) as [-> _].
    apply Hins, Hprev.
  - pose proof (Do_func_succeeded tenantID previous st w Herr) as Hs.
    cbv zeta in Hs. destruct (_ || _); destruct Hs as [-> _]; [|exact Hst].
    apply Hins, Hnew.
Qed.

Lemma Do_range_entries previous tenants st w
    (Q : list backend.BlockMeta -> list backend.CompactedBlockMeta -> Prop) :
  (forall T, Q (Metas previous T) (CompactedMetas previous T)) ->
  (forall T w', Q (val (Do_poll cfg T previous w')).1.1
                  (val (Do_poll cfg T previous w')).1.2) ->
  entries_satisfy Q (blocklist st) (compactedBlocklist st) ->
  entries_satisfy Q
    (blocklist (val (Do_range cfg previous tenants st w)).1)
    (compactedBlocklist (val (Do_range cfg previous tenants st w)).1).
Proof.
  intros Hprev Hnew. revert st w.
  induction tenants as [|t rest IH]; intros st w Hst; [exact Hst|].
  rewrite Do_range_cons. destruct (ctxErr w).1; [exact Hst|].
  destruct (tenantFailuresRemaining st <? 0); [exact Hst|].
  cbv zeta. cbn [val fst snd]. apply IH.
  apply Do_func_entries; [apply Hprev|apply Hnew|exact Hst].
Qed.

(** C1, amended.  Let the store list no block of a tenant twice, hand out
    metas that carry the ID they were read for, and hold tenant indexes
    with every block at most once; let the previous list have every block
    at most once per tenant.  Then for every tenant in the maps that [Do]
    returns, every block ID appears at most once across its live and its
    compacted list. *)
Theorem C1_unique_block_ids_of_a_sound_store :
  forall (previous : List) (w : W)
         (bl : PerTenant) (cbl : PerTenantCompacted)
         (T : string) (live : list backend.BlockMeta)
         (comp : list backend.CompactedBlockMeta),
    listings_are_sets ->
    metas_carry_their_id ->
    indexes_are_sound ->
    list_is_sound previous ->
    val (Do cfg previous w) = (Some bl, Some cbl, None) ->
    bl !! T = Some live ->
    cbl !! T = Some comp ->
    unique_block_ids live comp.
Proof.
  intros previous w bl cbl T live comp Hsets Hid Hidx Hprev Hval Hlive Hcomp.
  pose proof (Do_run previous w) as Hrun. cbv zeta in Hrun.
  set (w0 := (Now w).2) in *.
  set (r := Do_range cfg previous (Tenants w0).1.1 (Do_start cfg) (Tenants w0).2) in *.
  destruct (Tenants w0).1.2 as [terr|]; [destruct Hrun; congruence|].
  destruct Hrun as [Hv _]. rewrite Hval in Hv.
  pose proof (Do_range_entries previous (Tenants w0).1.1 (Do_start cfg)
                (Tenants w0).2 unique_block_ids Hprev) as Hent.
  fold r in Hent.
  destruct (val r).2; [discriminate|].
  destruct (_ <? 0); [discriminate|]. injection Hv as -> ->.
  eapply Hent; [| |exact Hlive|exact Hcomp].
  - intros T' w'. apply Do_poll_unique; assumption.
  - intros T' l c. cbn. rewrite lookup_empty. discriminate.
Qed.

End PollerFacts.

(** ** A second cycle on the maps of the first *)

Section SecondCycle.

Context {W : Type}.
Context `{!Reader W, !Compactor W, !Writer W, !JobSharder W, !Runtime W}.
Variable cfg : PollerConfig.

(** ** Computations that agree *)

Lemma agree_ret {A B} (R : A -> B -> Prop) a b :
  R a b -> agree R (ret a : M W A) (ret b : M W B).
Proof. intros H w w'. exact H. Qed.

Lemma agree_bind {A A' B B'} (S : A -> A' -> Prop) (R : B -> B' -> Prop)
    (m : M W A) (m' : M W A') (k : A -> M W B) (k' : A' -> M W B') :
  agree S m m' ->
  (forall a a', S a a' -> agree R (k a) (k' a')) ->
  agree R (bind m k) (bind m' k').
Proof. intros Hm Hk w w'. rewrite !bind_val. apply Hk, Hm. Qed.

Lemma agree_seq {A A' B B'} (R : B -> B' -> Prop)
    (m : M W A) (m' : M W A') (k : A -> M W B) (k' : A' -> M W B') :
  (forall a a', agree R (k a) (k' a')) ->
  agree R (bind m k) (bind m' k').
Proof.
  intros Hk. apply (agree_bind (fun _ _ => True)); [intros w w'; exact I|auto].
Qed.

Lemma agree_call {A} c c' (op : W -> A * W) :
  (forall w w', (op w).1 = (op w').1) -> agree eq (call c op) (call c' op).
Proof.
  intros Hop w w'. specialize (Hop w w'). unfold call, val.
  destruct (op w), (op w'). exact Hop.
Qed.

Lemma agree_call_with {A} c c' (op : W -> A * W) :
  (forall w w', (op w).1 = (op w').1) ->
  agree eq (call_with c op) (call_with c' op).
Proof.
  intros Hop w w'. specialize (Hop w w'). unfold call_with, val.
  destruct (op w), (op w'). exact Hop.
Qed.

Lemma agree_ask {A} (op : W -> A * W) :
  (forall w w', (op w).1 = (op w').1) -> agree eq (ask op) (ask op).
Proof.
  intros Hop w w'. specialize (Hop w w'). unfold ask, val.
  destruct (op w), (op w'). exact Hop.
Qed.

Section Unchanging.

Hypothesis Hsame : unchanging.

Ltac agree_step :=
  first
    [ apply agree_ret; reflexivity
    | apply agree_call; intros; apply Hsame
    | apply agree_call_with; intros; apply Hsame
    | apply agree_ask; intros; apply Hsame
    | eapply (agree_bind eq); [|intros ? ? <-]
    | match goal with
      | |- agree _ (match ?x with _ => _ end) (match ?x with _ => _ end) =>
          destruct x
      end ].

Lemma pollBlock_same tenantID blockID compacted :
  agree eq (pollBlock cfg tenantID blockID compacted)
           (pollBlock cfg tenantID blockID compacted).
Proof. unfold pollBlock. repeat agree_step. Qed.

Lemma tenantIndexBuilder_same tenant :
  agree eq (tenantIndexBuilder cfg tenant) (tenantIndexBuilder cfg tenant).
Proof.
  unfold tenantIndexBuilder. generalize 0.
  induction (Z.to_nat (TenantIndexBuilders cfg)) as [|n IH]; intros i;
    cbn [tenantIndexBuilder_from]; repeat agree_step. apply IH.
Qed.

Lemma time_Since_same t : agree eq (time_Since t) (time_Since t).
Proof. unfold time_Since. repeat agree_step. Qed.

Lemma tenantIndexPollError_same r :
  agree eq (tenantIndexPollError cfg r) (tenantIndexPollError cfg r).
Proof.
  unfold tenantIndexPollError. repeat (apply time_Since_same || agree_step).
Qed.

Lemma deleteTenant_same tenantID :
  agree eq (deleteTenant cfg tenantID) (deleteTenant cfg tenantID).
Proof.
  assert (Hv : forall ms f r, agree eq (deleteTenant_visit cfg ms f r)
                                       (deleteTenant_visit cfg ms f r)).
  { induction ms as [|o rest IH]; intros f r; cbn [deleteTenant_visit];
      repeat (apply time_Since_same || agree_step); apply IH. }
  assert (Hd : forall f, agree eq (deleteTenant_delete f) (deleteTenant_delete f)).
  { induction f as [|o rest IH]; cbn [deleteTenant_delete];
      repeat agree_step. apply IH. }
  unfold deleteTenant. repeat (apply Hv || apply Hd || agree_step).
Qed.

Lemma pollTenantAndCreateIndex_pull_same tenantID :
  agree eq (pollTenantAndCreateIndex_pull cfg tenantID)
           (pollTenantAndCreateIndex_pull cfg tenantID).
Proof.
  unfold pollTenantAndCreateIndex_pull.
  repeat (apply tenantIndexBuilder_same || apply tenantIndexPollError_same
          || apply time_Since_same || agree_step
          || (apply agree_seq; intros _ _)).
Qed.


Lemma ask_val {A} (op : W -> A * W) w : val (ask op w) = (op w).1.
Proof. unfold ask, val. destruct (op w). reflexivity. Qed.

Lemma ask_wld {A} (op : W -> A * W) w : wld (ask op w) = (op w).2.
Proof. unfold ask, wld. destruct (op w). reflexivity. Qed.

(** ** [pollUnknown] on a backend that does not change *)

Lemma pollBlock_well_shaped tenantID blockID compacted w :
  well_shaped (val (pollBlock cfg tenantID blockID compacted w)).
Proof.
  unfold pollBlock, bind, call, ret, val.
  repeat (case_run; simpl in *; simplify_eq; auto).
Qed.

Lemma pollUnknown_range_unchanging tenantID entries acc w w0 :
  val (pollUnknown_range cfg tenantID entries acc w)
  = collect_all (resolve cfg tenantID w0) entries acc.
Proof.
  revert acc w. induction entries as [|[id c] rest IH]; intros acc w.
  - reflexivity.
  - cbn [pollUnknown_range collect_all].
    destruct (0 <? Z.of_nat (length acc.2)); [reflexivity|].
    rewrite bind_val, IH. unfold resolve at 2. cbn [fst snd].
    rewrite (pollBlock_same tenantID id c w w0). reflexivity.
Qed.

Lemma collect_all_stuck R entries acc :
  acc.2 <> [] -> collect_all R entries acc = acc.
Proof.
  intros Hne. destruct entries as [|e rest]; [reflexivity|].
  cbn [collect_all]. destruct acc.2; [congruence|]. reflexivity.
Qed.

Lemma collect_all_ok R entries nb nc :
  (forall e, well_shaped (R e)) ->
  Forall (fun e => (R e).2 = None) entries ->
  collect_all R entries (nb, nc, [])
  = (nb ++ omap (fun e => (R e).1.1) entries,
     nc ++ omap (fun e => (R e).1.2) entries, []).
Proof.
  intros Hshape Hok. revert nb nc.
  induction Hok as [|e rest He Hrest IH]; intros nb nc.
  - cbn. rewrite !app_nil_r. reflexivity.
  - cbn [collect_all snd length Z.of_nat Z.ltb Z.compare omap list_omap].
    specialize (Hshape e).
    destruct (R e) as [[[m|] [c|]] err]; cbn [fst snd] in *; subst;
      try destruct Hshape; cbn [pollUnknown_collect]; rewrite IH;
      rewrite <- ?app_assoc; reflexivity.
Qed.

Lemma collect_all_err R entries acc :
  (forall e, well_shaped (R e)) ->
  Exists (fun e => is_Some (R e).2) entries ->
  (collect_all R entries acc).2 <> [].
Proof.
  intros Hshape Hex. revert acc.
  induction Hex as [e rest He|e rest Hrest IH]; intros acc.
  - cbn [collect_all]. destruct (0 <? Z.of_nat (length acc.2)) eqn:Hlen.
    + destruct acc.2; [discriminate|]. discriminate.
    + rewrite collect_all_stuck.
      all: specialize (Hshape e); destruct He as [err He];
        destruct (R e) as [[[m|] [c|]] err']; cbn [fst snd] in *; subst;
        try destruct Hshape; destruct acc as [[nb nc] errs];
        cbn [pollUnknown_collect snd]; destruct errs; discriminate.
  - cbn [collect_all]. destruct (0 <? Z.of_nat (length acc.2)) eqn:Hlen.
    + destruct acc.2; [discriminate|]. discriminate.
    + apply IH.
Qed.

Lemma pollUnknown_unchanging unknownBlocks tenantID w w0 :
  let R := resolve cfg tenantID w0 in
  (Forall (fun e => (R e).2 = None) (map_to_list unknownBlocks) ->
   exists nb nc,
     val (pollUnknown cfg unknownBlocks tenantID w) = (nb, nc, None)
     /\ nb ≡ₚ omap (fun e => (R e).1.1) (map_to_list unknownBlocks)
     /\ nc ≡ₚ omap (fun e => (R e).1.2) (map_to_list unknownBlocks))
  /\ (~ Forall (fun e => (R e).2 = None) (map_to_list unknownBlocks) ->
      is_Some (val (pollUnknown cfg unknownBlocks tenantID w)).2).
Proof.
  intros R.
  assert (Hshape : forall e, well_shaped (R e))
    by (intros e; apply pollBlock_well_shaped).
  pose proof (MapRange_Permutation (map_to_list unknownBlocks) w) as Hperm.
  assert (Hval : val (pollUnknown cfg unknownBlocks tenantID w)
                 = let r := collect_all R (MapRange (map_to_list unknownBlocks) w).1
                              ([], [], []) in
                   if 0 <? Z.of_nat (length r.2)
                   then ([], [], Some (ErrJoin r.2))
                   else (r.1.1, r.1.2, None)).
  { unfold pollUnknown. rewrite bind_val, ask_val, ask_wld, bind_val.
    rewrite (pollUnknown_range_unchanging tenantID _ _ _ w0). fold R.
    cbv zeta. destruct (collect_all R _ _) as [[nb nc] errs]. cbn [fst snd].
    destruct (0 <? Z.of_nat (length errs)); [rewrite bind_val|]; reflexivity. }
  rewrite Hval. clear Hval. cbv zeta.
  destruct (MapRange (map_to_list unknownBlocks) w) as [entries w1].
  cbn [fst snd] in *. split.
  - intros Hok. rewrite <- Hperm in Hok.
    rewrite (collect_all_ok R entries [] [] Hshape Hok). cbn.
    eexists _, _. split; [reflexivity|]. rewrite Hperm. split; reflexivity.
  - intros Hnot. rewrite <- Hperm in Hnot.
    apply not_Forall_Exists in Hnot; [|intros e; apply _].
    assert (Hex : Exists (fun e => is_Some (R e).2) entries).
    { eapply Exists_impl; [exact Hnot|]. intros e He. cbn in He.
      destruct (R e).2; [eauto|congruence]. }
    pose proof (collect_all_err R entries ([], [], []) Hshape Hex) as Herr.
    destruct (collect_all R entries ([], [], [])) as [[nb nc] errs].
    cbn [snd] in *. destruct errs; [congruence|].
    cbn. eauto.
Qed.


(** ** [pollTenantBlocks] on a backend that does not change *)

Lemma index_metas_elem l mm k v :
  index_metas l mm !! k = Some v -> v ∈ l \/ mm !! k = Some v.
Proof.
  revert mm. induction l as [|i rest IH]; intros mm Hv; [right; exact Hv|].
  cbn [index_metas] in Hv. apply IH in Hv as [Hv|Hv].
  - left. right. exact Hv.
  - destruct (decide (backend.BlockID i = k)) as [<-|Hne].
    + rewrite lookup_insert_eq in Hv. injection Hv as <-. left. left.
    + rewrite lookup_insert_ne in Hv by assumption. right. exact Hv.
Qed.

Lemma index_compactedMetas_elem l cm k v :
  index_compactedMetas l cm !! k = Some v -> v ∈ l \/ cm !! k = Some v.
Proof.
  revert cm. induction l as [|i rest IH]; intros cm Hv; [right; exact Hv|].
  cbn [index_compactedMetas] in Hv. apply IH in Hv as [Hv|Hv].
  - left. right. exact Hv.
  - destruct (decide (CompactedBlockID i = k)) as [<-|Hne].
    + rewrite lookup_insert_eq in Hv. injection Hv as <-. left. left.
    + rewrite lookup_insert_ne in Hv by assumption. right. exact Hv.
Qed.

Lemma index_compactedMetas_other l cm k :
  (forall i, i ∈ l -> CompactedBlockID i <> k) ->
  index_compactedMetas l cm !! k = cm !! k.
Proof.
  revert cm. induction l as [|i rest IH]; intros cm Hl; [reflexivity|].
  cbn [index_compactedMetas]. rewrite IH by (intros; apply Hl; right; assumption).
  apply lookup_insert_ne. apply Hl. left.
Qed.

Lemma index_compactedMetas_unique l cm M :
  M ∈ l ->
  (forall M', M' ∈ l -> CompactedBlockID M' = CompactedBlockID M -> M' = M) ->
  index_compactedMetas l cm !! CompactedBlockID M = Some M.
Proof.
  revert cm. induction l as [|i rest IH]; intros cm Hin Huniq.
  { inversion Hin. }
  cbn [index_compactedMetas].
  destruct (decide (M ∈ rest)) as [Hrest|Hrest].
  - apply IH; [assumption|]. intros M' HM'. apply Huniq. right; assumption.
  - apply elem_of_cons in Hin as [->|Hin]; [|contradiction].
    rewrite index_compactedMetas_other; [apply lookup_insert_eq|].
    intros j Hj Heq. apply Hrest.
    rewrite <- (Huniq j); [assumption|right; assumption|assumption].
Qed.

Lemma NoDup_fmap_unique {A B} (f : A -> B) (l : list A) x y :
  NoDup (map f l) -> x ∈ l -> y ∈ l -> f x = f y -> x = y.
Proof.
  induction l as [|a rest IH]; intros Hnd Hx Hy Hf; [inversion Hx|].
  cbn [map] in Hnd. apply NoDup_cons in Hnd as [Hnot Hnd].
  apply elem_of_cons in Hx as [->|Hx]; apply elem_of_cons in Hy as [->|Hy].
  - reflexivity.
  - exfalso. apply Hnot. rewrite Hf. apply list_elem_of_fmap. eauto.
  - exfalso. apply Hnot. rewrite <- Hf. apply list_elem_of_fmap. eauto.
  - apply IH; assumption.
Qed.

(** In the index of a list without a double block ID, a meta is found
    under its ID exactly when it is in the list. *)
Lemma index_metas_lookup l k v :
  NoDup (map backend.BlockID l) ->
  index_metas l ∅ !! k = Some v <-> v ∈ l /\ backend.BlockID v = k.
Proof.
  intros Hnd. split.
  - intros Hv. split.
    + apply index_metas_elem in Hv as [Hv|Hv]; [exact Hv|].
      rewrite lookup_empty in Hv. discriminate.
    + eapply index_metas_key; [|exact Hv]. intros k' v'.
      rewrite lookup_empty. discriminate.
  - intros [Hv <-]. apply index_metas_unique; [exact Hv|].
    intros M' HM' Heq. eapply NoDup_fmap_unique; eassumption.
Qed.

Lemma index_compactedMetas_lookup l k v :
  NoDup (map CompactedBlockID l) ->
  index_compactedMetas l ∅ !! k = Some v <-> v ∈ l /\ CompactedBlockID v = k.
Proof.
  intros Hnd. split.
  - intros Hv. split.
    + apply index_compactedMetas_elem in Hv as [Hv|Hv]; [exact Hv|].
      rewrite lookup_empty in Hv. discriminate.
    + eapply index_compactedMetas_key; [|exact Hv]. intros k' v'.
      rewrite lookup_empty. discriminate.
  - intros [Hv <-]. apply index_compactedMetas_unique; [exact Hv|].
    intros M' HM' Heq. eapply NoDup_fmap_unique; eassumption.
Qed.

(** Which blocks of a listing without doubles are unknown, and how. *)
Lemma unknown_of_lookup pl pc live comp id f :
  NoDup (live ++ comp) ->
  unknown_of pl pc live comp !! id = Some f <->
  (f = true /\ id ∈ comp /\ index_compactedMetas pc ∅ !! id = None)
  \/ (f = false /\ id ∈ live /\ index_metas pl ∅ !! id = None).
Proof.
  intros Hnd. apply NoDup_app in Hnd as (_ & Hdisj & _).
  unfold unknown_of. rewrite known_compacted_snd.
  case_decide as Hc.
  - split.
    + intros [= <-]. left. tauto.
    + intros [(-> & _)|(-> & Hl & _)]; [reflexivity|].
      exfalso. exact (Hdisj id Hl (proj1 Hc)).
  - rewrite known_blocks_snd. case_decide as Hl.
    + split.
      * intros [= <-]. right. tauto.
      * intros [(-> & Hc1 & Hc2)|(-> & _)]; [tauto|reflexivity].
    + rewrite lookup_empty. split; [discriminate|].
      intros [(-> & Hc1 & Hc2)|(-> & Hl1 & Hl2)]; tauto.
Qed.

Lemma pollBlock_compacted_no_live tenantID blockID w :
  (val (pollBlock cfg tenantID blockID true w)).1.1 = None.
Proof.
  unfold pollBlock, bind, call, ret, val. cbn.
  repeat (case_run; simpl in *; simplify_eq; auto).
Qed.


Lemma pollTenantBlocks_unchanging tenantID previous w w0 :
  let listing := (Blocks tenantID w0).1 in
  let pl := Metas previous tenantID in
  let pc := CompactedMetas previous tenantID in
  let R := resolve cfg tenantID w0 in
  match listing.2 with
  | Some _ => is_Some (val (pollTenantBlocks cfg tenantID previous w)).2
  | None =>
      (all_resolved R (unknown_of pl pc listing.1.1 listing.1.2) ->
       exists l c,
         val (pollTenantBlocks cfg tenantID previous w) = (l, c, None)
         /\ l ≡ₚ polled_live R pl pc listing.1.1 listing.1.2
         /\ c ≡ₚ polled_compacted R pl pc listing.1.1 listing.1.2)
      /\ (~ all_resolved R (unknown_of pl pc listing.1.1 listing.1.2) ->
          is_Some (val (pollTenantBlocks cfg tenantID previous w)).2)
  end.
Proof.
  intros listing pl pc R. subst listing.
  rewrite <- (same_Blocks Hsame tenantID w w0).
  destruct (Blocks tenantID w) as [[[live comp] [e|]] w1] eqn:Hblocks;
    cbn [fst snd].
  { unfold pollTenantBlocks. rewrite bind_val, (call_eq _ _ _ _ _ Hblocks).
    cbn. eauto. }
  destruct (pollTenantBlocks_run cfg tenantID previous w live comp w1 Hblocks)
    as [Hv _]. rewrite Hv. clear Hv. fold pl pc. fold (unknown_of pl pc live comp).
  destruct (pollUnknown_unchanging (unknown_of pl pc live comp) tenantID w1 w0)
    as [Hok Herr]. fold R in Hok, Herr.
  split.
  - intros Hall. destruct (Hok Hall) as (nb & nc & -> & Hnb & Hnc).
    cbn [fst snd]. eexists _, _. split; [reflexivity|].
    unfold polled_live, polled_compacted. rewrite Hnb, Hnc. split; reflexivity.
  - intros Hnot. destruct (Herr Hnot) as [e He]. rewrite He. eauto.
Qed.

(** Polls of the same previous metas are alike. *)
Lemma pollTenantBlocks_same tenantID previous previous' :
  Metas previous tenantID = Metas previous' tenantID ->
  CompactedMetas previous tenantID = CompactedMetas previous' tenantID ->
  agree alike (pollTenantBlocks cfg tenantID previous)
              (pollTenantBlocks cfg tenantID previous').
Proof.
  intros Hm Hc w w'.
  pose proof (pollTenantBlocks_unchanging tenantID previous w w) as H1.
  pose proof (pollTenantBlocks_unchanging tenantID previous' w' w) as H2.
  cbv zeta in H1, H2. rewrite <- Hm, <- Hc in H2.
  set (R := resolve cfg tenantID w) in *.
  set (pl := Metas previous tenantID) in *.
  set (pc := CompactedMetas previous tenantID) in *.
  unfold alike.
  destruct (Blocks tenantID w).1.2 as [e|].
  { destruct H1 as [e1 ->], H2 as [e2 ->]. exact I. }
  destruct H1 as [Hok1 Herr1], H2 as [Hok2 Herr2].
  destruct (decide (all_resolved R (unknown_of pl pc (Blocks tenantID w).1.1.1
                                      (Blocks tenantID w).1.1.2))) as [Hall|Hnot].
  - destruct (Hok1 Hall) as (l1 & c1 & -> & Hl1 & Hc1).
    destruct (Hok2 Hall) as (l2 & c2 & -> & Hl2 & Hc2).
    cbn [fst snd]. rewrite Hl1, Hl2, Hc1, Hc2. split; reflexivity.
  - destruct (Herr1 Hnot) as [e1 ->], (Herr2 Hnot) as [e2 ->]. exact I.
Qed.


(** ** Polling again with what the poll has returned *)

Section Again.

Variable R : backend.UUID * bool ->
             option backend.BlockMeta * option backend.CompactedBlockMeta
             * option error.
Variables live comp : list backend.UUID.
Variables (pl : list backend.BlockMeta) (pc : list backend.CompactedBlockMeta).
Variables (l1 pl' : list backend.BlockMeta)
          (c1 pc' : list backend.CompactedBlockMeta).

Hypothesis Hlisting : NoDup (live ++ comp).
Hypothesis Rlive : forall id f m,
  (R (id, f)).1.1 = Some m -> backend.BlockID m = id /\ f = false.
Hypothesis Rcomp : forall id f c,
  (R (id, f)).1.2 = Some c -> CompactedBlockID c = id.
Hypothesis Hl1 : l1 ≡ₚ polled_live R pl pc live comp.
Hypothesis Hc1 : c1 ≡ₚ polled_compacted R pl pc live comp.
Hypothesis Huniq : unique_block_ids l1 c1.
Hypothesis Hpl' : pl' ≡ₚ l1.
Hypothesis Hpc' : pc' ≡ₚ c1.

Let U1 := unknown_of pl pc live comp.
Let U2 := unknown_of pl' pc' live comp.

Lemma again_in_live x :
  x ∈ l1 <->
  (exists id, id ∈ live /\ index_metas pl ∅ !! id = Some x)
  \/ (exists id f, U1 !! id = Some f /\ (R (id, f)).1.1 = Some x).
Proof.
  rewrite Hl1. unfold polled_live. rewrite elem_of_app, !list_elem_of_omap.
  apply or_iff_compat_l. split.
  - intros [[id f] [He Hx]]. apply elem_of_map_to_list in He. eauto.
  - intros (id & f & He & Hx). exists (id, f).
    split; [apply elem_of_map_to_list|]; assumption.
Qed.

Lemma again_in_compacted x :
  x ∈ c1 <->
  (exists id, id ∈ comp /\ index_compactedMetas pc ∅ !! id = Some x)
  \/ (exists id f, U1 !! id = Some f /\ (R (id, f)).1.2 = Some x).
Proof.
  rewrite Hc1. unfold polled_compacted. rewrite elem_of_app, !list_elem_of_omap.
  apply or_iff_compat_l. split.
  - intros [[id f] [He Hx]]. apply elem_of_map_to_list in He. eauto.
  - intros (id & f & He & Hx). exists (id, f).
    split; [apply elem_of_map_to_list|]; assumption.
Qed.

Lemma again_index_live k v :
  index_metas pl' ∅ !! k = Some v <-> v ∈ l1 /\ backend.BlockID v = k.
Proof.
  rewrite index_metas_lookup, Hpl'; [reflexivity|].
  rewrite Hpl'. unfold unique_block_ids, block_ids in Huniq.
  apply NoDup_app in Huniq as [H _]. exact H.
Qed.

Lemma again_index_compacted k v :
  index_compactedMetas pc' ∅ !! k = Some v
  <-> v ∈ c1 /\ CompactedBlockID v = k.
Proof.
  rewrite index_compactedMetas_lookup, Hpc'; [reflexivity|].
  rewrite Hpc'. unfold unique_block_ids, block_ids in Huniq.
  apply NoDup_app in Huniq as (_ & _ & H). exact H.
Qed.

Lemma again_key_live id x :
  index_metas pl ∅ !! id = Some x -> backend.BlockID x = id.
Proof.
  apply index_metas_key. intros k' v'. rewrite lookup_empty. discriminate.
Qed.

Lemma again_key_compacted id x :
  index_compactedMetas pc ∅ !! id = Some x -> CompactedBlockID x = id.
Proof.
  apply index_compactedMetas_key. intros k' v'. rewrite lookup_empty.
  discriminate.
Qed.

(** What is unknown the second time was unknown the first time. *)
Lemma again_unknown id f : U2 !! id = Some f -> U1 !! id = Some f.
Proof.
  unfold U1, U2. rewrite !unknown_of_lookup by exact Hlisting.
  intros [(-> & Hin & Hnone)|(-> & Hin & Hnone)]; [left|right];
    (split; [reflexivity|]); (split; [exact Hin|]).
  - destruct (index_compactedMetas pc ∅ !! id) as [y|] eqn:Hy; [|reflexivity].
    exfalso. assert (Hy1 : y ∈ c1) by (apply again_in_compacted; eauto).
    apply again_key_compacted in Hy.
    assert (Hy2 : index_compactedMetas pc' ∅ !! id = Some y)
      by (apply again_index_compacted; auto).
    congruence.
  - destruct (index_metas pl ∅ !! id) as [y|] eqn:Hy; [|reflexivity].
    exfalso. assert (Hy1 : y ∈ l1) by (apply again_in_live; eauto).
    apply again_key_live in Hy.
    assert (Hy2 : index_metas pl' ∅ !! id = Some y)
      by (apply again_index_live; auto).
    congruence.
Qed.

Lemma again_live x : x ∈ polled_live R pl' pc' live comp <-> x ∈ l1.
Proof.
  unfold polled_live. rewrite elem_of_app, !list_elem_of_omap. split.
  - intros [(id & Hin & Hx)|([id f] & He & Hx)].
    + apply again_index_live in Hx. tauto.
    + apply elem_of_map_to_list, again_unknown in He.
      apply again_in_live. eauto.
  - intros Hx. left. exists (backend.BlockID x). split.
    + apply again_in_live in Hx as [(id & Hin & Hx)|(id & f & He & Hx)].
      * apply again_key_live in Hx. subst id. exact Hin.
      * destruct (Rlive _ _ _ Hx) as [-> ->].
        apply unknown_of_lookup in He; [|exact Hlisting].
        destruct He as [(? & _)|(_ & Hin & _)]; [discriminate|exact Hin].
    + apply again_index_live. auto.
Qed.

Lemma again_compacted x : x ∈ polled_compacted R pl' pc' live comp <-> x ∈ c1.
Proof.
  unfold polled_compacted. rewrite elem_of_app, !list_elem_of_omap. split.
  - intros [(id & Hin & Hx)|([id f] & He & Hx)].
    + apply again_index_compacted in Hx. tauto.
    + apply elem_of_map_to_list, again_unknown in He.
      apply again_in_compacted. eauto.
  - intros Hx.
    assert (Hidx : index_compactedMetas pc' ∅ !! CompactedBlockID x = Some x)
      by (apply again_index_compacted; auto).
    pose proof Hx as Hx1.
    apply again_in_compacted in Hx as [(id & Hin & Hx)|(id & f & He & Hx)].
    + apply again_key_compacted in Hx. subst id. left. eauto.
    + pose proof (Rcomp _ _ _ Hx) as <-.
      apply unknown_of_lookup in He; [|exact Hlisting].
      destruct He as [(-> & Hin & _)|(-> & Hin & Hnone)]; [left; eauto|].
      right. exists (CompactedBlockID x, false). split; [|exact Hx].
      apply elem_of_map_to_list. apply unknown_of_lookup; [exact Hlisting|].
      right. split; [reflexivity|]. split; [exact Hin|].
      destruct (index_metas pl' ∅ !! CompactedBlockID x) as [y|] eqn:Hy;
        [|reflexivity].
      exfalso. apply again_index_live in Hy as [Hy1 Hy2].
      unfold unique_block_ids, block_ids in Huniq.
      apply NoDup_app in Huniq as (_ & Hdisj & _).
      apply (Hdisj (CompactedBlockID x)).
      * rewrite <- Hy2. apply list_elem_of_fmap. eauto.
      * apply list_elem_of_fmap. eauto.
Qed.

End Again.


Hypothesis Hsets : listings_are_sets.
Hypothesis Hcarry : metas_carry_their_id.

Lemma resolve_live tenantID w0 id f m :
  (resolve cfg tenantID w0 (id, f)).1.1 = Some m -> backend.BlockID m = id /\ f = false.
Proof.
  unfold resolve. cbn [fst snd]. intros Hm. split.
  - eapply pollBlock_ids; [exact Hcarry|exact Hm].
  - destruct f; [|reflexivity].
    rewrite pollBlock_compacted_no_live in Hm. discriminate.
Qed.

Lemma resolve_compacted tenantID w0 id f c :
  (resolve cfg tenantID w0 (id, f)).1.2 = Some c -> CompactedBlockID c = id.
Proof.
  unfold resolve. cbn [fst snd]. intros Hc.
  eapply pollBlock_ids; [exact Hcarry|exact Hc].
Qed.

Lemma unique_NoDup l c :
  unique_block_ids l c -> NoDup l /\ NoDup c.
Proof.
  unfold unique_block_ids, block_ids. intros Hnd.
  apply NoDup_app in Hnd as (Hl & _ & Hc).
  split; eapply NoDup_fmap_1; eassumption.
Qed.

(** Polling the blocks of a tenant again, with the lists of the first poll
    (in any order) for previous metas, gives these lists again, up to
    order. *)
Lemma pollTenantBlocks_again tenantID previous previous' w w' l1 c1 :
  val (pollTenantBlocks cfg tenantID previous w) = (l1, c1, None) ->
  Metas previous' tenantID ≡ₚ l1 ->
  CompactedMetas previous' tenantID ≡ₚ c1 ->
  exists l2 c2,
    val (pollTenantBlocks cfg tenantID previous' w') = (l2, c2, None)
    /\ l2 ≡ₚ l1 /\ c2 ≡ₚ c1.
Proof.
  intros Hval Hpl' Hpc'.
  pose proof (pollTenantBlocks_unchanging tenantID previous w w) as H1.
  pose proof (pollTenantBlocks_unchanging tenantID previous' w' w) as H2.
  pose proof (pollTenantBlocks_unique cfg tenantID previous w Hsets Hcarry) as Hu1.
  pose proof (pollTenantBlocks_unique cfg tenantID previous' w' Hsets Hcarry) as Hu2.
  pose proof (Hsets tenantID w) as Hlisting.
  cbv zeta in H1, H2. rewrite Hval in H1, Hu1. cbn [fst snd] in Hu1.
  set (R := resolve cfg tenantID w) in *.
  set (live := (Blocks tenantID w).1.1.1) in *.
  set (comp := (Blocks tenantID w).1.1.2) in *.
  set (pl := Metas previous tenantID) in *.
  set (pc := CompactedMetas previous tenantID) in *.
  set (pl' := Metas previous' tenantID) in *.
  set (pc' := CompactedMetas previous' tenantID) in *.
  destruct (Blocks tenantID w).1.2 as [e|]; [destruct H1; discriminate|].
  destruct H1 as [Hok1 Herr1], H2 as [Hok2 _].
  destruct (decide (all_resolved R (unknown_of pl pc live comp))) as [Hall|Hnot];
    [|destruct (Herr1 Hnot); discriminate].
  destruct (Hok1 Hall) as (l & c & [= <- <-] & Hl1 & Hc1).
  assert (Hall2 : all_resolved R (unknown_of pl' pc' live comp)).
  { unfold all_resolved in *. rewrite Forall_forall in Hall |- *.
    intros [id f] He. apply Hall.
    apply elem_of_map_to_list in He. apply elem_of_map_to_list.
    eapply (again_unknown R live comp pl pc l1 pl' c1 pc'); eassumption. }
  destruct (Hok2 Hall2) as (l2 & c2 & Hval2 & Hl2 & Hc2).
  rewrite Hval2 in Hu2. cbn [fst snd] in Hu2.
  exists l2, c2. split; [exact Hval2|].
  destruct (unique_NoDup _ _ Hu1) as [Hndl1 Hndc1].
  destruct (unique_NoDup _ _ Hu2) as [Hndl2 Hndc2].
  split; apply NoDup_Permutation; try assumption; intros x.
  - rewrite Hl2.
    apply (again_live R live comp pl pc l1 pl' c1 pc'); try assumption;
      intros id' f' m; apply resolve_live.
  - rewrite Hc2.
    apply (again_compacted R live comp pl pc l1 pl' c1 pc'); try assumption;
      intros id' f' c'; apply resolve_compacted.
Qed.


(** ** The poll of a tenant on a backend that does not change *)

Lemma alike_refl r : alike r r.
Proof. unfold alike. destruct r.2; [exact I|split; reflexivity]. Qed.

Lemma alike_errors l c e l' c' e' : alike (l, c, Some e) (l', c', Some e').
Proof. exact I. Qed.

Lemma again_error l c e r' : again (l, c, Some e) r'.
Proof. intros H. discriminate. Qed.

Lemma pollTenantAndCreateIndex_build_alike tenantID previous previous' :
  agree alike (pollTenantBlocks cfg tenantID previous)
              (pollTenantBlocks cfg tenantID previous') ->
  agree alike (pollTenantAndCreateIndex_build cfg tenantID previous)
              (pollTenantAndCreateIndex_build cfg tenantID previous').
Proof.
  intros Hpoll. unfold pollTenantAndCreateIndex_build.
  apply agree_seq. intros _ _. apply (agree_bind alike); [exact Hpoll|].
  intros [[l c] err] [[l' c'] err'] Hal. unfold alike in Hal. cbn [fst snd] in Hal.
  destruct err as [e|], err' as [e'|]; try contradiction.
  { apply agree_ret, alike_errors. }
  destruct Hal as [Hl Hc].
  apply agree_seq. intros werr werr'. apply agree_seq. intros _ _.
  apply (agree_bind eq).
  { rewrite (Permutation_length Hl), (Permutation_length Hc).
    destruct (_ && _); [apply deleteTenant_same|apply agree_ret; reflexivity]. }
  intros derr ? <-. destruct derr as [e|]; [apply agree_ret, alike_errors|].
  apply agree_seq. intros _ _. apply agree_ret. split; assumption.
Qed.

Lemma pollTenantAndCreateIndex_build_again tenantID previous previous' :
  agree again (pollTenantBlocks cfg tenantID previous)
              (pollTenantBlocks cfg tenantID previous') ->
  agree again (pollTenantAndCreateIndex_build cfg tenantID previous)
              (pollTenantAndCreateIndex_build cfg tenantID previous').
Proof.
  intros Hpoll. unfold pollTenantAndCreateIndex_build.
  apply agree_seq. intros _ _. apply (agree_bind again); [exact Hpoll|].
  intros [[l c] err] [[l' c'] err'] Hag. unfold again in Hag. cbn [fst snd] in Hag.
  destruct err as [e|].
  { intros w w'. apply again_error. }
  destruct (Hag eq_refl) as (He & Hl & Hc). subst err'.
  apply agree_seq. intros werr werr'. apply agree_seq. intros _ _.
  apply (agree_bind eq).
  { rewrite (Permutation_length Hl), (Permutation_length Hc).
    destruct (_ && _); [apply deleteTenant_same|apply agree_ret; reflexivity]. }
  intros derr ? <-. destruct derr as [e|].
  { intros w w'. apply again_error. }
  apply agree_seq. intros _ _. apply agree_ret. intros _. cbn. auto.
Qed.

Lemma pollTenantAndCreateIndex_build_poll tenantID previous w l c :
  val (pollTenantAndCreateIndex_build cfg tenantID previous w) = (l, c, None) ->
  exists w1, val (pollTenantBlocks cfg tenantID previous w1) = (l, c, None).
Proof.
  unfold pollTenantAndCreateIndex_build. rewrite bind_val, bind_val.
  set (w1 := wld (emit _ w)). intros Hval. exists w1.
  destruct (val (pollTenantBlocks cfg tenantID previous w1)) as [[l0 c0] [e|]];
    [discriminate|].
  rewrite !bind_val in Hval.
  match type of Hval with
  | val (match ?d with _ => _ end _) = _ => destruct d; [discriminate|]
  end.
  rewrite bind_val in Hval. exact Hval.
Qed.

Lemma pollTenantAndCreateIndex_same tenantID previous previous' :
  Metas previous tenantID = Metas previous' tenantID ->
  CompactedMetas previous tenantID = CompactedMetas previous' tenantID ->
  agree alike (pollTenantAndCreateIndex cfg tenantID previous)
              (pollTenantAndCreateIndex cfg tenantID previous').
Proof.
  intros Hm Hc. unfold pollTenantAndCreateIndex.
  apply (agree_bind eq); [apply pollTenantAndCreateIndex_pull_same|].
  intros pulled ? <-. destruct pulled as [r|]; [apply agree_ret, alike_refl|].
  apply pollTenantAndCreateIndex_build_alike, pollTenantBlocks_same; assumption.
Qed.

Lemma pollTenantAndCreateIndex_again tenantID previous previous' w w' l1 c1 :
  val (pollTenantAndCreateIndex cfg tenantID previous w) = (l1, c1, None) ->
  Metas previous' tenantID ≡ₚ l1 ->
  CompactedMetas previous' tenantID ≡ₚ c1 ->
  exists l2 c2,
    val (pollTenantAndCreateIndex cfg tenantID previous' w') = (l2, c2, None)
    /\ l2 ≡ₚ l1 /\ c2 ≡ₚ c1.
Proof.
  unfold pollTenantAndCreateIndex. rewrite !bind_val.
  rewrite (pollTenantAndCreateIndex_pull_same tenantID w' w).
  destruct (val (pollTenantAndCreateIndex_pull cfg tenantID w)) as [r|].
  { cbn. intros -> _ _. exists l1, c1. auto. }
  intros Hval Hpl Hpc.
  destruct (pollTenantAndCreateIndex_build_poll _ _ _ _ _ Hval) as [w1 Hpoll].
  assert (Hag : agree again (pollTenantBlocks cfg tenantID previous)
                            (pollTenantBlocks cfg tenantID previous')).
  { intros v v' Hs.
    pose proof (pollTenantBlocks_same tenantID previous previous
                  eq_refl eq_refl v w1) as Hal.
    unfold alike in Hal. rewrite Hs, Hpoll in Hal. cbn [fst snd] in Hal.
    destruct Hal as [Hl Hc].
    destruct (val (pollTenantBlocks cfg tenantID previous v)) as [[l c] err] eqn:Hv.
    cbn [fst snd] in *. subst err.
    destruct (pollTenantBlocks_again tenantID previous previous' v v' l c Hv)
      as (l2 & c2 & -> & Hl2 & Hc2).
    - rewrite Hpl, Hl. reflexivity.
    - rewrite Hpc, Hc. reflexivity.
    - cbn. auto. }
  pose proof (pollTenantAndCreateIndex_build_again tenantID previous previous'
                Hag (wld (pollTenantAndCreateIndex_pull cfg tenantID w))
                    (wld (pollTenantAndCreateIndex_pull cfg tenantID w'))) as Hb.
  unfold again in Hb. rewrite Hval in Hb. cbn [fst snd] in Hb.
  destruct (Hb eq_refl) as (He & Hl & Hc).
  destruct (val (pollTenantAndCreateIndex_build cfg tenantID previous' _))
    as [[l2 c2] err]. cbn [fst snd] in *. subst err. exists l2, c2. auto.
Qed.

(** ** The retries of a tenant *)

Lemma Do_poll_same tenantID previous previous' :
  Metas previous tenantID = Metas previous' tenantID ->
  CompactedMetas previous tenantID = CompactedMetas previous' tenantID ->
  agree alike (Do_poll cfg tenantID previous) (Do_poll cfg tenantID previous').
Proof.
  intros Hm Hc. unfold Do_poll.
  assert (Hcur : alike ([], [], None) ([], [], None)) by apply alike_refl.
  revert Hcur.
  generalize ([] : list backend.BlockMeta, [] : list backend.CompactedBlockMeta,
              None : option error) at 1 3.
  generalize ([] : list backend.BlockMeta, [] : list backend.CompactedBlockMeta,
              None : option error).
  induction (Z.to_nat (TolerateConsecutiveErrors cfg + 1)) as [|n IH];
    intros cur' cur Hcur; cbn [Do_retry].
  - apply agree_ret, Hcur.
  - apply (agree_bind alike).
    { apply pollTenantAndCreateIndex_same; assumption. }
    intros r r' Hal. pose proof Hal as Hal'. unfold alike in Hal'.
    destruct r.2, r'.2; try contradiction; [apply IH|apply agree_ret]; exact Hal.
Qed.

Lemma Do_retry_succeeded tenantID previous n cur w l c :
  val (Do_retry cfg tenantID previous n cur w) = (l, c, None) ->
  (n = O /\ cur = (l, c, None))
  \/ (n <> O
      /\ exists w1, val (pollTenantAndCreateIndex cfg tenantID previous w1)
                    = (l, c, None)).
Proof.
  revert cur w. induction n as [|n IH]; intros cur w Hval.
  - left. split; [reflexivity|exact Hval].
  - right. split; [discriminate|].
    cbn [Do_retry] in Hval. rewrite bind_val in Hval.
    destruct (val (pollTenantAndCreateIndex cfg tenantID previous w))
      as [[l0 c0] [e|]] eqn:Hr; cbn [snd] in Hval.
    + apply IH in Hval as [[_ [=]]|[_ Hval]]. exact Hval.
    + exists w. rewrite Hr. exact Hval.
Qed.

(** Polling a tenant again, with the lists of the first poll (in any
    order) for previous metas, gives these lists again, up to order. *)
Lemma Do_poll_again tenantID previous previous' w w' l1 c1 :
  val (Do_poll cfg tenantID previous w) = (l1, c1, None) ->
  Metas previous' tenantID ≡ₚ l1 ->
  CompactedMetas previous' tenantID ≡ₚ c1 ->
  exists l2 c2,
    val (Do_poll cfg tenantID previous' w') = (l2, c2, None)
    /\ l2 ≡ₚ l1 /\ c2 ≡ₚ c1.
Proof.
  unfold Do_poll. intros Hval Hpl Hpc.
  apply Do_retry_succeeded in Hval as [[Hn [= <- <-]]|[Hn [w1 Hval]]].
  - rewrite Hn. exists [], []. auto.
  - destruct (Z.to_nat (TolerateConsecutiveErrors cfg + 1)) as [|n];
      [congruence|].
    destruct (pollTenantAndCreateIndex_again tenantID previous previous'
                w1 w' l1 c1 Hval Hpl Hpc) as (l2 & c2 & Hv2 & Hl & Hc).
    exists l2, c2. cbn [Do_retry]. rewrite bind_val, Hv2. cbn. auto.
Qed.


(** ** The cycle *)

Lemma Do_func_leaves_outcome tenantID previous st w :
  exists e, about tenantID e /\ In e (evs (Do_func cfg tenantID previous st w)).
Proof.
  destruct (val (Do_poll cfg tenantID previous w)).2 as [err|] eqn:Herr.
  - destruct (Do_func_failed cfg tenantID previous st w err Herr) as [_ ->].
    eexists. split; [|apply in_or_app; right; left; reflexivity]. reflexivity.
  - pose proof (Do_func_succeeded cfg tenantID previous st w Herr) as Hs.
    cbv zeta in Hs.
    destruct (_ || _); destruct Hs as (_ & tail & -> & _);
      (eexists; split; [|apply in_or_app; right; left; reflexivity]);
      reflexivity.
Qed.

Lemma Do_range_all_polled previous tenants st w T :
  (val (Do_range cfg previous tenants st w)).2 = None ->
  0 <= tenantFailuresRemaining (val (Do_range cfg previous tenants st w)).1 ->
  T ∈ tenants ->
  exists e, about T e /\ In e (evs (Do_range cfg previous tenants st w)).
Proof.
  revert st w. induction tenants as [|t rest IH]; intros st w Hnone Hpos HT.
  { inversion HT. }
  rewrite Do_range_cons in Hnone, Hpos |- *.
  destruct (ctxErr w).1 as [cerr|]; [discriminate|].
  destruct (tenantFailuresRemaining st <? 0) eqn:Hneg; [cbn in Hpos; lia|].
  cbv zeta in Hnone, Hpos |- *. cbn [val wld evs fst snd] in Hnone, Hpos |- *.
  apply elem_of_cons in HT as [->|HT].
  - destruct (Do_func_leaves_outcome t previous st (ctxErr w).2) as (e & Ha & Hin).
    exists e. split; [exact Ha|]. apply in_or_app. left. exact Hin.
  - destruct (IH _ _ Hnone Hpos HT) as (e & Ha & Hin).
    exists e. split; [exact Ha|]. apply in_or_app. right. exact Hin.
Qed.

Lemma Do_func_entry tenantID previous st w :
  blocklist st !! tenantID = None ->
  compactedBlocklist st !! tenantID = None ->
  entry_of (val (Do_poll cfg tenantID previous w)) previous tenantID
    (blocklist (val (Do_func cfg tenantID previous st w)) !! tenantID)
    (compactedBlocklist (val (Do_func cfg tenantID previous st w)) !! tenantID).
Proof.
  intros Hb Hc. unfold entry_of.
  destruct (val (Do_poll cfg tenantID previous w)).2 as [err|] eqn:Herr.
  - destruct (Do_func_failed cfg tenantID previous st w err Herr) as [-> _].
    cbn [blocklist compactedBlocklist]. rewrite !lookup_insert_eq. auto.
  - pose proof (Do_func_succeeded cfg tenantID previous st w Herr) as Hs.
    cbv zeta in Hs. destruct (_ || _); destruct Hs as [-> _].
    + cbn [blocklist compactedBlocklist]. rewrite !lookup_insert_eq. auto.
    + auto.
Qed.

(** The maps of a cycle that succeeds, tenant by tenant, when the listing
    names every tenant once. *)
Lemma Do_entries previous w bl cbl T :
  let tenants := (Tenants (Now w).2).1.1 in
  NoDup tenants ->
  val (Do cfg previous w) = (Some bl, Some cbl, None) ->
  (T ∉ tenants -> bl !! T = None /\ cbl !! T = None)
  /\ (T ∈ tenants ->
      exists w0, entry_of (val (Do_poll cfg T previous w0)) previous T
                          (bl !! T) (cbl !! T)).
Proof.
  intros tenants Hnd Hval.
  pose proof (Do_run cfg previous w) as Hrun. cbv zeta in Hrun.
  set (w0 := (Now w).2) in *. fold tenants in Hrun.
  set (r := Do_range cfg previous tenants (Do_start cfg) (Tenants w0).2) in *.
  destruct (Tenants w0).1.2 as [terr|]; [destruct Hrun; congruence|].
  destruct Hrun as [Hv _]. rewrite Hval in Hv.
  destruct (val r).2 as [cerr|] eqn:Hnone; [discriminate|].
  destruct (tenantFailuresRemaining (val r).1 <? 0) eqn:Hneg; [discriminate|].
  injection Hv as -> ->. split.
  - intros HT.
    destruct (Do_range_other cfg previous tenants (Do_start cfg) (Tenants w0).2
                T HT) as (Hb & Hc & _).
    fold r in Hb, Hc. rewrite Hb, Hc. split; apply lookup_empty.
  - intros HT.
    destruct (Do_range_all_polled previous tenants (Do_start cfg) (Tenants w0).2
                T Hnone ltac:(fold r; lia) HT) as (e & Ha & Hin).
    destruct (Do_range_task cfg previous tenants (Do_start cfg) (Tenants w0).2
                T e Hnd) as (st0 & w1 & _ & _ & Hb0 & Hc0 & Hb & Hc);
      [cbn; apply wrap_int32_range|exact Ha|exact Hin|].
    fold r in Hb, Hc. exists w1. rewrite Hb, Hc.
    apply Do_func_entry.
    + rewrite Hb0. apply lookup_empty.
    + rewrite Hc0. apply lookup_empty.
Qed.

Lemma Do_range_control previous previous' tenants st st' w w' :
  (forall T, T ∈ tenants ->
     agree alike (Do_poll cfg T previous) (Do_poll cfg T previous')) ->
  tenantFailuresRemaining st = tenantFailuresRemaining st' ->
  (val (Do_range cfg previous tenants st w)).2
  = (val (Do_range cfg previous' tenants st' w')).2
  /\ tenantFailuresRemaining (val (Do_range cfg previous tenants st w)).1
     = tenantFailuresRemaining (val (Do_range cfg previous' tenants st' w')).1.
Proof.
  revert st st' w w'. induction tenants as [|t rest IH];
    intros st st' w w' Hal Heq.
  - split; [reflexivity|exact Heq].
  - rewrite !Do_range_cons. rewrite (same_ctxErr Hsame w w').
    destruct (ctxErr w').1 as [cerr|]; [split; [reflexivity|exact Heq]|].
    rewrite <- Heq.
    destruct (tenantFailuresRemaining st <? 0); [split; [reflexivity|exact Heq]|].
    cbv zeta. cbn [val wld evs fst snd]. apply IH.
    + intros T HT. apply Hal. right. exact HT.
    + rewrite !Do_func_counter, <- Heq.
      specialize (Hal t ltac:(left) (ctxErr w).2 (ctxErr w').2).
      unfold alike in Hal.
      destruct (val (Do_poll cfg t previous _)).2,
               (val (Do_poll cfg t previous' _)).2; try contradiction;
        reflexivity.
Qed.

(** What the poll of a tenant gives in the second cycle, from the entries
    that the first cycle left for it. *)
Lemma Do_poll_second tenantID previous bl cbl w0 :
  entry_of (val (Do_poll cfg tenantID previous w0)) previous tenantID
           (bl !! tenantID) (cbl !! tenantID) ->
  agree alike (Do_poll cfg tenantID previous)
              (Do_poll cfg tenantID (mkList bl cbl)).
Proof.
  intros Hentry. unfold entry_of in Hentry.
  destruct (val (Do_poll cfg tenantID previous w0)) as [[l1 c1] e1] eqn:Hr.
  cbn [fst snd] in Hentry. destruct e1 as [err|].
  - destruct Hentry as [Hb Hc]. apply Do_poll_same.
    + unfold Metas at 2. cbn [metas]. rewrite Hb. reflexivity.
    + unfold CompactedMetas at 2. cbn [compactedMetas]. rewrite Hc. reflexivity.
  - assert (Hm : Metas (mkList bl cbl) tenantID = l1
                 /\ CompactedMetas (mkList bl cbl) tenantID = c1).
    { unfold Metas, CompactedMetas. cbn [metas compactedMetas].
      destruct l1, c1; cbn in Hentry; destruct Hentry as [-> ->]; auto. }
    destruct Hm as [Hm Hc]. intros v v'.
    pose proof (Do_poll_same tenantID previous previous eq_refl eq_refl v w0)
      as Hfirst.
    destruct (Do_poll_again tenantID previous (mkList bl cbl) w0 v' l1 c1 Hr
                ltac:(rewrite Hm; reflexivity) ltac:(rewrite Hc; reflexivity))
      as (l2 & c2 & Hsecond & Hl2 & Hc2).
    unfold alike in Hfirst |- *. rewrite Hr in Hfirst. rewrite Hsecond.
    cbn [fst snd] in Hfirst |- *.
    destruct (val (Do_poll cfg tenantID previous v)).2; [contradiction|].
    destruct Hfirst as [Ha Hb]. split.
    + rewrite Ha. symmetry. exact Hl2.
    + rewrite Hb. symmetry. exact Hc2.
Qed.

End Unchanging.


End SecondCycle.

(** * The functions one by one *)

(** ** [sumTotalBackendMetaMetrics] *)

Lemma wrap_int64_idemp a b : wrap_int64 (wrap_int64 a + b) = wrap_int64 (a + b).
Proof.
  unfold wrap_int64.
  replace ((a + 2 ^ 63) mod 2 ^ 64 - 2 ^ 63 + b + 2 ^ 63)
    with ((a + 2 ^ 63) mod 2 ^ 64 + b) by lia.
  rewrite Zplus_mod_idemp_l. f_equal. f_equal. lia.
Qed.

Lemma wrap_uint64_idemp a b : wrap_uint64 (wrap_uint64 a + b) = wrap_uint64 (a + b).
Proof. unfold wrap_uint64. apply Zplus_mod_idemp_l. Qed.

Lemma foldl_wrap_int64 {A} (f : A -> Z) l acc :
  wrap_int64 (foldl (fun a x => wrap_int64 (a + f x)) acc l)
  = wrap_int64 (acc + Zsum (map f l)).
Proof.
  revert acc. induction l as [|x l IH]; intros acc; cbn [foldl map Zsum foldr].
  - f_equal. lia.
  - rewrite IH. fold (Zsum (map f l)). rewrite wrap_int64_idemp.
    f_equal. lia.
Qed.

Lemma foldl_wrap_uint64 {A} (f : A -> Z) l acc :
  wrap_uint64 (foldl (fun a x => wrap_uint64 (a + f x)) acc l)
  = wrap_uint64 (acc + Zsum (map f l)).
Proof.
  revert acc. induction l as [|x l IH]; intros acc; cbn [foldl map Zsum foldr].
  - f_equal. lia.
  - rewrite IH. fold (Zsum (map f l)). rewrite wrap_uint64_idemp.
    f_equal. lia.
Qed.

Lemma foldl_int64_wrapped {A} (f : A -> Z) l acc :
  wrap_int64 acc = acc ->
  wrap_int64 (foldl (fun a x => wrap_int64 (a + f x)) acc l)
  = foldl (fun a x => wrap_int64 (a + f x)) acc l.
Proof.
  revert acc. induction l as [|x l IH]; intros acc Hacc; cbn [foldl].
  - exact Hacc.
  - apply IH. rewrite <- (Z.add_0_r (wrap_int64 (acc + f x))) at 1.
    rewrite wrap_int64_idemp. f_equal. lia.
Qed.

Lemma foldl_uint64_wrapped {A} (f : A -> Z) l acc :
  wrap_uint64 acc = acc ->
  wrap_uint64 (foldl (fun a x => wrap_uint64 (a + f x)) acc l)
  = foldl (fun a x => wrap_uint64 (a + f x)) acc l.
Proof.
  revert acc. induction l as [|x l IH]; intros acc Hacc; cbn [foldl].
  - exact Hacc.
  - apply IH. rewrite <- (Z.add_0_r (wrap_uint64 (acc + f x))) at 1.
    rewrite wrap_uint64_idemp. f_equal. lia.
Qed.

(** Each total is the unbounded sum, reduced once to the width of its
    counter. *)
Lemma sumTotalBackendMetaMetrics_sums blockMeta compactedBlockMeta :
  sumTotalBackendMetaMetrics blockMeta compactedBlockMeta
  = let t := exact_totals blockMeta compactedBlockMeta in
    {| blockMetaTotalObjects := wrap_int64 (blockMetaTotalObjects t);
       compactedBlockMetaTotalObjects :=
         wrap_int64 (compactedBlockMetaTotalObjects t);
       blockMetaTotalBytes := wrap_uint64 (blockMetaTotalBytes t);
       compactedBlockMetaTotalBytes :=
         wrap_uint64 (compactedBlockMetaTotalBytes t) |}.
Proof.
  unfold sumTotalBackendMetaMetrics, exact_totals. cbv zeta.
  cbn [blockMetaTotalObjects compactedBlockMetaTotalObjects
       blockMetaTotalBytes compactedBlockMetaTotalBytes].
  f_equal.
  - rewrite <- (foldl_int64_wrapped backend.TotalObjects) by reflexivity.
    rewrite foldl_wrap_int64. reflexivity.
  - rewrite <- (foldl_int64_wrapped
                  (fun c => backend.TotalObjects (backend.Embedded c)))
      by reflexivity.
    rewrite foldl_wrap_int64. reflexivity.
  - rewrite <- (foldl_uint64_wrapped backend.Size_) by reflexivity.
    rewrite foldl_wrap_uint64. reflexivity.
  - rewrite <- (foldl_uint64_wrapped
                  (fun c => backend.Size_ (backend.Embedded c)))
      by reflexivity.
    rewrite foldl_wrap_uint64. reflexivity.
Qed.

Lemma Zsum_Permutation l k : l ≡ₚ k -> Zsum l = Zsum k.
Proof.
  induction 1 as [|x l k _ IH|x y l|l k m _ IH1 _ IH2]; cbn [Zsum foldr] in *.
  - reflexivity.
  - fold (Zsum l) (Zsum k). lia.
  - lia.
  - congruence.
Qed.

Lemma Zsum_nonneg l : Forall (fun z => 0 <= z) l -> 0 <= Zsum l.
Proof.
  induction 1 as [|x l Hx _ IH]; cbn [Zsum foldr]; [lia|].
  fold (Zsum l). lia.
Qed.

(** X1.  The totals do not depend on the order of the lists. *)
Theorem sumTotalBackendMetaMetrics_ignores_order :
  forall (bm bm' : list backend.BlockMeta)
         (cbm cbm' : list backend.CompactedBlockMeta),
    bm ≡ₚ bm' ->
    cbm ≡ₚ cbm' ->
    sumTotalBackendMetaMetrics bm cbm = sumTotalBackendMetaMetrics bm' cbm'.
Proof.
  intros bm bm' cbm cbm' Hbm Hcbm.
  rewrite !sumTotalBackendMetaMetrics_sums. unfold exact_totals. cbv zeta.
  cbn [blockMetaTotalObjects compactedBlockMetaTotalObjects
       blockMetaTotalBytes compactedBlockMetaTotalBytes].
  f_equal; f_equal; apply Zsum_Permutation, Permutation_map; assumption.
Qed.

(** X2.  As long as the sums fit their counters (signed 64 bits for the
    objects, unsigned 64 bits for the bytes), the totals are the sums. *)
Theorem sumTotalBackendMetaMetrics_exact_without_overflow :
  forall (bm : list backend.BlockMeta)
         (cbm : list backend.CompactedBlockMeta),
    Forall plausible bm ->
    Forall (fun c => plausible (backend.Embedded c)) cbm ->
    blockMetaTotalObjects (exact_totals bm cbm) < 2 ^ 63 ->
    compactedBlockMetaTotalObjects (exact_totals bm cbm) < 2 ^ 63 ->
    blockMetaTotalBytes (exact_totals bm cbm) < 2 ^ 64 ->
    compactedBlockMetaTotalBytes (exact_totals bm cbm) < 2 ^ 64 ->
    sumTotalBackendMetaMetrics bm cbm = exact_totals bm cbm.
Proof.
  intros bm cbm Hbm Hcbm Ho Hco Hb Hcb.
  rewrite sumTotalBackendMetaMetrics_sums. cbv zeta.
  assert (H1 : 0 <= blockMetaTotalObjects (exact_totals bm cbm)).
  { apply Zsum_nonneg, Forall_map. eapply Forall_impl; [exact Hbm|].
    intros m [Hm _]. exact Hm. }
  assert (H2 : 0 <= compactedBlockMetaTotalObjects (exact_totals bm cbm)).
  { apply Zsum_nonneg, Forall_map. eapply Forall_impl; [exact Hcbm|].
    intros m [Hm _]. exact Hm. }
  assert (H3 : 0 <= blockMetaTotalBytes (exact_totals bm cbm)).
  { apply Zsum_nonneg, Forall_map. eapply Forall_impl; [exact Hbm|].
    intros m [_ Hm]. exact Hm. }
  assert (H4 : 0 <= compactedBlockMetaTotalBytes (exact_totals bm cbm)).
  { apply Zsum_nonneg, Forall_map. eapply Forall_impl; [exact Hcbm|].
    intros m [_ Hm]. exact Hm. }
  destruct (exact_totals bm cbm) as [o co b cb]. cbn in *.
  unfold wrap_int64, wrap_uint64. f_equal.
  - rewrite Z.mod_small; lia.
  - rewrite Z.mod_small; lia.
  - apply Z.mod_small; lia.
  - apply Z.mod_small; lia.
Qed.

Section Behaviour.

Context {W : Type}.
Context `{!Reader W, !Compactor W, !Writer W, !JobSharder W, !Runtime W}.
Variable cfg : PollerConfig.

(** ** [pollBlock] *)

(** X3.  For a block that is listed as compacted, [pollBlock] reads the
    compacted meta and nothing else, and never returns a live meta. *)
Theorem pollBlock_compacted_reads_the_compacted_meta_only :
  forall (tenantID : string) (blockID : backend.UUID) (w : W),
    evs (pollBlock cfg tenantID blockID true w)
    = [EvCall (CallCompactedBlockMeta blockID tenantID)]
    /\ (val (pollBlock cfg tenantID blockID true w)).1.1 = None.
Proof.
  intros tenantID blockID w. split.
  - unfold pollBlock, bind, call, ret, evs. cbn.
    repeat (case_run; simpl in *; simplify_eq; auto).
  - apply pollBlock_compacted_no_live.
Qed.

(** X4.  An error of [pollBlock] comes without a meta, so that the goroutine
    of [pollUnknown], which looks at the metas first, records it. *)
Theorem pollBlock_error_is_recorded :
  forall (tenantID : string) (blockID : backend.UUID) (compacted : bool)
         (w : W) (e : error)
         (acc : list backend.BlockMeta * list backend.CompactedBlockMeta
                * list error),
    (val (pollBlock cfg tenantID blockID compacted w)).2 = Some e ->
    pollUnknown_collect (val (pollBlock cfg tenantID blockID compacted w)) acc
    = (acc.1.1, acc.1.2, acc.2 ++ [e]).
Proof.
  intros tenantID blockID compacted w e [[l c] errs] He.
  pose proof (pollBlock_well_shaped cfg tenantID blockID compacted w) as Hs.
  destruct (val (pollBlock cfg tenantID blockID compacted w))
    as [[[m|] [cm|]] [e'|]]; cbn in *; try contradiction; try discriminate.
  injection He as ->. reflexivity.
Qed.

(** ** [tenantIndexBuilder] *)

Lemma tenantIndexBuilder_from_asks tenant i n w :
  exists k : nat,
    (k <= n)%nat
    /\ evs (tenantIndexBuilder_from tenant i n w)
       = map (fun j : nat => EvCall (CallOwns (builder_job tenant (i + Z.of_nat j))))
             (seq 0 k)
    /\ (if val (tenantIndexBuilder_from tenant i n w) then (0 < k)%nat
        else k = n).
Proof.
  revert i w. induction n as [|n IH]; intros i w.
  - exists O. repeat split; reflexivity.
  - cbn [tenantIndexBuilder_from]. cbv zeta. rewrite bind_evs, bind_val.
    fold (builder_job tenant i).
    destruct (Owns (builder_job tenant i) w) as [owns w1] eqn:Hown.
    rewrite (call_eq _ _ _ _ _ Hown). cbn [val wld evs fst snd].
    destruct owns.
    + exists 1%nat. split; [lia|]. split; [|cbn; lia].
      cbn. rewrite Z.add_0_r. reflexivity.
    + destruct (IH (i + 1) w1) as (k & Hk & Hev & Hval).
      exists (S k). split; [lia|]. split.
      * rewrite Hev. cbn [seq map app]. rewrite Z.add_0_r. f_equal.
        rewrite <- seq_shift, map_map. apply map_ext. intros j.
        do 3 f_equal. lia.
      * destruct (val (tenantIndexBuilder_from tenant (i + 1) n w1));
          [lia|congruence].
Qed.


Lemma tenantIndexBuilder_from_unowned tenant i n w :
  (forall job w', (Owns job w').1 = false) ->
  val (tenantIndexBuilder_from tenant i n w) = false.
Proof.
  intros Hno. revert i w. induction n as [|n IH]; intros i w; [reflexivity|].
  cbn [tenantIndexBuilder_from]. cbv zeta. rewrite bind_val.
  pose proof (Hno (builder_job tenant i) w) as Hown.
  fold (builder_job tenant i).
  destruct (Owns (builder_job tenant i) w) as [owns w1] eqn:Heq.
  rewrite (call_eq _ _ _ _ _ Heq). cbn [val wld fst snd] in *. subst owns.
  apply IH.
Qed.

Lemma existsb_seq_shift (f : nat -> bool) s n :
  existsb f (seq (S s) n) = existsb (fun j => f (S j)) (seq s n).
Proof.
  revert s. induction n as [|n IH]; intros s; [reflexivity|].
  cbn [seq existsb]. rewrite IH. reflexivity.
Qed.

Lemma existsb_pointwise {A} (f g : A -> bool) l :
  (forall a, f a = g a) -> existsb f l = existsb g l.
Proof.
  intros Hfg. induction l as [|a l IH]; [reflexivity|].
  cbn [existsb]. rewrite Hfg, IH. reflexivity.
Qed.

Lemma tenantIndexBuilder_from_owned (owned : string -> bool) tenant i n w :
  (forall job w', (Owns job w').1 = owned job) ->
  val (tenantIndexBuilder_from tenant i n w)
  = existsb (fun j : nat => owned (builder_job tenant (i + Z.of_nat j)))
            (seq 0 n).
Proof.
  intros Hown. revert i w. induction n as [|n IH]; intros i w; [reflexivity|].
  cbn [tenantIndexBuilder_from]. cbv zeta. rewrite bind_val.
  pose proof (Hown (builder_job tenant i) w) as Hi.
  fold (builder_job tenant i).
  destruct (Owns (builder_job tenant i) w) as [owns w1] eqn:Heq.
  rewrite (call_eq _ _ _ _ _ Heq). cbn [val wld fst snd] in *. subst owns.
  cbn [seq existsb]. rewrite Z.add_0_r.
  destruct (owned (builder_job tenant i)); [reflexivity|].
  cbn [orb]. rewrite IH, existsb_seq_shift.
  apply existsb_pointwise. intros j. do 2 f_equal. lia.
Qed.

(** X6.  With a sharder whose answers do not change, the poller is a
    builder of the tenant's index exactly when it owns one of the jobs of
    the rounds 0 to [TenantIndexBuilders - 1]. *)
Theorem tenantIndexBuilder_owns_one_of_the_jobs :
  forall (owned : string -> bool) (tenant : string) (w : W),
    (forall job w', (Owns job w').1 = owned job) ->
    val (tenantIndexBuilder cfg tenant w)
    = existsb (fun j : nat => owned (builder_job tenant (Z.of_nat j)))
              (seq 0 (Z.to_nat (TenantIndexBuilders cfg))).
Proof.
  intros owned tenant w Hown. unfold tenantIndexBuilder.
  exact (tenantIndexBuilder_from_owned owned tenant 0 _ w Hown).
Qed.

(** ** [deleteTenant] *)

Lemma path_Split_join p : (path_Split p).1 +:+ (path_Split p).2 = p.
Proof.
  induction p as [|c rest IH]; [reflexivity|].
  cbn [path_Split]. destruct (path_Split rest) as [dir name].
  cbn [fst snd] in IH. destruct dir as [|d dir].
  - cbn in IH. subst rest. destruct (Ascii.eqb c "/"); reflexivity.
  - cbn [fst snd].
    change (String c (String d dir +:+ name) = String c rest).
    f_equal. exact IH.
Qed.

Lemma deleteTenant_visit_found matches found recent w object :
  In object (val (deleteTenant_visit cfg matches found recent w)).1 ->
  In object found \/ exists o, In o matches /\ backend.Key o = object.
Proof.
  revert found recent w.
  induction matches as [|o rest IH]; intros found recent w Hin.
  - left. exact Hin.
  - cbn [deleteTenant_visit] in Hin. rewrite bind_val in Hin.
    match type of Hin with
    | context [if ?b then _ else _] => destruct b
    end; apply IH in Hin as [Hin|(o' & Ho' & Hk)].
    + apply in_app_or in Hin as [Hin|[<-|[]]]; [left; exact Hin|].
      right. exists o. split; [left; reflexivity|reflexivity].
    + right. exists o'. split; [right; exact Ho'|exact Hk].
    + left. exact Hin.
    + right. exists o'. split; [right; exact Ho'|exact Hk].
Qed.

Lemma deleteTenant_delete_calls found w e :
  In e (evs (deleteTenant_delete found w)) ->
  exists object r,
    In object found
    /\ e = EvCall (CallDelete (path_Split object).2 [(path_Split object).1] r).
Proof.
  revert w. induction found as [|o rest IH]; intros w Hin; [destruct Hin|].
  cbn [deleteTenant_delete] in Hin.
  destruct (path_Split o) as [dir name] eqn:Hsplit.
  rewrite bind_evs in Hin.
  destruct (Delete name [dir] w) as [r w1] eqn:Hdel.
  rewrite (call_with_eq _ _ _ _ _ Hdel) in Hin. cbn [val wld evs fst snd] in Hin.
  apply in_app_or in Hin as [[<-|[]]|Hin].
  - exists o, r. split; [left; reflexivity|]. rewrite Hsplit. reflexivity.
  - destruct r as [err|]; [destruct Hin|].
    apply IH in Hin as (object & r' & Hobj & ->).
    exists object, r'. split; [right; exact Hobj|reflexivity].
Qed.

(** [deleteTenant], step by step, when it is enabled with an age. *)
Lemma deleteTenant_run tenantID w :
  EmptyTenantDeletionEnabled cfg = true ->
  EmptyTenantDeletionAge cfg <> 0 ->
  let found := Find [tenantID] w in
  let visit := deleteTenant_visit cfg found.1.1 [] 0 found.2 in
  let index := TenantIndex tenantID (wld visit) in
  let delete := deleteTenant_delete (val visit).1 index.2 in
  val (deleteTenant cfg tenantID w)
  = match found.1.2 with
    | Some e => Some e
    | None =>
        if (val visit).2 >? 0 then None
        else if negb (index_missing index.1) then None
             else val delete
    end
  /\ evs (deleteTenant cfg tenantID w)
     = EvCall (CallFind [tenantID])
       :: match found.1.2 with
          | Some e => []
          | None =>
              if (val visit).2 >? 0 then []
              else EvCall (CallTenantIndex tenantID)
                   :: (if negb (index_missing index.1) then []
                       else evs delete)
          end.
Proof.
  intros Hen Hage. cbv zeta. unfold deleteTenant. rewrite Hen.
  apply Z.eqb_neq in Hage. rewrite Hage. cbn [negb].
  rewrite bind_val, bind_evs.
  destruct (Find [tenantID] w) as [[matches err] w1] eqn:Hfind.
  rewrite (call_eq _ _ _ _ _ Hfind). cbn [val wld evs fst snd app].
  rewrite bind_val, bind_evs, deleteTenant_visit_evs. cbn [app].
  destruct (val (deleteTenant_visit cfg matches [] 0 w1)) as [found recent] eqn:Hv.
  cbn [fst snd]. destruct err as [e|]; [split; reflexivity|].
  destruct (recent >? 0); [split; reflexivity|].
  rewrite bind_val, bind_evs.
  destruct (TenantIndex tenantID (wld (deleteTenant_visit cfg matches [] 0 w1)))
    as [r w2] eqn:Hidx.
  rewrite (call_eq _ _ _ _ _ Hidx). cbn [val wld evs fst snd app].
  assert (Hmiss : errors_Is_DoesNotExist
                    match r with inl _ => None | inr e => Some e end
                  = index_missing r) by (destruct r; reflexivity).
  rewrite Hmiss. destruct (index_missing r); split; reflexivity.
Qed.

(** X7.  If the walk over the tenant's objects fails, [deleteTenant] returns
    the error of [Find]: the tenant index is not read and nothing is
    deleted. *)
Theorem deleteTenant_gives_up_when_Find_fails :
  forall (tenantID : string) (w w1 : W)
         (matches : list backend.FindMatch) (e : error),
    EmptyTenantDeletionEnabled cfg = true ->
    EmptyTenantDeletionAge cfg <> 0 ->
    Find [tenantID] w = ((matches, Some e), w1) ->
    val (deleteTenant cfg tenantID w) = Some e
    /\ evs (deleteTenant cfg tenantID w) = [EvCall (CallFind [tenantID])].
Proof.
  intros tenantID w w1 matches e Hen Hage Hfind.
  destruct (deleteTenant_run tenantID w Hen Hage) as [Hval Hevs].
  rewrite Hfind in Hval, Hevs. cbn [fst snd] in Hval, Hevs.
  split; assumption.
Qed.

(** X8.  Whatever [deleteTenant] deletes is an object that [Find] has
    returned for the tenant: the name and the directory of the call are the
    two parts of its key, split after the last slash. *)
Theorem deleteTenant_deletes_found_objects_only :
  forall (tenantID : string) (w : W) (name : string) (kp : backend.KeyPath)
         (r : option error),
    In (EvCall (CallDelete name kp r)) (evs (deleteTenant cfg tenantID w)) ->
    exists (o : backend.FindMatch) (dir : string),
      In o (Find [tenantID] w).1.1
      /\ kp = [dir]
      /\ dir +:+ name = backend.Key o.
Proof.
  intros tenantID w name kp r Hin.
  destruct (EmptyTenantDeletionEnabled cfg) eqn:Hen;
    [|unfold deleteTenant in Hin; rewrite Hen in Hin; destruct Hin].
  destruct (Z.eq_dec (EmptyTenantDeletionAge cfg) 0) as [Hage|Hage].
  { unfold deleteTenant in Hin. rewrite Hen, Hage in Hin. destruct Hin. }
  destruct (deleteTenant_run tenantID w Hen Hage) as [_ Hevs].
  rewrite Hevs in Hin. clear Hevs.
  destruct Hin as [Heq|Hin]; [discriminate|].
  destruct (Find [tenantID] w).1.2; [destruct Hin|].
  destruct (_ >? 0); [destruct Hin|].
  destruct Hin as [Heq|Hin]; [discriminate|].
  destruct (negb _); [destruct Hin|].
  apply deleteTenant_delete_calls in Hin as (object & r' & Hobj & Heq).
  injection Heq as -> -> ->.
  apply deleteTenant_visit_found in Hobj as [[]|(o & Ho & Hk)].
  exists o, (path_Split object).1. split; [exact Ho|]. split; [reflexivity|].
  rewrite Hk. apply path_Split_join.
Qed.

(** X9.  With a clock that stands still, [deleteTenant] deletes only when
    every object that [Find] has returned is older than
    [EmptyTenantDeletionAge]: one recent object spares the tenant. *)
Theorem deleteTenant_spares_tenants_with_recent_objects :
  forall (tenantID : string) (w : W) (now : backend.Time) (name : string)
         (kp : backend.KeyPath) (r : option error),
    (forall w', (Now w').1 = now) ->
    In (EvCall (CallDelete name kp r)) (evs (deleteTenant cfg tenantID w)) ->
    Forall (fun o => EmptyTenantDeletionAge cfg
                     < saturate_int64 (now - backend.Modified o))
           (Find [tenantID] w).1.1.
Proof.
  intros tenantID w now name kp r Hclock Hin.
  destruct (EmptyTenantDeletionEnabled cfg) eqn:Hen;
    [|unfold deleteTenant in Hin; rewrite Hen in Hin; destruct Hin].
  destruct (Z.eq_dec (EmptyTenantDeletionAge cfg) 0) as [Hage|Hage].
  { unfold deleteTenant in Hin. rewrite Hen, Hage in Hin. destruct Hin. }
  destruct (deleteTenant_run tenantID w Hen Hage) as [_ Hevs].
  rewrite Hevs in Hin. clear Hevs.
  destruct Hin as [Heq|Hin]; [discriminate|].
  destruct (Find [tenantID] w).1.2; [destruct Hin|].
  rewrite (deleteTenant_visit_steady cfg now _ _ _ _ Hclock) in Hin.
  cbn [fst snd] in Hin.
  destruct (_ >? 0) eqn:Hrecent; [destruct Hin|]. clear Hin.
  rewrite Z.gtb_ltb in Hrecent. apply Z.ltb_ge in Hrecent.
  induction (Find [tenantID] w).1.1 as [|o rest IH]; [constructor|].
  cbn [List.filter] in Hrecent.
  destruct (saturate_int64 (now - backend.Modified o)
            >? EmptyTenantDeletionAge cfg) eqn:Hold; cbn [negb] in Hrecent.
  - constructor; [apply Z.gtb_lt in Hold; lia|]. apply IH. exact Hrecent.
  - cbn [length] in Hrecent. lia.
Qed.

(** ** [pollUnknown] *)

Lemma pollUnknown_run unknownBlocks tenantID w :
  let range := MapRange (map_to_list unknownBlocks) w in
  let r := pollUnknown_range cfg tenantID range.1 ([], [], []) range.2 in
  val (pollUnknown cfg unknownBlocks tenantID w)
  = (if 0 <? Z.of_nat (length (val r).2)
     then ([], [], Some (ErrJoin (val r).2))
     else ((val r).1.1, (val r).1.2, None))
  /\ evs (pollUnknown cfg unknownBlocks tenantID w)
     = evs r ++ (if 0 <? Z.of_nat (length (val r).2)
                 then [EvMetric (TenantIndexErrorsInc tenantID)]
                 else []).
Proof.
  cbv zeta. unfold pollUnknown. rewrite bind_val, bind_evs.
  destruct (MapRange (map_to_list unknownBlocks) w) as [entries w1] eqn:Hrange.
  rewrite (ask_eq _ _ _ _ Hrange). cbn [val wld evs fst snd app].
  rewrite bind_val, bind_evs.
  destruct (val (pollUnknown_range cfg tenantID entries ([], [], []) w1))
    as [[nb nc] errs]. cbn [fst snd].
  destruct (0 <? Z.of_nat (length errs)); split; reflexivity.
Qed.

Lemma pollUnknown_collect_count r acc :
  (length (pollUnknown_collect r acc).1.1
   + length (pollUnknown_collect r acc).1.2
   <= S (length acc.1.1 + length acc.1.2))%nat.
Proof.
  destruct acc as [[l c] errs], r as [[[m|] [cm|]] [e|]];
    cbn; rewrite ?length_app; cbn; lia.
Qed.

Lemma pollUnknown_range_count tenantID entries acc w :
  let r := val (pollUnknown_range cfg tenantID entries acc w) in
  (length r.1.1 + length r.1.2
   <= length acc.1.1 + length acc.1.2 + length entries)%nat.
Proof.
  revert acc w. induction entries as [|[id c] rest IH]; intros acc w r; subst r.
  - cbn. lia.
  - cbn [pollUnknown_range].
    destruct (0 <? Z.of_nat (length acc.2)); [cbn; lia|].
    rewrite bind_val.
    specialize (IH (pollUnknown_collect
                      (val (pollBlock cfg tenantID id c w)) acc)
                   (wld (pollBlock cfg tenantID id c w))).
    cbv zeta in IH.
    pose proof (pollUnknown_collect_count
                  (val (pollBlock cfg tenantID id c w)) acc).
    cbn [length]. lia.
Qed.

(** X10.  [pollUnknown] returns one meta at most for each unknown block. *)
Theorem pollUnknown_returns_one_meta_per_block_at_most :
  forall (unknownBlocks : gmap backend.UUID bool) (tenantID : string) (w : W),
    (length (val (pollUnknown cfg unknownBlocks tenantID w)).1.1
     + length (val (pollUnknown cfg unknownBlocks tenantID w)).1.2
     <= size unknownBlocks)%nat.
Proof.
  intros unknownBlocks tenantID w.
  destruct (pollUnknown_run unknownBlocks tenantID w) as [-> _].
  pose proof (MapRange_Permutation (map_to_list unknownBlocks) w) as Hperm.
  apply Permutation_length in Hperm. rewrite length_map_to_list in Hperm.
  pose proof (pollUnknown_range_count tenantID
                (MapRange (map_to_list unknownBlocks) w).1 ([], [], [])
                (MapRange (map_to_list unknownBlocks) w).2) as Hcount.
  cbv zeta in Hcount. cbn [length fst snd] in Hcount.
  destruct (0 <? _); cbn [fst snd length]; lia.
Qed.

(** X11.  When a block could not be read, [pollUnknown] returns no meta at
    all, not even those it has read: the error joins what went wrong, and
    the tenant's index error counter goes up. *)
Theorem pollUnknown_error_discards_the_metas :
  forall (unknownBlocks : gmap backend.UUID bool) (tenantID : string) (w : W)
         (e : error),
    (val (pollUnknown cfg unknownBlocks tenantID w)).2 = Some e ->
    val (pollUnknown cfg unknownBlocks tenantID w) = ([], [], Some e)
    /\ (exists errs, errs <> [] /\ e = ErrJoin errs)
    /\ In (EvMetric (TenantIndexErrorsInc tenantID))
          (evs (pollUnknown cfg unknownBlocks tenantID w)).
Proof.
  intros unknownBlocks tenantID w e.
  destruct (pollUnknown_run unknownBlocks tenantID w) as [-> ->].
  destruct (val (pollUnknown_range cfg tenantID _ _ _)).2 as [|e1 errs];
    cbn [length Z.of_nat Z.ltb Z.compare fst snd]; [discriminate|].
  intros [= <-]. split; [reflexivity|]. split.
  - exists (e1 :: errs). split; [discriminate|reflexivity].
  - apply in_or_app. right. left. reflexivity.
Qed.

Lemma pollUnknown_collect_from r acc :
  (forall m, m ∈ (pollUnknown_collect r acc).1.1 ->
             m ∈ acc.1.1 \/ r.1.1 = Some m)
  /\ (forall c, c ∈ (pollUnknown_collect r acc).1.2 ->
                c ∈ acc.1.2 \/ (r.1.1 = None /\ r.1.2 = Some c)).
Proof.
  destruct acc as [[l k] errs], r as [[[m|] [cm|]] [e|]]; cbn;
    split; intros x Hx; rewrite ?elem_of_app, ?list_elem_of_singleton in Hx;
    naive_solver.
Qed.

Lemma pollUnknown_range_from tenantID entries acc w :
  let r := val (pollUnknown_range cfg tenantID entries acc w) in
  (forall m, m ∈ r.1.1 ->
     m ∈ acc.1.1
     \/ exists id f w0,
          In (id, f) entries
          /\ (val (pollBlock cfg tenantID id f w0)).1.1 = Some m)
  /\ (forall c, c ∈ r.1.2 ->
        c ∈ acc.1.2
        \/ exists id f w0,
             In (id, f) entries
             /\ (val (pollBlock cfg tenantID id f w0)).1.2 = Some c).
Proof.
  revert acc w. induction entries as [|[id f] rest IH]; intros acc w r; subst r.
  - split; intros x Hx; left; exact Hx.
  - cbn [pollUnknown_range].
    destruct (0 <? Z.of_nat (length acc.2)); [split; intros x Hx; left; exact Hx|].
    rewrite bind_val.
    set (p := pollBlock cfg tenantID id f w).
    destruct (IH (pollUnknown_collect (val p) acc) (wld p)) as [IHm IHc].
    destruct (pollUnknown_collect_from (val p) acc) as [Hm Hc].
    split; intros x Hx.
    + apply IHm in Hx as [Hx|(id' & f' & w0 & Hin & Hx)].
      * apply Hm in Hx as [Hx|Hx]; [left; exact Hx|].
        right. exists id, f, w. split; [left; reflexivity|exact Hx].
      * right. exists id', f', w0. split; [right; exact Hin|exact Hx].
    + apply IHc in Hx as [Hx|(id' & f' & w0 & Hin & Hx)].
      * apply Hc in Hx as [Hx|[_ Hx]]; [left; exact Hx|].
        right. exists id, f, w. split; [left; reflexivity|exact Hx].
      * right. exists id', f', w0. split; [right; exact Hin|exact Hx].
Qed.

(** Where the metas of [pollUnknown] come from: each is the answer of
    [pollBlock] for an unknown block. *)
Lemma pollUnknown_from unknownBlocks tenantID w :
  let r := val (pollUnknown cfg unknownBlocks tenantID w) in
  (forall m, m ∈ r.1.1 ->
     exists id f w0,
       unknownBlocks !! id = Some f
       /\ (val (pollBlock cfg tenantID id f w0)).1.1 = Some m)
  /\ (forall c, c ∈ r.1.2 ->
        exists id f w0,
          unknownBlocks !! id = Some f
          /\ (val (pollBlock cfg tenantID id f w0)).1.2 = Some c).
Proof.
  cbv zeta. destruct (pollUnknown_run unknownBlocks tenantID w) as [-> _].
  pose proof (MapRange_Permutation (map_to_list unknownBlocks) w) as Hperm.
  destruct (pollUnknown_range_from tenantID
              (MapRange (map_to_list unknownBlocks) w).1 ([], [], [])
              (MapRange (map_to_list unknownBlocks) w).2) as [Hm Hc].
  assert (Hin : forall id f,
            In (id, f) (MapRange (map_to_list unknownBlocks) w).1 ->
            unknownBlocks !! id = Some f).
  { intros id f Hin. apply list_elem_of_In in Hin. rewrite Hperm in Hin.
    apply elem_of_map_to_list in Hin. exact Hin. }
  destruct (0 <? _); cbn [fst snd].
  { split; intros x Hx; inversion Hx. }
  split; intros x Hx.
  - apply Hm in Hx as [Hx|(id & f & w0 & Hi & Hx)]; [inversion Hx|].
    exists id, f, w0. split; [apply Hin; exact Hi|exact Hx].
  - apply Hc in Hx as [Hx|(id & f & w0 & Hi & Hx)]; [inversion Hx|].
    exists id, f, w0. split; [apply Hin; exact Hi|exact Hx].
Qed.

(** ** [pollTenantBlocks] *)

Lemma unknown_lookup mm cm live comp id f :
  (known_compacted cm comp [] (known_blocks mm live [] ∅).2).2 !! id = Some f ->
  (f = true /\ id ∈ comp /\ cm !! id = None)
  \/ (f = false /\ id ∈ live /\ mm !! id = None).
Proof.
  rewrite known_compacted_snd. case_decide as Hc.
  - intros [= <-]. left. tauto.
  - rewrite known_blocks_snd. case_decide as Hl.
    + intros [= <-]. right. tauto.
    + rewrite lookup_empty. discriminate.
Qed.

Lemma pollTenantBlocks_succeeded tenantID previous w l c :
  val (pollTenantBlocks cfg tenantID previous w) = (l, c, None) ->
  let live := (Blocks tenantID w).1.1.1 in
  let comp := (Blocks tenantID w).1.1.2 in
  let mm := index_metas (Metas previous tenantID) ∅ in
  let cm := index_compactedMetas (CompactedMetas previous tenantID) ∅ in
  let unknown :=
    (known_compacted cm comp [] (known_blocks mm live [] ∅).2).2 in
  let polled := pollUnknown cfg unknown tenantID (Blocks tenantID w).2 in
  (Blocks tenantID w).1.2 = None
  /\ l = omap (fun id => mm !! id) live ++ (val polled).1.1
  /\ c = omap (fun id => cm !! id) comp ++ (val polled).1.2.
Proof.
  intros Hval. cbv zeta.
  destruct (Blocks tenantID w) as [[[live comp] [e|]] w1] eqn:Hblocks.
  { unfold pollTenantBlocks in Hval.
    rewrite bind_val, (call_eq _ _ _ _ _ Hblocks) in Hval. discriminate. }
  destruct (pollTenantBlocks_run cfg tenantID previous w live comp w1 Hblocks)
    as [Hrun _].
  cbv zeta in Hrun. rewrite Hval in Hrun. cbn [fst snd].
  destruct (val (pollUnknown cfg _ tenantID w1)).2; [discriminate|].
  injection Hrun as -> ->. auto.
Qed.

(** X12.  The lists of [pollTenantBlocks] hold listed blocks only: a live
    meta is of a block of the live listing, a compacted meta of a block of
    the compacted or of the live listing. What the previous list knows of a
    block that the store no longer lists is dropped. *)
Theorem pollTenantBlocks_returns_listed_blocks_only :
  forall (tenantID : string) (previous : List) (w : W)
         (l : list backend.BlockMeta) (c : list backend.CompactedBlockMeta),
    metas_carry_their_id ->
    val (pollTenantBlocks cfg tenantID previous w) = (l, c, None) ->
    (forall m, m ∈ l -> backend.BlockID m ∈ (Blocks tenantID w).1.1.1)
    /\ (forall k, k ∈ c ->
          CompactedBlockID k ∈ (Blocks tenantID w).1.1.2
          \/ CompactedBlockID k ∈ (Blocks tenantID w).1.1.1).
Proof.
  intros tenantID previous w l c Hid Hval.
  destruct (pollTenantBlocks_succeeded tenantID previous w l c Hval)
    as (_ & -> & ->).
  match goal with
  | |- context [pollUnknown cfg ?u tenantID ?w1] =>
      destruct (pollUnknown_from u tenantID w1) as [Hm Hc]
  end.
  cbv zeta in Hm, Hc. split.
  - intros m Hin. apply elem_of_app in Hin as [Hin|Hin].
    + apply list_elem_of_omap in Hin as (id & Hid' & Hlook).
      apply index_metas_key in Hlook as ->; [exact Hid'|].
      intros k' v'. rewrite lookup_empty. discriminate.
    + apply Hm in Hin as (id & f & w0 & Hunk & Hpoll).
      destruct (pollBlock_ids cfg tenantID id f w0 Hid) as [Hb _].
      rewrite (Hb m Hpoll).
      apply unknown_lookup in Hunk as [(-> & _)|(_ & Hl & _)]; [|exact Hl].
      rewrite pollBlock_compacted_no_live in Hpoll. discriminate.
  - intros k Hin. apply elem_of_app in Hin as [Hin|Hin].
    + apply list_elem_of_omap in Hin as (id & Hid' & Hlook).
      apply index_compactedMetas_key in Hlook as ->; [left; exact Hid'|].
      intros k' v'. rewrite lookup_empty. discriminate.
    + apply Hc in Hin as (id & f & w0 & Hunk & Hpoll).
      destruct (pollBlock_ids cfg tenantID id f w0 Hid) as [_ Hb].
      rewrite (Hb k Hpoll).
      apply unknown_lookup in Hunk as [(_ & Hl & _)|(_ & Hl & _)]; auto.
Qed.

Lemma index_metas_known l mm k :
  is_Some (mm !! k) \/ (exists m, m ∈ l /\ backend.BlockID m = k) ->
  is_Some (index_metas l mm !! k).
Proof.
  revert mm. induction l as [|i rest IH]; intros mm Hk.
  - destruct Hk as [Hk|(m & Hm & _)]; [exact Hk|inversion Hm].
  - cbn [index_metas]. apply IH.
    destruct (decide (backend.BlockID i = k)) as [<-|Hne].
    + left. rewrite lookup_insert_eq. eauto.
    + rewrite lookup_insert_ne by assumption.
      destruct Hk as [Hk|(m & Hm & Hmk)]; [left; exact Hk|].
      apply elem_of_cons in Hm as [->|Hm]; [contradiction|eauto].
Qed.

Lemma index_compactedMetas_known l cm k :
  is_Some (cm !! k) \/ (exists c, c ∈ l /\ CompactedBlockID c = k) ->
  is_Some (index_compactedMetas l cm !! k).
Proof.
  revert cm. induction l as [|i rest IH]; intros cm Hk.
  - destruct Hk as [Hk|(m & Hm & _)]; [exact Hk|inversion Hm].
  - cbn [index_compactedMetas]. apply IH.
    destruct (decide (CompactedBlockID i = k)) as [<-|Hne].
    + left. rewrite lookup_insert_eq. eauto.
    + rewrite lookup_insert_ne by assumption.
      destruct Hk as [Hk|(m & Hm & Hmk)]; [left; exact Hk|].
      apply elem_of_cons in Hm as [->|Hm]; [contradiction|eauto].
Qed.

Lemma known_all {V} (f : V -> backend.UUID) (m : gmap backend.UUID V) ids :
  (forall k v, m !! k = Some v -> f v = k) ->
  (forall id, id ∈ ids -> is_Some (m !! id)) ->
  map f (omap (fun id => m !! id) ids) = ids.
Proof.
  intros Hkey. induction ids as [|id ids IH]; intros Hall; [reflexivity|].
  cbn [omap list_omap]. destruct (Hall id ltac:(left)) as [v Hv].
  rewrite Hv. cbn [map]. rewrite (Hkey _ _ Hv). f_equal.
  apply IH. intros id' Hin. apply Hall. right. exact Hin.
Qed.

Lemma pollUnknown_nothing tenantID w :
  val (pollUnknown cfg ∅ tenantID w) = ([], [], None)
  /\ evs (pollUnknown cfg ∅ tenantID w) = [].
Proof.
  destruct (pollUnknown_run ∅ tenantID w) as [-> ->].
  pose proof (MapRange_Permutation (map_to_list (∅ : gmap backend.UUID bool)) w)
    as Hperm.
  rewrite map_to_list_empty in Hperm |- *. apply Permutation_nil_r in Hperm.
  rewrite Hperm. split; reflexivity.
Qed.

(** X13.  When the previous list knows every block of the listing, live for
    live and compacted for compacted, [pollTenantBlocks] reads no block at
    all: the listing is its only call, and the lists follow the listing. *)
Theorem pollTenantBlocks_reads_nothing_when_all_is_known :
  forall (tenantID : string) (previous : List) (w w1 : W)
         (live comp : list backend.UUID),
    Blocks tenantID w = ((live, comp, None), w1) ->
    (forall id, id ∈ live ->
       exists m, m ∈ Metas previous tenantID /\ backend.BlockID m = id) ->
    (forall id, id ∈ comp ->
       exists k, k ∈ CompactedMetas previous tenantID
                 /\ CompactedBlockID k = id) ->
    evs (pollTenantBlocks cfg tenantID previous w)
    = [EvCall (CallBlocks tenantID)]
    /\ exists (l : list backend.BlockMeta)
              (c : list backend.CompactedBlockMeta),
         val (pollTenantBlocks cfg tenantID previous w) = (l, c, None)
         /\ map backend.BlockID l = live
         /\ map CompactedBlockID c = comp.
Proof.
  intros tenantID previous w w1 live comp Hblocks Hlive Hcomp.
  destruct (pollTenantBlocks_run cfg tenantID previous w live comp w1 Hblocks)
    as [Hval Hevs].
  cbv zeta in Hval, Hevs.
  set (mm := index_metas (Metas previous tenantID) ∅) in *.
  set (cm := index_compactedMetas (CompactedMetas previous tenantID) ∅) in *.
  assert (Hmm : forall id, id ∈ live -> is_Some (mm !! id)).
  { intros id Hin. apply index_metas_known. right. apply Hlive, Hin. }
  assert (Hcm : forall id, id ∈ comp -> is_Some (cm !! id)).
  { intros id Hin. apply index_compactedMetas_known. right. apply Hcomp, Hin. }
  assert (Hunk : (known_compacted cm comp [] (known_blocks mm live [] ∅).2).2
                 = ∅).
  { apply map_eq. intros id. rewrite lookup_empty.
    destruct (_ !! id) as [f|] eqn:Hf; [|reflexivity].
    apply unknown_lookup in Hf as [(_ & Hin & Hnone)|(_ & Hin & Hnone)].
    - destruct (Hcm id Hin) as [v Hv]. congruence.
    - destruct (Hmm id Hin) as [v Hv]. congruence. }
  rewrite Hunk in Hval, Hevs.
  destruct (pollUnknown_nothing tenantID w1) as [Hpv Hpe].
  rewrite Hpv in Hval. rewrite Hpe in Hevs. cbn [fst snd] in Hval.
  split; [exact Hevs|].
  eexists _, _. split; [exact Hval|]. rewrite !app_nil_r. split.
  - apply known_all; [|exact Hmm].
    intros k v Hv. eapply index_metas_key; [|exact Hv].
    intros k' v'. rewrite lookup_empty. discriminate.
  - apply known_all; [|exact Hcm].
    intros k v Hv. eapply index_compactedMetas_key; [|exact Hv].
    intros k' v'. rewrite lookup_empty. discriminate.
Qed.

Lemma pollBlock_flagged tenantID blockID w :
  SkipNoCompactBlocks cfg = true ->
  (HasNoCompactFlag blockID tenantID w).1 = (true, None) ->
  val (pollBlock cfg tenantID blockID false w) = (None, None, None).
Proof.
  intros Hskip Hflag. unfold pollBlock. rewrite Hskip. cbn [negb andb].
  rewrite !bind_val.
  destruct (HasNoCompactFlag blockID tenantID w) as [[flag ferr] w1] eqn:Heq.
  rewrite (call_eq _ _ _ _ _ Heq). cbn [val wld fst snd] in *.
  injection Hflag as -> ->. reflexivity.
Qed.

(** X14.  With [SkipNoCompactBlocks], a block that carries the nocompact
    flag does not get into the live list by being polled: unless the
    previous list has it already, no live meta of the block is returned. *)
Theorem pollTenantBlocks_leaves_out_nocompact_blocks :
  forall (tenantID : string) (previous : List) (w : W)
         (l : list backend.BlockMeta) (c : list backend.CompactedBlockMeta)
         (blockID : backend.UUID),
    SkipNoCompactBlocks cfg = true ->
    metas_carry_their_id ->
    (forall w', (HasNoCompactFlag blockID tenantID w').1 = (true, None)) ->
    (forall m, m ∈ Metas previous tenantID -> backend.BlockID m <> blockID) ->
    val (pollTenantBlocks cfg tenantID previous w) = (l, c, None) ->
    forall m, m ∈ l -> backend.BlockID m <> blockID.
Proof.
  intros tenantID previous w l c blockID Hskip Hid Hflag Hprev Hval m Hin.
  destruct (pollTenantBlocks_succeeded tenantID previous w l c Hval)
    as (_ & -> & _).
  apply elem_of_app in Hin as [Hin|Hin].
  - apply list_elem_of_omap in Hin as (id & _ & Hlook).
    apply index_metas_elem in Hlook as [Hm|Hm]; [apply Hprev, Hm|].
    rewrite lookup_empty in Hm. discriminate.
  - match type of Hin with
    | context [pollUnknown cfg ?u tenantID ?w1] =>
        destruct (pollUnknown_from u tenantID w1) as [Hm _]
    end.
    cbv zeta in Hm. apply Hm in Hin as (id & f & w0 & _ & Hpoll).
    destruct (pollBlock_ids cfg tenantID id f w0 Hid) as [Hb _].
    rewrite (Hb m Hpoll). intros ->.
    destruct f; [rewrite pollBlock_compacted_no_live in Hpoll; discriminate|].
    rewrite (pollBlock_flagged tenantID blockID w0 Hskip (Hflag w0)) in Hpoll.
    discriminate.
Qed.

(** ** What each function does to the outside *)

Ltac emits_go tac :=
  first
    [ apply emits_ret
    | apply emits_ask
    | apply emits_emit; tac
    | apply emits_call; tac
    | apply emits_call_with; intros; tac
    | apply emits_bind; [|intros]
    | match goal with
      | |- emits _ (let _ := _ in _) => cbv zeta
      | |- emits _ (match ?x with _ => _ end) => destruct x
      end ].

Lemma pollBlock_footprint tenantID blockID compacted :
  emits (reads_blocks_of tenantID) (pollBlock cfg tenantID blockID compacted).
Proof. unfold pollBlock. repeat emits_go ltac:(reflexivity). Qed.

Lemma pollUnknown_footprint unknownBlocks tenantID :
  emits (reads_blocks_of tenantID) (pollUnknown cfg unknownBlocks tenantID).
Proof.
  assert (Hr : forall entries acc,
             emits (reads_blocks_of tenantID)
                   (pollUnknown_range cfg tenantID entries acc)).
  { induction entries as [|[id c] rest IH]; intros acc;
      cbn [pollUnknown_range];
      repeat (apply pollBlock_footprint || emits_go ltac:(reflexivity)).
    apply IH. }
  unfold pollUnknown. repeat (apply Hr || emits_go ltac:(reflexivity)).
Qed.

Lemma time_Since_silent t w : evs (time_Since t w) = [].
Proof.
  unfold time_Since. rewrite bind_evs.
  destruct (Now w) as [now w1] eqn:Hnow. rewrite (ask_eq _ _ _ _ Hnow).
  reflexivity.
Qed.

Lemma time_Since_emits P t : emits P (time_Since t).
Proof. intros w. rewrite time_Since_silent. constructor. Qed.

Lemma tenantIndexPollError_emits P r : emits P (tenantIndexPollError cfg r).
Proof.
  unfold tenantIndexPollError.
  repeat (apply time_Since_emits || emits_go ltac:(fail)).
Qed.

Lemma tenantIndexBuilder_footprint tenant :
  emits (pulls_index_of tenant) (tenantIndexBuilder cfg tenant).
Proof.
  intros w. unfold tenantIndexBuilder.
  destruct (tenantIndexBuilder_from_asks tenant 0
              (Z.to_nat (TenantIndexBuilders cfg)) w) as (k & _ & -> & _).
  apply Forall_map, Forall_forall. intros j _. cbn. eauto.
Qed.

Lemma pollTenantAndCreateIndex_pull_footprint tenantID :
  emits (pulls_index_of tenantID) (pollTenantAndCreateIndex_pull cfg tenantID).
Proof.
  unfold pollTenantAndCreateIndex_pull.
  repeat (apply tenantIndexBuilder_footprint || apply tenantIndexPollError_emits
          || apply time_Since_emits || emits_go ltac:(reflexivity)).
Qed.

Lemma deleteTenant_footprint tenantID :
  emits (reaps tenantID) (deleteTenant cfg tenantID).
Proof.
  assert (Hv : forall ms f r,
             emits (reaps tenantID) (deleteTenant_visit cfg ms f r)).
  { intros ms f r w. rewrite deleteTenant_visit_evs. constructor. }
  assert (Hd : forall f, emits (reaps tenantID) (deleteTenant_delete f)).
  { induction f as [|o rest IH]; cbn [deleteTenant_delete];
      repeat emits_go ltac:(first [reflexivity|exact I]). apply IH. }
  unfold deleteTenant.
  repeat (apply Hv || apply Hd || emits_go ltac:(first [reflexivity|exact I])).
Qed.

(** [pollTenantBlocks]: the listing first, then the reads of the unknown
    blocks. *)
Lemma pollTenantBlocks_evs tenantID previous w :
  exists tail,
    evs (pollTenantBlocks cfg tenantID previous w)
    = EvCall (CallBlocks tenantID) :: tail
    /\ Forall (reads_blocks_of tenantID) tail.
Proof.
  destruct (Blocks tenantID w) as [[[live comp] [e|]] w1] eqn:Hblocks.
  - exists []. split; [|constructor].
    unfold pollTenantBlocks. rewrite bind_evs.
    rewrite (call_eq _ _ _ _ _ Hblocks). reflexivity.
  - destruct (pollTenantBlocks_run cfg tenantID previous w live comp w1 Hblocks)
      as [_ Hevs].
    cbv zeta in Hevs. eexists. split; [exact Hevs|].
    apply pollUnknown_footprint.
Qed.

(** The builder's part of [pollTenantAndCreateIndex], step by step. *)
Lemma pollTenantAndCreateIndex_build_run tenantID previous w :
  let poll := pollTenantBlocks cfg tenantID previous w in
  let l := (val poll).1.1 in
  let c := (val poll).1.2 in
  let written := WriteTenantIndex tenantID l c (wld poll) in
  let reap :=
    if (Z.of_nat (length l) =? 0) && (Z.of_nat (length c) =? 0)
    then deleteTenant cfg tenantID written.2
    else (None, written.2, []) in
  val (pollTenantAndCreateIndex_build cfg tenantID previous w)
  = match (val poll).2 with
    | Some e => ([], [], Some (ErrWrap "failed to poll tenant blocks" e))
    | None =>
        match val reap with
        | Some e => ([], [], Some (ErrWrap "failed to delete tenant" e))
        | None => (l, c, None)
        end
    end
  /\ evs (pollTenantAndCreateIndex_build cfg tenantID previous w)
     = EvMetric (TenantIndexBuilderSet tenantID 1)
       :: evs poll
       ++ match (val poll).2 with
          | Some e => []
          | None =>
              EvCall (CallWriteTenantIndex tenantID l c)
              :: match written.1 with
                 | Some e => [EvMetric (TenantIndexErrorsInc tenantID);
                              EvLog (LogFailedToWriteIndex tenantID e)]
                 | None => []
                 end
              ++ evs reap
              ++ match val reap with
                 | Some _ => []
                 | None => [EvMetric (TenantIndexAgeSecondsSet tenantID 0)]
                 end
          end.
Proof.
  cbv zeta. unfold pollTenantAndCreateIndex_build.
  rewrite !bind_val, !bind_evs. cbn [emit val wld evs fst snd app].
  destruct (val (pollTenantBlocks cfg tenantID previous w)) as [[l c] [e|]];
    cbn [fst snd].
  { split; reflexivity. }
  set (w1 := wld (pollTenantBlocks cfg tenantID previous w)).
  destruct (WriteTenantIndex tenantID l c w1) as [werr w2] eqn:Hwrite.
  unfold bind, call, emit, ret, val, wld, evs. rewrite Hwrite. cbn [fst snd].
  destruct werr as [e|];
    destruct ((Z.of_nat (length l) =? 0) && (Z.of_nat (length c) =? 0));
    try (destruct (deleteTenant cfg tenantID w2) as [[[e'|] w3] ev]);
    cbn; rewrite ?app_nil_r, <- ?app_assoc; split; reflexivity.
Qed.

(** ** [pollTenantAndCreateIndex] *)

Lemma pollTenantAndCreateIndex_run tenantID previous w :
  let pull := pollTenantAndCreateIndex_pull cfg tenantID w in
  let build := pollTenantAndCreateIndex_build cfg tenantID previous (wld pull) in
  val (pollTenantAndCreateIndex cfg tenantID previous w)
  = match val pull with Some r => r | None => val build end
  /\ evs (pollTenantAndCreateIndex cfg tenantID previous w)
     = evs pull ++ match val pull with Some _ => [] | None => evs build end.
Proof.
  cbv zeta. unfold pollTenantAndCreateIndex. rewrite bind_val, bind_evs.
  destruct (val (pollTenantAndCreateIndex_pull cfg tenantID w));
    split; reflexivity.
Qed.

Lemma pulls_index_of_follower tenantID e :
  pulls_index_of tenantID e -> follower_call e = true.
Proof. destruct e as [[]|[]|[]]; cbn; intros H; solve [reflexivity|destruct H]. Qed.

Lemma pulls_index_of_quiet tenantID e :
  pulls_index_of tenantID e -> is_reaping e = false /\ is_listing e = false.
Proof.
  destruct e as [[]|[]|[]]; cbn; intros H;
    solve [split; reflexivity|destruct H].
Qed.

Lemma reads_blocks_of_quiet tenantID e :
  reads_blocks_of tenantID e -> is_reaping e = false /\ is_listing e = false.
Proof.
  destruct e as [[]|[]|[]]; cbn; intros H;
    solve [split; reflexivity|destruct H].
Qed.

(** The follower's part with a fresh index: the lists of the index are the
    result. *)
Lemma pollTenantAndCreateIndex_pull_fresh tenantID w w2 idx :
  val (tenantIndexBuilder cfg tenantID w) = false ->
  StaleTenantIndex cfg = 0 ->
  TenantIndex tenantID (wld (tenantIndexBuilder cfg tenantID w)) = (inl idx, w2) ->
  val (pollTenantAndCreateIndex_pull cfg tenantID w)
  = Some (backend.Meta idx, backend.CompactedMeta idx, None).
Proof.
  intros Hb Hstale Hidx. unfold pollTenantAndCreateIndex_pull.
  rewrite bind_val, Hb. cbn [negb]. rewrite !bind_val. cbn [emit wld val fst snd].
  rewrite (call_eq _ _ _ _ _ Hidx). cbn [val wld fst snd].
  unfold tenantIndexPollError. rewrite Hstale. cbn [Z.eqb negb ret val wld fst snd].
  rewrite !bind_val. reflexivity.
Qed.

(** X15.  A poller that is no builder of the tenant's index and pulls an
    index that is not stale returns the lists of the index as they are: the
    previous list plays no part, no block is listed or read, and nothing is
    written. *)
Theorem pollTenantAndCreateIndex_follower_returns_the_index :
  forall (tenantID : string) (previous : List) (w w2 : W)
         (idx : backend.TenantIndex),
    val (tenantIndexBuilder cfg tenantID w) = false ->
    StaleTenantIndex cfg = 0 ->
    TenantIndex tenantID (wld (tenantIndexBuilder cfg tenantID w))
    = (inl idx, w2) ->
    val (pollTenantAndCreateIndex cfg tenantID previous w)
    = (backend.Meta idx, backend.CompactedMeta idx, None)
    /\ Forall (fun e => follower_call e = true)
              (evs (pollTenantAndCreateIndex cfg tenantID previous w)).
Proof.
  intros tenantID previous w w2 idx Hb Hstale Hidx.
  destruct (pollTenantAndCreateIndex_run tenantID previous w) as [-> ->].
  rewrite (pollTenantAndCreateIndex_pull_fresh tenantID w w2 idx Hb Hstale Hidx).
  split; [reflexivity|]. rewrite app_nil_r.
  eapply Forall_impl; [apply pollTenantAndCreateIndex_pull_footprint|].
  intros e. apply pulls_index_of_follower.
Qed.

Lemma pollTenantAndCreateIndex_pull_strict tenantID w :
  PollFallback cfg = false ->
  val (tenantIndexBuilder cfg tenantID w) = false ->
  is_Some (val (pollTenantAndCreateIndex_pull cfg tenantID w)).
Proof.
  intros Hfb Hb. unfold pollTenantAndCreateIndex_pull.
  rewrite bind_val, Hb. cbn [negb]. rewrite !bind_val. cbn [emit wld val fst snd].
  destruct (val (call (CallTenantIndex tenantID) (TenantIndex tenantID) _))
    as [idx|e];
    destruct (val (tenantIndexPollError cfg _ _)) as [e'|];
    rewrite ?bind_val, ?Hfb; cbn; eauto.
Qed.

(** Without fallback, a poller that is no builder of the tenant's index is
    a follower and nothing else: it asks the sharder and pulls the index,
    and neither lists nor reads blocks, nor writes or deletes anything. *)
Lemma pollTenantAndCreateIndex_follows tenantID previous w :
  PollFallback cfg = false ->
  val (tenantIndexBuilder cfg tenantID w) = false ->
  Forall (fun e => follower_call e = true)
         (evs (pollTenantAndCreateIndex cfg tenantID previous w)).
Proof.
  intros Hfb Hb.
  destruct (pollTenantAndCreateIndex_run tenantID previous w) as [_ ->].
  destruct (pollTenantAndCreateIndex_pull_strict tenantID w Hfb Hb) as [r ->].
  rewrite app_nil_r.
  eapply Forall_impl; [apply pollTenantAndCreateIndex_pull_footprint|].
  intros e. apply pulls_index_of_follower.
Qed.

(** X16.  The tenant index that [pollTenantAndCreateIndex] writes is the one
    of its own tenant, and it holds the lists that are returned; the one
    exception is an empty index written before [deleteTenant] fails. *)
Theorem pollTenantAndCreateIndex_writes_what_it_returns :
  forall (tenantID : string) (previous : List) (w : W) (t : string)
         (l : list backend.BlockMeta) (c : list backend.CompactedBlockMeta),
    In (EvCall (CallWriteTenantIndex t l c))
       (evs (pollTenantAndCreateIndex cfg tenantID previous w)) ->
    t = tenantID
    /\ (val (pollTenantAndCreateIndex cfg tenantID previous w) = (l, c, None)
        \/ (l = [] /\ c = []
            /\ exists e,
                 val (pollTenantAndCreateIndex cfg tenantID previous w)
                 = ([], [], Some (ErrWrap "failed to delete tenant" e)))).
Proof.
  intros tenantID previous w t l c Hin.
  destruct (pollTenantAndCreateIndex_run tenantID previous w) as [-> Hevs].
  rewrite Hevs in Hin. clear Hevs.
  apply in_app_or in Hin as [Hin|Hin].
  { pose proof (pollTenantAndCreateIndex_pull_footprint tenantID w) as Hfp.
    rewrite Forall_forall in Hfp. apply list_elem_of_In, Hfp in Hin.
    destruct Hin. }
  destruct (val (pollTenantAndCreateIndex_pull cfg tenantID w)); [destruct Hin|].
  set (w1 := wld (pollTenantAndCreateIndex_pull cfg tenantID w)) in *.
  destruct (pollTenantAndCreateIndex_build_run tenantID previous w1) as [-> Hevs].
  rewrite Hevs in Hin. clear Hevs.
  destruct Hin as [Heq|Hin]; [discriminate|].
  apply in_app_or in Hin as [Hin|Hin].
  { destruct (pollTenantBlocks_evs tenantID previous w1) as (tail & Heq & Hfp).
    rewrite Heq in Hin. destruct Hin as [Hin|Hin]; [discriminate|].
    rewrite Forall_forall in Hfp. apply list_elem_of_In, Hfp in Hin.
    destruct Hin. }
  destruct (val (pollTenantBlocks cfg tenantID previous w1)) as [[l0 c0] [e|]]
    eqn:Hpoll; cbn [fst snd] in *; [destruct Hin|].
  set (w2 := wld (pollTenantBlocks cfg tenantID previous w1)) in *.
  assert (Hnot : ~ In (EvCall (CallWriteTenantIndex t l c))
                      (match (WriteTenantIndex tenantID l0 c0 w2).1 with
                       | Some e => [EvMetric (TenantIndexErrorsInc tenantID);
                                    EvLog (LogFailedToWriteIndex tenantID e)]
                       | None => []
                       end)).
  { destruct (WriteTenantIndex tenantID l0 c0 w2).1; cbn; intuition discriminate. }
  destruct ((Z.of_nat (length l0) =? 0) && (Z.of_nat (length c0) =? 0)) eqn:Hempty.
  - apply andb_prop in Hempty as [Hl Hc].
    apply Z.eqb_eq in Hl, Hc.
    destruct l0; [|cbn in Hl; lia]. destruct c0; [|cbn in Hc; lia].
    assert (Hdel : ~ In (EvCall (CallWriteTenantIndex t l c))
                        (evs (deleteTenant cfg tenantID
                                (WriteTenantIndex tenantID [] [] w2).2))).
    { intros Hd. pose proof (deleteTenant_footprint tenantID
                               (WriteTenantIndex tenantID [] [] w2).2) as Hfp.
      rewrite Forall_forall in Hfp. apply list_elem_of_In, Hfp in Hd.
      destruct Hd. }
    destruct Hin as [[= <- <- <-]|Hin].
    + split; [reflexivity|].
      destruct (val (deleteTenant cfg tenantID _)) as [e|]; [right|left; reflexivity].
      split; [reflexivity|]. split; [reflexivity|]. eauto.
    + exfalso. apply in_app_or in Hin as [Hin|Hin]; [exact (Hnot Hin)|].
      apply in_app_or in Hin as [Hin|Hin]; [exact (Hdel Hin)|].
      destruct (val (deleteTenant cfg tenantID _)); cbn in Hin;
        intuition discriminate.
  - cbn [val evs fst snd app] in *.
    destruct Hin as [[= <- <- <-]|Hin]; [auto|].
    exfalso. apply in_app_or in Hin as [Hin|Hin]; [exact (Hnot Hin)|].
    cbn in Hin. intuition discriminate.
Qed.

(** X17.  [pollTenantAndCreateIndex] does not touch the objects of a tenant
    that has blocks: when it returns a block, the tenant's objects have been
    neither walked nor deleted. *)
Theorem pollTenantAndCreateIndex_spares_tenants_with_blocks :
  forall (tenantID : string) (previous : List) (w : W)
         (l : list backend.BlockMeta) (c : list backend.CompactedBlockMeta),
    val (pollTenantAndCreateIndex cfg tenantID previous w) = (l, c, None) ->
    l <> [] \/ c <> [] ->
    Forall (fun e => is_reaping e = false)
           (evs (pollTenantAndCreateIndex cfg tenantID previous w)).
Proof.
  intros tenantID previous w l c Hval Hblocks.
  destruct (pollTenantAndCreateIndex_run tenantID previous w) as [Hv ->].
  rewrite Hval in Hv. apply Forall_app. split.
  { eapply Forall_impl; [apply pollTenantAndCreateIndex_pull_footprint|].
    intros e He. apply (pulls_index_of_quiet tenantID e He). }
  destruct (val (pollTenantAndCreateIndex_pull cfg tenantID w)); [constructor|].
  set (w1 := wld (pollTenantAndCreateIndex_pull cfg tenantID w)) in *.
  destruct (pollTenantAndCreateIndex_build_run tenantID previous w1) as [Hb ->].
  rewrite <- Hv in Hb. clear Hv.
  constructor; [reflexivity|]. apply Forall_app. split.
  { destruct (pollTenantBlocks_evs tenantID previous w1) as (tail & -> & Hfp).
    constructor; [reflexivity|].
    eapply Forall_impl; [exact Hfp|].
    intros e He. apply (reads_blocks_of_quiet tenantID e He). }
  destruct (val (pollTenantBlocks cfg tenantID previous w1)) as [[l0 c0] [e|]];
    cbn [fst snd] in *; [constructor|].
  destruct ((Z.of_nat (length l0) =? 0) && (Z.of_nat (length c0) =? 0)) eqn:Hempty.
  { exfalso. apply andb_prop in Hempty as [Hl Hc]. apply Z.eqb_eq in Hl, Hc.
    destruct l0; [|cbn in Hl; lia]. destruct c0; [|cbn in Hc; lia].
    destruct (val (deleteTenant cfg tenantID _)); [discriminate|].
    injection Hb as -> ->. destruct Hblocks; congruence. }
  cbn [val evs fst snd app].
  constructor; [reflexivity|]. apply Forall_app. split.
  - destruct (WriteTenantIndex tenantID l0 c0 _).1; repeat constructor.
  - repeat constructor.
Qed.

(** ** The footprint of a poll *)

Lemma pulls_index_of_poll_event T e : pulls_index_of T e -> poll_event T e.
Proof.
  destruct e as [[]|[]|[]]; cbn; intros H;
    solve [exact H|subst; reflexivity|destruct H].
Qed.

Lemma reads_blocks_of_poll_event T e : reads_blocks_of T e -> poll_event T e.
Proof.
  destruct e as [[]|[]|[]]; cbn; intros H;
    solve [exact H|subst; reflexivity|destruct H].
Qed.

Lemma reaps_poll_event T e : reaps T e -> poll_event T e.
Proof.
  destruct e as [[]|[]|[]]; cbn; intros H;
    solve [exact H|subst; reflexivity|destruct H].
Qed.

Lemma pollTenantAndCreateIndex_footprint tenantID previous :
  emits (poll_event tenantID) (pollTenantAndCreateIndex cfg tenantID previous).
Proof.
  intros w. destruct (pollTenantAndCreateIndex_run tenantID previous w) as [_ ->].
  apply Forall_app. split.
  { eapply Forall_impl; [apply pollTenantAndCreateIndex_pull_footprint|].
    intros e. apply pulls_index_of_poll_event. }
  destruct (val (pollTenantAndCreateIndex_pull cfg tenantID w)); [constructor|].
  set (w1 := wld (pollTenantAndCreateIndex_pull cfg tenantID w)).
  destruct (pollTenantAndCreateIndex_build_run tenantID previous w1) as [_ ->].
  constructor; [reflexivity|]. apply Forall_app. split.
  { destruct (pollTenantBlocks_evs tenantID previous w1) as (tail & -> & Hfp).
    constructor; [reflexivity|].
    eapply Forall_impl; [exact Hfp|].
    intros e. apply reads_blocks_of_poll_event. }
  destruct (val (pollTenantBlocks cfg tenantID previous w1)).2; [constructor|].
  constructor; [reflexivity|]. apply Forall_app. split.
  { destruct (WriteTenantIndex tenantID _ _ _).1; repeat constructor. }
  apply Forall_app. split.
  - destruct (_ && _); [|constructor].
    eapply Forall_impl; [apply deleteTenant_footprint|].
    intros e. apply reaps_poll_event.
  - destruct (val _); repeat constructor.
Qed.

Lemma Do_retry_emits P tenantID previous n cur :
  emits P (pollTenantAndCreateIndex cfg tenantID previous) ->
  emits P (Do_retry cfg tenantID previous n cur).
Proof.
  intros H. revert cur. induction n as [|n IH]; intros cur; cbn [Do_retry];
    [apply emits_ret|].
  apply emits_bind; [exact H|]. intros r.
  destruct r.2; [apply IH|apply emits_ret].
Qed.

Lemma Do_poll_footprint tenantID previous :
  emits (poll_event tenantID) (Do_poll cfg tenantID previous).
Proof. apply Do_retry_emits, pollTenantAndCreateIndex_footprint. Qed.

(** The goroutine of a tenant: the poll, then the notes. *)
Lemma Do_func_evs tenantID previous st w :
  exists tail,
    evs (Do_func cfg tenantID previous st w)
    = evs (Do_poll cfg tenantID previous w) ++ tail
    /\ Forall (tenant_note tenantID) tail
    /\ count is_failure tail
       = match (val (Do_poll cfg tenantID previous w)).2 with
         | Some _ => 1%nat
         | None => 0%nat
         end.
Proof.
  unfold Do_func. rewrite bind_evs.
  destruct (val (Do_poll cfg tenantID previous w)) as [[l c] [e|]]; cbn [fst snd].
  - eexists. split; [reflexivity|]. split; [repeat constructor|reflexivity].
  - destruct ((0 <? Z.of_nat (length l)) || (0 <? Z.of_nat (length c)));
      (eexists; split; [reflexivity|]; split; [repeat constructor|reflexivity]).
Qed.

Lemma Do_func_emits P tenantID previous st w :
  Forall P (evs (Do_poll cfg tenantID previous w)) ->
  (forall e, tenant_note tenantID e -> P e) ->
  Forall P (evs (Do_func cfg tenantID previous st w)).
Proof.
  intros Hpoll Hnote.
  destruct (Do_func_evs tenantID previous st w) as (tail & -> & Htail & _).
  apply Forall_app. split; [exact Hpoll|].
  eapply Forall_impl; [exact Htail|exact Hnote].
Qed.

Lemma Do_range_emits P previous tenants st w :
  P (EvLog LogExitingEarly) ->
  (forall T, T ∈ tenants ->
     forall st' w', Forall P (evs (Do_func cfg T previous st' w'))) ->
  Forall P (evs (Do_range cfg previous tenants st w)).
Proof.
  intros Hearly. revert st w.
  induction tenants as [|T rest IH]; intros st w Hfunc; [constructor|].
  rewrite Do_range_cons.
  destruct (ctxErr w).1; [constructor|].
  destruct (tenantFailuresRemaining st <? 0); [repeat constructor; exact Hearly|].
  cbv zeta. cbn [evs snd]. apply Forall_app. split.
  - apply Hfunc. left.
  - apply IH. intros T' HT'. apply Hfunc. right. exact HT'.
Qed.

(** The events of [Do]: the listing of the tenants, then either the count
    of the failure, or the loop and, after a cycle that succeeds, the
    duration. *)
Lemma Do_evs previous w :
  let listed := Tenants (Now w).2 in
  let r := Do_range cfg previous listed.1.1 (Do_start cfg) listed.2 in
  evs (Do cfg previous w)
  = EvCall CallTenants
    :: match listed.1.2 with
       | Some _ => [EvMetric (BlocklistErrorsInc "")]
       | None =>
           evs r
           ++ match (val r).2 with
              | Some _ => []
              | None =>
                  if tenantFailuresRemaining (val r).1 <? 0 then []
                  else [EvMetric (BlocklistPollDurationObserve
                                    (val (time_Since (Now w).1 (wld r))))]
              end
       end.
Proof.
  cbv zeta. unfold Do. rewrite bind_evs.
  destruct (Now w) as [start w0] eqn:Hnow. rewrite (ask_eq _ _ _ _ Hnow).
  cbn [val wld evs fst snd app]. rewrite bind_evs.
  destruct (Tenants w0) as [[ts err] w1] eqn:Hten.
  rewrite (call_eq _ _ _ _ _ Hten). cbn [val wld evs fst snd app].
  destruct err as [e|]; [reflexivity|].
  rewrite bind_evs.
  set (r := Do_range cfg previous ts (Do_start cfg) w1).
  destruct (val r) as [st cerr]. destruct cerr as [e|]; [reflexivity|].
  cbn [fst snd]. destruct (tenantFailuresRemaining st <? 0); [reflexivity|].
  rewrite bind_evs, time_Since_silent, bind_evs. reflexivity.
Qed.

Lemma Do_emits P previous w :
  (forall e, cycle_event e -> P e) ->
  (forall T, T ∈ (Tenants (Now w).2).1.1 ->
     forall st' w', Forall P (evs (Do_func cfg T previous st' w'))) ->
  Forall P (evs (Do cfg previous w)).
Proof.
  intros Hcycle Hfunc. rewrite Do_evs. cbv zeta.
  constructor; [apply Hcycle; exact I|].
  destruct (Tenants (Now w).2).1.2.
  { repeat constructor. apply Hcycle. exact I. }
  apply Forall_app. split.
  - apply Do_range_emits; [apply Hcycle; exact I|exact Hfunc].
  - destruct (val _).2; [constructor|].
    destruct (_ <? 0); repeat constructor. apply Hcycle. exact I.
Qed.

(** Every event of [Do] is its own or belongs to the poll of a tenant that
    the store has listed. *)
Lemma Do_footprint previous w :
  Forall (cycle_over (Tenants (Now w).2).1.1) (evs (Do cfg previous w)).
Proof.
  apply Do_emits.
  - intros e He. left. exact He.
  - intros T HT st' w'. apply Do_func_emits.
    + eapply Forall_impl; [apply Do_poll_footprint|].
      intros e He. right. exists T. auto.
    + intros e He. right. exists T. auto.
Qed.

(** ** [Do] *)

(** X18.  When the tenants cannot be listed, [Do] returns the error of the
    listing and nil maps: it counts the failure and polls nothing. *)
Theorem Do_gives_up_when_the_tenants_cannot_be_listed :
  forall (previous : List) (w w1 : W) (tenants : list string) (e : error),
    Tenants (Now w).2 = ((tenants, Some e), w1) ->
    val (Do cfg previous w) = (None, None, Some e)
    /\ evs (Do cfg previous w)
       = [EvCall CallTenants; EvMetric (BlocklistErrorsInc "")].
Proof.
  intros previous w w1 tenants e Hten.
  pose proof (Do_run cfg previous w) as Hrun. cbv zeta in Hrun.
  rewrite Do_evs. cbv zeta. rewrite Hten in Hrun |- *. cbn [fst snd] in *.
  destruct Hrun as [Hval _]. split; [exact Hval|reflexivity].
Qed.

(** X19.  [Do] returns either both maps and no error, or an error and no
    map. *)
Theorem Do_returns_maps_or_an_error :
  forall (previous : List) (w : W), maps_or_error (val (Do cfg previous w)).
Proof.
  intros previous w. pose proof (Do_run cfg previous w) as Hrun.
  cbv zeta in Hrun.
  destruct (Tenants (Now w).2).1.2; destruct Hrun as [-> _]; [exact I|].
  destruct (val (Do_range _ _ _ _ _)).2; [exact I|].
  destruct (_ <? 0); exact I.
Qed.

Lemma Do_func_keys tenantID previous st w T :
  (blocklist st !! T = None <-> compactedBlocklist st !! T = None) ->
  blocklist (val (Do_func cfg tenantID previous st w)) !! T = None
  <-> compactedBlocklist (val (Do_func cfg tenantID previous st w)) !! T = None.
Proof.
  intros Hst.
  destruct (val (Do_poll cfg tenantID previous w)).2 as [e|] eqn:Herr.
  - destruct (Do_func_failed cfg tenantID previous st w e Herr) as [-> _].
    cbn [blocklist compactedBlocklist].
    destruct (decide (tenantID = T)) as [->|Hne].
    + rewrite !lookup_insert_eq. split; discriminate.
    + rewrite !lookup_insert_ne by assumption. exact Hst.
  - pose proof (Do_func_succeeded cfg tenantID previous st w Herr) as Hs.
    cbv zeta in Hs. destruct (_ || _); destruct Hs as [-> _]; [|exact Hst].
    cbn [blocklist compactedBlocklist].
    destruct (decide (tenantID = T)) as [->|Hne].
    + rewrite !lookup_insert_eq. split; discriminate.
    + rewrite !lookup_insert_ne by assumption. exact Hst.
Qed.

Lemma Do_range_keys previous tenants st w T :
  (blocklist st !! T = None <-> compactedBlocklist st !! T = None) ->
  blocklist (val (Do_range cfg previous tenants st w)).1 !! T = None
  <-> compactedBlocklist (val (Do_range cfg previous tenants st w)).1 !! T
      = None.
Proof.
  revert st w. induction tenants as [|t rest IH]; intros st w Hst; [exact Hst|].
  rewrite Do_range_cons.
  destruct (ctxErr w).1; [exact Hst|].
  destruct (tenantFailuresRemaining st <? 0); [exact Hst|].
  cbv zeta. cbn [val fst]. apply IH, Do_func_keys, Hst.
Qed.

(** X20.  The two maps that [Do] returns have the same tenants, and these
    are tenants of the store's listing: a tenant that is no longer listed
    has no entry, whatever the previous list holds for it. *)
Theorem Do_maps_have_the_same_listed_tenants :
  forall (previous : List) (w : W) (bl : PerTenant) (cbl : PerTenantCompacted)
         (T : string),
    val (Do cfg previous w) = (Some bl, Some cbl, None) ->
    (is_Some (bl !! T) <-> is_Some (cbl !! T))
    /\ (is_Some (bl !! T) -> T ∈ (Tenants (Now w).2).1.1).
Proof.
  intros previous w bl cbl T Hval.
  pose proof (Do_run cfg previous w) as Hrun. cbv zeta in Hrun.
  set (tenants := (Tenants (Now w).2).1.1) in *.
  set (r := Do_range cfg previous tenants (Do_start cfg) (Tenants (Now w).2).2)
    in *.
  destruct (Tenants (Now w).2).1.2; destruct Hrun as [Hv _];
    rewrite Hval in Hv; [discriminate|].
  destruct (val r).2; [discriminate|].
  destruct (_ <? 0); [discriminate|]. injection Hv as -> ->.
  split.
  - rewrite <- !not_eq_None_Some.
    pose proof (Do_range_keys previous tenants (Do_start cfg)
                  (Tenants (Now w).2).2 T) as Hk.
    fold r in Hk. cbn [Do_start blocklist compactedBlocklist] in Hk.
    rewrite !lookup_empty in Hk. specialize (Hk ltac:(tauto)). tauto.
  - intros Hsome. destruct (decide (T ∈ tenants)) as [HT|HT]; [exact HT|].
    destruct (Do_range_other cfg previous tenants (Do_start cfg)
                (Tenants (Now w).2).2 T HT) as (Hb & _).
    fold r in Hb. rewrite Hb in Hsome. cbn in Hsome.
    rewrite lookup_empty in Hsome. destruct Hsome. discriminate.
Qed.

(** X21.  When the context is cancelled on entry to the loop, [Do] returns
    the error of the context and polls no tenant. *)
Theorem Do_stops_when_cancelled :
  forall (previous : List) (w w1 : W) (T : string) (rest : list string)
         (e : error),
    Tenants (Now w).2 = ((T :: rest, None), w1) ->
    (ctxErr w1).1 = Some e ->
    val (Do cfg previous w) = (None, None, Some e)
    /\ evs (Do cfg previous w) = [EvCall CallTenants].
Proof.
  intros previous w w1 T rest e Hten Hctx.
  pose proof (Do_run cfg previous w) as Hrun. cbv zeta in Hrun.
  rewrite Do_evs. cbv zeta. rewrite Hten in Hrun |- *. cbn [fst snd] in *.
  rewrite Do_range_cons, Hctx in Hrun |- *. cbn [val evs fst snd app] in *.
  destruct Hrun as [Hval _]. split; [exact Hval|reflexivity].
Qed.

(** *** Tolerances *)

Lemma Do_poll_idle tenantID previous w :
  TolerateConsecutiveErrors cfg < 0 ->
  Do_poll cfg tenantID previous w = (([], [], None), w, []).
Proof.
  intros Hneg. unfold Do_poll.
  replace (Z.to_nat (TolerateConsecutiveErrors cfg + 1)) with O by lia.
  reflexivity.
Qed.

Lemma Do_range_idle previous tenants st w :
  (forall T w', val (Do_poll cfg T previous w') = ([], [], None)) ->
  (val (Do_range cfg previous tenants st w)).1 = st.
Proof.
  intros Hidle. revert w. induction tenants as [|T rest IH]; intros w;
    [reflexivity|].
  rewrite Do_range_cons.
  destruct (ctxErr w).1; [reflexivity|].
  destruct (tenantFailuresRemaining st <? 0); [reflexivity|].
  cbv zeta. cbn [val fst].
  pose proof (Do_func_succeeded cfg T previous st (ctxErr w).2) as Hs.
  rewrite Hidle in Hs. destruct (Hs eq_refl) as [-> _]. apply IH.
Qed.

(** X22.  With a negative [TolerateConsecutiveErrors] the retry loop of a
    tenant is not entered: [Do] lists the tenants and calls nothing else,
    and the maps of a cycle that succeeds are empty. *)
Theorem Do_polls_nothing_with_a_negative_retry_tolerance :
  forall (previous : List) (w : W),
    TolerateConsecutiveErrors cfg < 0 ->
    Forall (fun e => forall c, e = EvCall c -> c = CallTenants)
           (evs (Do cfg previous w))
    /\ forall (bl : PerTenant) (cbl : PerTenantCompacted),
         val (Do cfg previous w) = (Some bl, Some cbl, None) ->
         bl = ∅ /\ cbl = ∅.
Proof.
  intros previous w Hneg. split.
  - apply Do_emits.
    + intros [[]|[]|[]] He c [= <-]; solve [reflexivity|destruct He].
    + intros T _ st' w'. apply Do_func_emits.
      * rewrite (Do_poll_idle T previous w' Hneg). constructor.
      * intros [[]|[]|[]] He c Hc; solve [discriminate|destruct He].
  - intros bl cbl Hval.
    pose proof (Do_run cfg previous w) as Hrun. cbv zeta in Hrun.
    destruct (Tenants (Now w).2).1.2; destruct Hrun as [Hv _];
      rewrite Hval in Hv; [discriminate|].
    rewrite Do_range_idle in Hv.
    2:{ intros T w'. rewrite (Do_poll_idle T previous w' Hneg). reflexivity. }
    destruct (val _).2; [discriminate|].
    destruct (_ <? 0); [discriminate|]. injection Hv as -> ->.
    split; reflexivity.
Qed.

Lemma Do_range_exhausted previous tenants st w :
  tenantFailuresRemaining st < 0 ->
  (val (Do_range cfg previous tenants st w)).1 = st
  /\ Forall cycle_event (evs (Do_range cfg previous tenants st w)).
Proof.
  intros Hneg. destruct tenants as [|T rest]; [split; [reflexivity|constructor]|].
  rewrite Do_range_cons.
  destruct (ctxErr w).1; [split; [reflexivity|constructor]|].
  apply Z.ltb_lt in Hneg. rewrite Hneg.
  split; [reflexivity|repeat constructor].
Qed.

Lemma wrap_int32_id z : - 2 ^ 31 <= z < 2 ^ 31 -> wrap_int32 z = z.
Proof. intros Hz. unfold wrap_int32. rewrite Z.mod_small; lia. Qed.

(** X23.  With a negative [TolerateTenantFailures] no cycle succeeds: [Do]
    returns an error, and has polled no tenant. *)
Theorem Do_fails_with_a_negative_failure_tolerance :
  forall (previous : List) (w : W),
    - 2 ^ 31 <= TolerateTenantFailures cfg < 0 ->
    (exists e, val (Do cfg previous w) = (None, None, Some e))
    /\ Forall cycle_event (evs (Do cfg previous w)).
Proof.
  intros previous w Hneg.
  pose proof (Do_run cfg previous w) as Hrun. cbv zeta in Hrun.
  rewrite Do_evs. cbv zeta.
  destruct (Do_range_exhausted previous (Tenants (Now w).2).1.1 (Do_start cfg)
              (Tenants (Now w).2).2) as [Hst Hev].
  { cbn. rewrite wrap_int32_id by lia. lia. }
  assert (Hlt : (tenantFailuresRemaining (Do_start cfg) <? 0) = true).
  { apply Z.ltb_lt. cbn. rewrite wrap_int32_id by lia. lia. }
  rewrite Hst, Hlt in Hrun |- *.
  destruct (Tenants (Now w).2).1.2; destruct Hrun as [-> _].
  { split; [eauto|repeat constructor]. }
  split.
  - destruct (val _).2; eauto.
  - constructor; [exact I|]. apply Forall_app. split; [exact Hev|].
    destruct (val _).2; constructor.
Qed.

(** *** Counting *)

Lemma count_app f l k : count f (l ++ k) = (count f l + count f k)%nat.
Proof. unfold count. rewrite List.filter_app, length_app. reflexivity. Qed.

Lemma count_none f l : Forall (fun e => f e = false) l -> count f l = O.
Proof.
  unfold count. induction 1 as [|e l He _ IH]; [reflexivity|].
  cbn. rewrite He. exact IH.
Qed.

Lemma poll_event_kinds T e :
  poll_event T e -> is_failure e = false /\ e <> EvLog LogExitingEarly.
Proof.
  destruct e as [[]|[]|[]]; cbn; intros H;
    solve [split; [reflexivity|discriminate]|destruct H].
Qed.

Lemma tenant_note_kinds T e :
  tenant_note T e ->
  is_listing e = false /\ is_reaping e = false /\ follower_call e = true
  /\ e <> EvLog LogExitingEarly.
Proof.
  destruct e as [[]|[]|[]]; cbn; intros H;
    solve [repeat split; solve [reflexivity|discriminate]|destruct H].
Qed.

Lemma Do_func_failures tenantID previous st w :
  count is_failure (evs (Do_func cfg tenantID previous st w))
  = match (val (Do_poll cfg tenantID previous w)).2 with
    | Some _ => 1%nat
    | None => O
    end.
Proof.
  destruct (Do_func_evs tenantID previous st w) as (tail & -> & _ & Hcount).
  rewrite count_app, Hcount, count_none; [reflexivity|].
  eapply Forall_impl; [apply Do_poll_footprint|].
  intros e He. apply (poll_event_kinds tenantID e He).
Qed.

Lemma Do_range_failures previous tenants st w :
  - 1 <= tenantFailuresRemaining st < 2 ^ 31 ->
  tenantFailuresRemaining (val (Do_range cfg previous tenants st w)).1
  = tenantFailuresRemaining st
    - Z.of_nat (count is_failure (evs (Do_range cfg previous tenants st w))).
Proof.
  revert st w. induction tenants as [|T rest IH]; intros st w Hst.
  - cbn. lia.
  - rewrite Do_range_cons.
    destruct (ctxErr w).1; [cbn; lia|].
    destruct (tenantFailuresRemaining st <? 0) eqn:Hneg; [cbn; lia|].
    apply Z.ltb_ge in Hneg. cbv zeta. cbn [val evs fst snd].
    rewrite count_app, IH.
    + rewrite Do_func_counter, Do_func_failures.
      destruct (val (Do_poll cfg T previous (ctxErr w).2)).2.
      * rewrite wrap_int32_pred by lia. lia.
      * lia.
    + rewrite Do_func_counter.
      destruct (val (Do_poll cfg T previous (ctxErr w).2)).2; [|lia].
      rewrite wrap_int32_pred by lia. lia.
Qed.

(** X24.  A cycle that succeeds has seen no more failing tenants than
    [TolerateTenantFailures]. *)
Theorem Do_succeeds_within_the_failure_tolerance :
  forall (previous : List) (w : W) (bl : PerTenant) (cbl : PerTenantCompacted),
    0 <= TolerateTenantFailures cfg < 2 ^ 31 ->
    val (Do cfg previous w) = (Some bl, Some cbl, None) ->
    Z.of_nat (count is_failure (evs (Do cfg previous w)))
    <= TolerateTenantFailures cfg.
Proof.
  intros previous w bl cbl Htol Hval.
  pose proof (Do_run cfg previous w) as Hrun. cbv zeta in Hrun.
  rewrite Do_evs. cbv zeta.
  destruct (Tenants (Now w).2).1.2; destruct Hrun as [Hv _];
    rewrite Hval in Hv; [discriminate|].
  pose proof (Do_range_failures previous (Tenants (Now w).2).1.1 (Do_start cfg)
                (Tenants (Now w).2).2) as Hbudget.
  cbn [Do_start tenantFailuresRemaining] in Hbudget.
  rewrite wrap_int32_id in Hbudget by lia. specialize (Hbudget ltac:(lia)).
  destruct (val _).2; [discriminate|].
  destruct (_ <? 0) eqn:Hneg; [discriminate|]. apply Z.ltb_ge in Hneg.
  change (EvCall CallTenants :: ?l) with ([EvCall CallTenants] ++ l).
  rewrite !count_app. cbn [count List.filter is_failure length].
  lia.
Qed.

Lemma pollTenantAndCreateIndex_lists_once tenantID previous w :
  (count is_listing (evs (pollTenantAndCreateIndex cfg tenantID previous w))
   <= 1)%nat.
Proof.
  destruct (pollTenantAndCreateIndex_run tenantID previous w) as [_ ->].
  rewrite count_app, count_none.
  2:{ eapply Forall_impl; [apply pollTenantAndCreateIndex_pull_footprint|].
      intros e He. apply (pulls_index_of_quiet tenantID e He). }
  destruct (val (pollTenantAndCreateIndex_pull cfg tenantID w)); [cbn; lia|].
  set (w1 := wld (pollTenantAndCreateIndex_pull cfg tenantID w)).
  destruct (pollTenantAndCreateIndex_build_run tenantID previous w1) as [_ ->].
  destruct (pollTenantBlocks_evs tenantID previous w1) as (tail & -> & Hfp).
  change (?a :: (?b :: tail) ++ ?r) with ([a; b] ++ tail ++ r).
  rewrite !count_app, (count_none _ tail).
  2:{ eapply Forall_impl; [exact Hfp|].
      intros e He. apply (reads_blocks_of_quiet tenantID e He). }
  match goal with
  | |- context [count is_listing (match ?x with Some _ => [] | None => ?k end)] =>
      rewrite (count_none is_listing (match x with Some _ => [] | None => k end));
        [cbn; lia|]
  end.
  destruct (val (pollTenantBlocks cfg tenantID previous w1)).2; [constructor|].
  constructor; [reflexivity|]. apply Forall_app. split.
  { destruct (WriteTenantIndex tenantID _ _ _).1; repeat constructor. }
  apply Forall_app. split.
  - destruct (_ && _); [|constructor].
    eapply Forall_impl; [apply deleteTenant_footprint|].
    intros [[]|[]|[]] He; solve [reflexivity|destruct He].
  - destruct (val _); repeat constructor.
Qed.

Lemma Do_retry_lists tenantID previous n cur w :
  (count is_listing (evs (Do_retry cfg tenantID previous n cur w)) <= n)%nat.
Proof.
  revert cur w. induction n as [|n IH]; intros cur w; [cbn; lia|].
  cbn [Do_retry]. rewrite bind_evs, count_app.
  pose proof (pollTenantAndCreateIndex_lists_once tenantID previous w) as H1.
  destruct (val (pollTenantAndCreateIndex cfg tenantID previous w)).2.
  - specialize (IH (val (pollTenantAndCreateIndex cfg tenantID previous w))
                   (wld (pollTenantAndCreateIndex cfg tenantID previous w))).
    lia.
  - cbn. lia.
Qed.

Lemma Do_range_lists previous tenants st w :
  (count is_listing (evs (Do_range cfg previous tenants st w))
   <= length tenants * Z.to_nat (TolerateConsecutiveErrors cfg + 1))%nat.
Proof.
  revert st w. induction tenants as [|T rest IH]; intros st w; [cbn; lia|].
  rewrite Do_range_cons.
  destruct (ctxErr w).1; [cbn; lia|].
  destruct (tenantFailuresRemaining st <? 0); [cbn; lia|].
  cbv zeta. cbn [evs snd]. rewrite count_app.
  destruct (Do_func_evs T previous st (ctxErr w).2) as (tail & -> & Hnote & _).
  rewrite count_app, (count_none _ tail).
  2:{ eapply Forall_impl; [exact Hnote|].
      intros e He. apply (tenant_note_kinds T e He). }
  pose proof (Do_retry_lists T previous
                (Z.to_nat (TolerateConsecutiveErrors cfg + 1)) ([], [], None)
                (ctxErr w).2) as Hretry.
  fold (Do_poll cfg T previous) in Hretry.
  match goal with
  | |- context [Do_range cfg previous rest ?s ?v] => specialize (IH s v)
  end.
  cbn [length]. lia.
Qed.

(** X25.  In one cycle, [Do] lists the blocks of the store at most
    [TolerateConsecutiveErrors + 1] times for each tenant of the listing. *)
Theorem Do_lists_blocks_a_bounded_number_of_times :
  forall (previous : List) (w : W),
    (count is_listing (evs (Do cfg previous w))
     <= length (Tenants (Now w).2).1.1
        * Z.to_nat (TolerateConsecutiveErrors cfg + 1))%nat.
Proof.
  intros previous w. rewrite Do_evs. cbv zeta.
  change (EvCall CallTenants :: ?l) with ([EvCall CallTenants] ++ l).
  rewrite count_app. cbn [count List.filter is_listing length].
  destruct (Tenants (Now w).2).1.2; [cbn; lia|].
  rewrite count_app.
  pose proof (Do_range_lists previous (Tenants (Now w).2).1.1 (Do_start cfg)
                (Tenants (Now w).2).2) as Hrange.
  rewrite (count_none _ (match _ with Some _ => [] | None => _ end)); [lia|].
  destruct (val _).2; [constructor|]. destruct (_ <? 0); repeat constructor.
Qed.

(** *** What a cycle leaves alone *)

Lemma pollTenantAndCreateIndex_does_not_reap tenantID previous w :
  EmptyTenantDeletionEnabled cfg = false ->
  Forall (fun e => is_reaping e = false)
         (evs (pollTenantAndCreateIndex cfg tenantID previous w)).
Proof.
  intros Hoff.
  destruct (pollTenantAndCreateIndex_run tenantID previous w) as [_ ->].
  apply Forall_app. split.
  { eapply Forall_impl; [apply pollTenantAndCreateIndex_pull_footprint|].
    intros e He. apply (pulls_index_of_quiet tenantID e He). }
  destruct (val (pollTenantAndCreateIndex_pull cfg tenantID w)); [constructor|].
  set (w1 := wld (pollTenantAndCreateIndex_pull cfg tenantID w)).
  destruct (pollTenantAndCreateIndex_build_run tenantID previous w1) as [_ ->].
  constructor; [reflexivity|]. apply Forall_app. split.
  { destruct (pollTenantBlocks_evs tenantID previous w1) as (tail & -> & Hfp).
    constructor; [reflexivity|].
    eapply Forall_impl; [exact Hfp|].
    intros e He. apply (reads_blocks_of_quiet tenantID e He). }
  destruct (val (pollTenantBlocks cfg tenantID previous w1)).2; [constructor|].
  constructor; [reflexivity|]. apply Forall_app. split.
  { destruct (WriteTenantIndex tenantID _ _ _).1; repeat constructor. }
  unfold deleteTenant. rewrite Hoff. cbn [negb].
  destruct (_ && _); cbn; repeat constructor.
Qed.

(** X26.  Unless [EmptyTenantDeletionEnabled] is set, a cycle neither walks
    nor deletes the objects of any tenant. *)
Theorem Do_deletes_nothing_unless_enabled :
  forall (previous : List) (w : W),
    EmptyTenantDeletionEnabled cfg = false ->
    Forall (fun e => is_reaping e = false) (evs (Do cfg previous w)).
Proof.
  intros previous w Hoff. apply Do_emits.
  - intros [[]|[]|[]] He; solve [reflexivity|destruct He].
  - intros T _ st' w'. apply Do_func_emits.
    + apply Do_retry_emits. intros w''.
      apply pollTenantAndCreateIndex_does_not_reap, Hoff.
    + intros e He. apply (tenant_note_kinds T e He).
Qed.

(** X27.  Whatever [Do] asks the store or the compactor about a tenant, or
    writes for one, it is a tenant of the listing of this cycle. *)
Theorem Do_touches_listed_tenants_only :
  forall (previous : List) (w : W),
    Forall (fun e => forall c t,
              e = EvCall c -> called_tenant c = Some t ->
              t ∈ (Tenants (Now w).2).1.1)
           (evs (Do cfg previous w)).
Proof.
  intros previous w.
  eapply Forall_impl; [apply Do_footprint|].
  intros e [He|(T & HT & [He|He])] c t -> Hc.
  - destruct c; solve [discriminate|destruct He].
  - destruct c; cbn in He, Hc; try discriminate; congruence.
  - destruct He.
Qed.

Lemma Do_follows previous w :
  PollFallback cfg = false ->
  (forall job w', (Owns job w').1 = false) ->
  Forall (fun e => follower_call e = true) (evs (Do cfg previous w)).
Proof.
  intros Hfb Hno. apply Do_emits.
  - intros [[]|[]|[]] He; solve [reflexivity|destruct He].
  - intros T _ st' w'. apply Do_func_emits.
    + apply Do_retry_emits. intros w''.
      apply pollTenantAndCreateIndex_follows; [exact Hfb|].
      apply tenantIndexBuilder_from_unowned, Hno.
    + intros e He. apply (tenant_note_kinds T e He).
Qed.

Lemma Do_range_early previous tenants st w :
  In (EvLog LogExitingEarly) (evs (Do_range cfg previous tenants st w)) ->
  (val (Do_range cfg previous tenants st w)).2 = None
  /\ tenantFailuresRemaining (val (Do_range cfg previous tenants st w)).1 < 0.
Proof.
  revert st w. induction tenants as [|T rest IH]; intros st w Hin;
    [destruct Hin|].
  rewrite Do_range_cons in Hin |- *.
  destruct (ctxErr w).1; [destruct Hin|].
  destruct (tenantFailuresRemaining st <? 0) eqn:Hneg.
  { apply Z.ltb_lt in Hneg. split; [reflexivity|exact Hneg]. }
  cbv zeta in Hin |- *. cbn [val evs fst snd] in Hin |- *.
  apply in_app_or in Hin as [Hin|Hin]; [exfalso|apply IH, Hin].
  destruct (Do_func_evs T previous st (ctxErr w).2) as (tail & Heq & Hnote & _).
  rewrite Heq in Hin. apply in_app_or in Hin as [Hin|Hin].
  - pose proof (Do_poll_footprint T previous (ctxErr w).2) as Hfp.
    rewrite Forall_forall in Hfp. apply list_elem_of_In, Hfp in Hin.
    destruct Hin.
  - rewrite Forall_forall in Hnote. apply list_elem_of_In, Hnote in Hin.
    destruct Hin.
Qed.

(** X28.  When [Do] leaves the loop early, over too many failing tenants,
    the cycle fails: the maps are nil and the error is "too many tenant
    failures". *)
Theorem Do_fails_after_exiting_early :
  forall (previous : List) (w : W),
    In (EvLog LogExitingEarly) (evs (Do cfg previous w)) ->
    val (Do cfg previous w) = (None, None, Some ErrTooManyTenantFailures).
Proof.
  intros previous w Hin.
  pose proof (Do_run cfg previous w) as Hrun. cbv zeta in Hrun.
  rewrite Do_evs in Hin. cbv zeta in Hin.
  destruct Hin as [Heq|Hin]; [discriminate|].
  destruct (Tenants (Now w).2).1.2; destruct Hrun as [-> _].
  { destruct Hin as [Heq|[]]. discriminate. }
  apply in_app_or in Hin as [Hin|Hin].
  - apply Do_range_early in Hin as [-> Hneg].
    apply Z.ltb_lt in Hneg. rewrite Hneg. reflexivity.
  - exfalso. destruct (val _).2; [destruct Hin|].
    destruct (_ <? 0); [destruct Hin|].
    destruct Hin as [Heq|[]]. discriminate.
Qed.

End Behaviour.

(** ** [OwnsNothingSharder] *)

Section OwnsNothing.

Context {W : Type}.
Context `{!Reader W, !Compactor W, !Writer W, !Runtime W}.
Variable cfg : PollerConfig.

(** X29.  With [OwnsNothingSharder] and no fallback, the poller is a
    follower and nothing else: in a cycle it lists the tenants, asks the
    sharder and pulls tenant indexes; it lists and reads no block, and
    writes and deletes nothing. *)
Theorem OwnsNothingSharder_makes_a_follower :
  forall (previous : List) (w : W),
    PollFallback cfg = false ->
    Forall (fun e => follower_call e = true)
           (evs (Do (JobSharder0 := ownsNothingSharder) cfg previous w)).
Proof.
  intros previous w Hfb.
  apply (Do_follows (JobSharder0 := ownsNothingSharder)); [exact Hfb|].
  intros job w'. reflexivity.
Qed.

End OwnsNothing.

(** * The cycle, tenant by tenant *)

Section Cycle.

Context {W : Type}.
Context `{!Reader W, !Compactor W, !Writer W, !JobSharder W, !Runtime W}.
Variable cfg : PollerConfig.

(** ** Attempts that all fail *)

Lemma Do_retry_all_fail T previous n cur w :
  every_attempt_fails cfg T previous n w ->
  n <> O \/ cur.2 <> None ->
  (val (Do_retry cfg T previous n cur w)).2 <> None.
Proof.
  revert cur w. induction n as [|n IH]; intros cur w Hall Hn.
  - destruct Hn as [Hn|Hn]; [congruence|exact Hn].
  - cbn [Do_retry]. rewrite bind_val. destruct Hall as [Hfail Hrest].
    destruct (val (pollTenantAndCreateIndex cfg T previous w)).2 eqn:Herr;
      [|congruence].
    apply IH; [exact Hrest|]. right. rewrite Herr. discriminate.
Qed.

Lemma Do_poll_all_fail T previous w :
  0 <= TolerateConsecutiveErrors cfg ->
  every_attempt_fails cfg T previous
    (Z.to_nat (TolerateConsecutiveErrors cfg + 1)) w ->
  exists e, (val (Do_poll cfg T previous w)).2 = Some e.
Proof.
  intros Htol Hall.
  pose proof (Do_retry_all_fail T previous _ ([], [], None) w Hall) as Hfail.
  fold (Do_poll cfg T previous) in Hfail.
  destruct (val (Do_poll cfg T previous w)).2 as [e|]; [eauto|].
  exfalso. apply Hfail; [|reflexivity]. left. lia.
Qed.

(** ** The loop in two parts *)

(** A loop whose counter is below zero at the start changes nothing. *)
Lemma Do_range_spent previous tenants st w :
  tenantFailuresRemaining st < 0 ->
  tenantFailuresRemaining (val (Do_range cfg previous tenants st w)).1 < 0.
Proof.
  intros Hneg.
  destruct (Do_range_exhausted cfg previous tenants st w Hneg) as [-> _].
  exact Hneg.
Qed.

(** A loop that gets through its first tenants [pre], the context alive
    and the counter not negative, goes on with the others from there. *)
Lemma Do_range_app previous pre rest st w :
  let r := Do_range cfg previous pre st w in
  let r' := Do_range cfg previous rest (val r).1 (wld r) in
  (val r).2 = None ->
  0 <= tenantFailuresRemaining (val r).1 ->
  Do_range cfg previous (pre ++ rest) st w = (val r', wld r', evs r ++ evs r').
Proof.
  revert st w. induction pre as [|t pre IH]; intros st w r r' Herr Hpos.
  - subst r r'. cbn. destruct (Do_range cfg previous rest st w) as [[? ?] ?].
    reflexivity.
  - subst r r'. cbn [app]. rewrite Do_range_cons.
    rewrite Do_range_cons in Herr, Hpos |- *.
    destruct (ctxErr w).1 as [cerr|]; [discriminate|].
    destruct (tenantFailuresRemaining st <? 0) eqn:Hneg;
      [cbn in Hpos; lia|].
    cbv zeta in Herr, Hpos |- *. cbn [val wld evs fst snd] in Herr, Hpos |- *.
    rewrite IH by assumption. cbn [val wld evs fst snd].
    rewrite app_assoc. reflexivity.
Qed.

(** A loop that gets through all its tenants has got through the first
    ones. *)
Lemma Do_range_prefix previous pre rest st w :
  (val (Do_range cfg previous (pre ++ rest) st w)).2 = None ->
  0 <= tenantFailuresRemaining
         (val (Do_range cfg previous (pre ++ rest) st w)).1 ->
  (val (Do_range cfg previous pre st w)).2 = None
  /\ 0 <= tenantFailuresRemaining (val (Do_range cfg previous pre st w)).1.
Proof.
  revert st w. induction pre as [|t pre IH]; intros st w Herr Hpos.
  - split; [reflexivity|]. cbn in Herr, Hpos |- *.
    destruct (Z_lt_dec (tenantFailuresRemaining st) 0) as [Hneg|]; [|lia].
    pose proof (Do_range_spent previous rest st w Hneg). lia.
  - cbn [app] in Herr, Hpos. rewrite Do_range_cons in Herr, Hpos |- *.
    destruct (ctxErr w).1 as [cerr|]; [discriminate|].
    destruct (tenantFailuresRemaining st <? 0) eqn:Hneg;
      [cbn in Hpos; lia|].
    cbv zeta in Herr, Hpos |- *. cbn [val wld evs fst snd] in Herr, Hpos |- *.
    apply IH; assumption.
Qed.

(** The loop over one more tenant than [pre]. *)
Lemma Do_range_snoc previous pre T st w :
  let r := Do_range cfg previous pre st w in
  (val r).2 = None ->
  0 <= tenantFailuresRemaining (val r).1 ->
  (ctxErr (wld r)).1 = None ->
  (val (Do_range cfg previous (pre ++ [T]) st w)).1
  = val (Do_func cfg T previous (val r).1 (ctxErr (wld r)).2).
Proof.
  intros r Herr Hpos Hctx.
  rewrite Do_range_app by assumption. fold r. cbn [val fst snd].
  rewrite Do_range_cons, Hctx.
  replace (tenantFailuresRemaining (val r).1 <? 0) with false by lia.
  reflexivity.
Qed.

(** ** A cycle that succeeds, seen from one tenant of the listing *)

Lemma Do_split previous w pre T post bl cbl :
  (Tenants (Now w).2).1.1 = pre ++ T :: post ->
  val (Do cfg previous w) = (Some bl, Some cbl, None) ->
  let before := (val (Do_upto cfg previous w pre)).1 in
  let task := Do_func cfg T previous before (Do_world_after cfg previous w pre) in
  let r := Do_range cfg previous post (val task) (wld task) in
  0 <= tenantFailuresRemaining before < 2 ^ 31
  /\ bl = blocklist (val r).1
  /\ cbl = compactedBlocklist (val r).1
  /\ (val (Do_upto cfg previous w (pre ++ [T]))).1 = val task.
Proof.
  intros Hlist Hval before task r.
  pose proof (Do_run cfg previous w) as Hrun. cbv zeta in Hrun.
  rewrite Hlist in Hrun.
  destruct (Tenants (Now w).2).1.2 as [terr|] eqn:Hterr.
  { destruct Hrun as [Hrun _]. congruence. }
  destruct Hrun as [Hrun _]. rewrite Hval in Hrun.
  set (R := Do_range cfg previous (pre ++ T :: post) (Do_start cfg)
                     (Tenants (Now w).2).2) in *.
  destruct (val R).2 as [cerr|] eqn:Herr; [discriminate|].
  destruct (tenantFailuresRemaining (val R).1 <? 0) eqn:Hneg; [discriminate|].
  injection Hrun as -> ->.
  assert (Hpos : 0 <= tenantFailuresRemaining (val R).1) by lia.
  destruct (Do_range_prefix previous pre (T :: post) (Do_start cfg)
              (Tenants (Now w).2).2 Herr Hpos) as [Herr' Hpos'].
  fold (Do_upto cfg previous w pre) in Herr', Hpos'.
  pose proof (Do_range_app previous pre (T :: post) (Do_start cfg)
                (Tenants (Now w).2).2 Herr' Hpos') as Happ.
  cbv zeta in Happ. fold R in Happ. fold (Do_upto cfg previous w pre) in Happ.
  fold before in Happ, Hpos'.
  rewrite Do_range_cons in Happ.
  destruct (ctxErr (wld (Do_upto cfg previous w pre))).1 as [cerr|] eqn:Hctx.
  { rewrite Happ in Herr. discriminate. }
  replace (tenantFailuresRemaining before <? 0) with false in Happ by lia.
  cbv zeta in Happ. cbn [val wld evs fst snd] in Happ.
  fold (Do_world_after cfg previous w pre) in Happ. fold task in Happ.
  fold r in Happ.
  assert (Hstart : - 1 <= tenantFailuresRemaining (Do_start cfg) < 2 ^ 31).
  { pose proof (wrap_int32_range (TolerateTenantFailures cfg)) as Hw.
    cbn [Do_start tenantFailuresRemaining]. split; [|lia].
    destruct (Z_lt_dec (wrap_int32 (TolerateTenantFailures cfg)) 0)
      as [Hlt|]; [|lia].
    pose proof (Do_range_spent previous pre (Do_start cfg)
                  (Tenants (Now w).2).2 Hlt) as Hs.
    fold (Do_upto cfg previous w pre) in Hs. fold before in Hs. lia. }
  pose proof (Do_range_failures cfg previous pre (Do_start cfg)
                (Tenants (Now w).2).2 Hstart) as Hcount.
  fold (Do_upto cfg previous w pre) in Hcount. fold before in Hcount.
  split; [lia|].
  rewrite Happ. cbn [val fst snd]. split; [reflexivity|].
  split; [reflexivity|].
  unfold Do_upto at 1.
  rewrite Do_range_snoc; fold (Do_upto cfg previous w pre); try assumption.
  reflexivity.
Qed.



(** ** A cycle without tolerance *)

(** With the counter at zero or below and a context that is not cancelled,
    the loop over a listing with a task all of whose attempts fail ends
    below zero. *)
Lemma Do_range_no_budget previous pre T post st w :
  (forall w', (ctxErr w').1 = None) ->
  0 <= TolerateConsecutiveErrors cfg ->
  - 1 <= tenantFailuresRemaining st <= 0 ->
  every_attempt_fails cfg T previous
    (Z.to_nat (TolerateConsecutiveErrors cfg + 1))
    (ctxErr (wld (Do_range cfg previous pre st w))).2 ->
  tenantFailuresRemaining
    (val (Do_range cfg previous (pre ++ T :: post) st w)).1 < 0.
Proof.
  intros Hctx Htol. revert st w.
  induction pre as [|t pre IH]; intros st w Hst Hall.
  - cbn [app]. rewrite Do_range_cons, Hctx.
    destruct (tenantFailuresRemaining st <? 0) eqn:Hneg; [cbn; lia|].
    cbv zeta. cbn [val wld fst snd].
    cbn [Do_range ret wld fst snd] in Hall.
    destruct (Do_poll_all_fail T previous _ Htol Hall) as [e He].
    apply Do_range_spent. rewrite Do_func_counter, He.
    replace (tenantFailuresRemaining st) with 0 by lia.
    vm_compute. reflexivity.
  - cbn [app]. rewrite Do_range_cons, Hctx.
    rewrite Do_range_cons, Hctx in Hall.
    destruct (tenantFailuresRemaining st <? 0) eqn:Hneg; [cbn; lia|].
    cbv zeta in Hall |- *. cbn [val wld fst snd] in Hall |- *.
    apply IH; [|exact Hall].
    rewrite Do_func_counter.
    replace (tenantFailuresRemaining st) with 0 by lia.
    destruct (val (Do_poll cfg t previous (ctxErr w).2)).2;
      [vm_compute; split; discriminate|lia].
Qed.


End Cycle.

(** * Blocks without metas *)

Section WithoutMetas.

Context {W : Type}.
Context `{!Reader W, !Compactor W, !Writer W, !JobSharder W, !Runtime W}.
Variable cfg : PollerConfig.

(** After a DoesNotExist on the meta of a block listed as live, the
    compacted meta is read. *)
Lemma pollBlock_tries_compacted tenantID blockID w w1 w2 m err :
  gate_open cfg blockID tenantID w w1 ->
  BlockMeta blockID tenantID w1 = ((m, err), w2) ->
  errors_Is_DoesNotExist err = true ->
  In (EvCall (CallCompactedBlockMeta blockID tenantID))
     (evs (pollBlock cfg tenantID blockID false w)).
Proof.
  intros Hgate Hm Hd.
  unfold pollBlock, bind, call, ret, val, wld, evs.
  destruct (CompactedBlockMeta blockID tenantID w2) as [[cm err'] w3] eqn:Hc.
  destruct Hgate as [[Hs ->] | [Hs Hf]]; rewrite Hs; simpl.
  - rewrite Hm; simpl. rewrite Hd; simpl. rewrite Hc; simpl.
    destruct (errors_Is_DoesNotExist err'); [simpl; tauto|].
    destruct err'; simpl; tauto.
  - rewrite Hf; simpl. rewrite Hm; simpl. rewrite Hd; simpl.
    rewrite Hc; simpl.
    destruct (errors_Is_DoesNotExist err'); [simpl; tauto|].
    destruct err'; simpl; tauto.
Qed.

(** With a DoesNotExist on the compacted meta too, there is neither a
    meta nor an error. *)
Lemma pollBlock_neither tenantID blockID (compacted : bool) (w w1 w2 w3 : W)
    m err cm err' :
  (if compacted then w1 = w else gate_open cfg blockID tenantID w w1) ->
  (if compacted then w2 = w1
   else BlockMeta blockID tenantID w1 = ((m, err), w2)
        /\ errors_Is_DoesNotExist err = true) ->
  CompactedBlockMeta blockID tenantID w2 = ((cm, err'), w3) ->
  errors_Is_DoesNotExist err' = true ->
  val (pollBlock cfg tenantID blockID compacted w) = (None, None, None).
Proof.
  intros Hgate Hread Hc He.
  unfold pollBlock, bind, call, ret, val, wld, evs.
  destruct compacted; simpl in *.
  - subst. rewrite Hc. simpl. rewrite He. reflexivity.
  - destruct Hread as [Hm Hd].
    destruct Hgate as [[Hs ->] | [Hs Hf]]; rewrite Hs; simpl.
    + rewrite Hm; simpl. rewrite Hd; simpl. rewrite Hc; simpl.
      rewrite He. reflexivity.
    + rewrite Hf; simpl. rewrite Hm; simpl. rewrite Hd; simpl.
      rewrite Hc; simpl. rewrite He. reflexivity.
Qed.

(** Reads that fail softly give [pollBlock] no error. *)
Lemma pollBlock_soft tenantID blockID compacted w :
  reads_fail_softly cfg tenantID ->
  (val (pollBlock cfg tenantID blockID compacted w)).2 = None.
Proof.
  intros Hsoft.
  assert (Hflag : forall w0 nc fe w1,
            SkipNoCompactBlocks cfg = true ->
            HasNoCompactFlag blockID tenantID w0 = ((nc, fe), w1) ->
            fe = None).
  { intros w0 nc fe w1 Hs Hf. destruct (Hsoft blockID w0) as (Hfl & _ & _).
    specialize (Hfl Hs). rewrite Hf in Hfl. exact Hfl. }
  assert (Hmeta : forall w0 m e w1,
            BlockMeta blockID tenantID w0 = ((m, Some e), w1) ->
            isDoesNotExist e = true).
  { intros w0 m e w1 Hm. destruct (Hsoft blockID w0) as (_ & Hb & _).
    rewrite Hm in Hb. destruct Hb as [Hb|Hb]; [discriminate|exact Hb]. }
  assert (Hcomp : forall w0 m e w1,
            CompactedBlockMeta blockID tenantID w0 = ((m, Some e), w1) ->
            isDoesNotExist e = true).
  { intros w0 m e w1 Hm. destruct (Hsoft blockID w0) as (_ & _ & Hb).
    rewrite Hm in Hb. destruct Hb as [Hb|Hb]; [discriminate|exact Hb]. }
  unfold pollBlock, bind, call, ret, val, wld, evs.
  repeat (case_run; simpl in *; simplify_eq; auto);
    repeat match goal with
    | H : _ && _ = true |- _ => apply andb_prop in H as [? ?]
    | H : HasNoCompactFlag _ _ _ = _ |- _ =>
        apply Hflag in H; [|assumption]; try discriminate
    | H : BlockMeta _ _ _ = (_, Some _, _) |- _ =>
        apply Hmeta in H
    | H : CompactedBlockMeta _ _ _ = (_, Some _, _) |- _ =>
        apply Hcomp in H
    end; try congruence.
Qed.

(** A block without metas gives [pollBlock] no meta. *)
Lemma pollBlock_without_metas tenantID blockID compacted w :
  without_metas tenantID blockID ->
  (val (pollBlock cfg tenantID blockID compacted w)).1 = (None, None).
Proof.
  intros Hnone.
  assert (Hmeta : forall w0 m e w1,
            BlockMeta blockID tenantID w0 = ((m, e), w1) ->
            errors_Is_DoesNotExist e = true).
  { intros w0 m e w1 Hm. destruct (Hnone w0) as [Hb _].
    rewrite Hm in Hb. exact Hb. }
  assert (Hcomp : forall w0 m e w1,
            CompactedBlockMeta blockID tenantID w0 = ((m, e), w1) ->
            errors_Is_DoesNotExist e = true).
  { intros w0 m e w1 Hm. destruct (Hnone w0) as [_ Hb].
    rewrite Hm in Hb. exact Hb. }
  unfold pollBlock, bind, call, ret, val, wld, evs.
  repeat (case_run; simpl in *; simplify_eq; auto);
    repeat match goal with
    | H : BlockMeta _ _ _ = _ |- _ => apply Hmeta in H
    | H : CompactedBlockMeta _ _ _ = _ |- _ => apply Hcomp in H
    end; simpl in *; try congruence.
Qed.

Lemma pollUnknown_collect_soft r acc :
  r.2 = None -> (pollUnknown_collect r acc).2 = acc.2.
Proof.
  destruct acc as [[l c] errs], r as [[[m|] [cm|]] [e|]];
    cbn; intros; congruence.
Qed.

Lemma pollUnknown_range_soft tenantID entries acc w :
  reads_fail_softly cfg tenantID ->
  acc.2 = [] ->
  (val (pollUnknown_range cfg tenantID entries acc w)).2 = [].
Proof.
  intros Hsoft. revert acc w.
  induction entries as [|[id f] rest IH]; intros acc w Hacc; [exact Hacc|].
  cbn [pollUnknown_range]. rewrite Hacc.
  change (0 <? Z.of_nat (length (@nil error))) with false. cbv iota.
  rewrite bind_val. apply IH.
  rewrite pollUnknown_collect_soft; [exact Hacc|].
  apply pollBlock_soft. exact Hsoft.
Qed.

Lemma pollUnknown_soft unknownBlocks tenantID w :
  reads_fail_softly cfg tenantID ->
  (val (pollUnknown cfg unknownBlocks tenantID w)).2 = None.
Proof.
  intros Hsoft.
  destruct (pollUnknown_run cfg unknownBlocks tenantID w) as [-> _].
  rewrite pollUnknown_range_soft by (exact Hsoft || reflexivity).
  reflexivity.
Qed.

(** C6. For a block listed as live that the nocompact gate lets through,
    a DoesNotExist on its meta is followed by the read of its compacted
    meta.  When that read says DoesNotExist too (for a block listed as
    compacted: when the compacted read, the only one, does), [pollBlock]
    returns no meta and no error.  And the poll of the tenant succeeds
    for it: when the listing of the blocks succeeds and no read of a meta
    fails otherwise than with DoesNotExist, [pollTenantBlocks] returns no
    error, and a block of which the previous list knows nothing and that
    has neither meta is in neither of the lists returned. *)
Theorem C6_missing_metas_are_dropped :
  forall (tenantID : string),
    (forall (blockID : backend.UUID) (w w1 w2 : W)
            (m : option backend.BlockMeta) (err : option error),
       gate_open cfg blockID tenantID w w1 ->
       BlockMeta blockID tenantID w1 = ((m, err), w2) ->
       errors_Is_DoesNotExist err = true ->
       In (EvCall (CallCompactedBlockMeta blockID tenantID))
          (evs (pollBlock cfg tenantID blockID false w)))
    /\ (forall (blockID : backend.UUID) (compacted : bool) (w w1 w2 w3 : W)
               (m : option backend.BlockMeta) (err : option error)
               (cm : option backend.CompactedBlockMeta) (err' : option error),
          (if compacted then w1 = w
           else gate_open cfg blockID tenantID w w1) ->
          (if compacted then w2 = w1
           else BlockMeta blockID tenantID w1 = ((m, err), w2)
                /\ errors_Is_DoesNotExist err = true) ->
          CompactedBlockMeta blockID tenantID w2 = ((cm, err'), w3) ->
          errors_Is_DoesNotExist err' = true ->
          val (pollBlock cfg tenantID blockID compacted w)
          = (None, None, None))
    /\ (forall (previous : List) (w : W),
          (Blocks tenantID w).1.2 = None ->
          reads_fail_softly cfg tenantID ->
          (val (pollTenantBlocks cfg tenantID previous w)).2 = None
          /\ forall (blockID : backend.UUID),
               without_metas tenantID blockID ->
               unknown_to previous tenantID blockID ->
               metas_carry_their_id ->
               (forall m,
                  m ∈ (val (pollTenantBlocks cfg tenantID previous w)).1.1 ->
                  backend.BlockID m <> blockID)
               /\ (forall c,
                     c ∈ (val (pollTenantBlocks cfg tenantID previous w)).1.2 ->
                     CompactedBlockID c <> blockID)).
Proof.
  intros tenantID. split; [|split].
  - intros blockID w w1 w2 m err.
    apply pollBlock_tries_compacted.
  - intros blockID compacted w w1 w2 w3 m err cm err'.
    apply pollBlock_neither.
  - intros previous w Hlisted Hsoft.
    destruct (Blocks tenantID w) as [[[live comp] lerr] w1] eqn:Hblocks.
    cbn [fst snd] in Hlisted. subst lerr.
    destruct (pollTenantBlocks_run cfg tenantID previous w live comp w1 Hblocks)
      as [Hval _]. cbv zeta in Hval.
    set (mm := index_metas (Metas previous tenantID) ∅) in *.
    set (cm := index_compactedMetas (CompactedMetas previous tenantID) ∅) in *.
    set (unknown :=
           (known_compacted cm comp [] (known_blocks mm live [] ∅).2).2) in *.
    rewrite (pollUnknown_soft unknown tenantID w1 Hsoft) in Hval.
    rewrite Hval. cbn [fst snd]. split; [reflexivity|].
    intros blockID Hnone [Hlive Hcomp] Hids.
    destruct (pollUnknown_from cfg unknown tenantID w1) as [Hm Hc].
    cbv zeta in Hm, Hc.
    split.
    + intros m Hin HB. apply elem_of_app in Hin as [Hin|Hin].
      * apply list_elem_of_omap in Hin as (id & _ & Hmm).
        apply index_metas_elem in Hmm as [Hmm|Hmm].
        -- exact (Hlive m Hmm HB).
        -- rewrite lookup_empty in Hmm. discriminate.
      * destruct (Hm m Hin) as (id & f & w0 & _ & Hpoll).
        destruct (pollBlock_ids cfg tenantID id f w0 Hids) as [Hid _].
        specialize (Hid m Hpoll). rewrite HB in Hid. subst id.
        pose proof (pollBlock_without_metas tenantID blockID f w0 Hnone) as Hno.
        destruct (val (pollBlock cfg tenantID blockID f w0)) as [[? ?] ?].
        cbn [fst snd] in *. congruence.
    + intros c Hin HB. apply elem_of_app in Hin as [Hin|Hin].
      * apply list_elem_of_omap in Hin as (id & _ & Hcm).
        apply index_compactedMetas_elem in Hcm as [Hcm|Hcm].
        -- exact (Hcomp c Hcm HB).
        -- rewrite lookup_empty in Hcm. discriminate.
      * destruct (Hc c Hin) as (id & f & w0 & _ & Hpoll).
        destruct (pollBlock_ids cfg tenantID id f w0 Hids) as [_ Hid].
        specialize (Hid c Hpoll). rewrite HB in Hid. subst id.
        pose proof (pollBlock_without_metas tenantID blockID f w0 Hnone) as Hno.
        destruct (val (pollBlock cfg tenantID blockID f w0)) as [[? ?] ?].
        cbn [fst snd] in *. congruence.
Qed.

End WithoutMetas.

(** * The properties at work on the scripted backend *)

Lemma C8_no_builders_means_follower_witness :
  tenantIndexBuilder Mock.strict "t1" Mock.empty = (false, Mock.empty, [])
  /\ val (pollTenantAndCreateIndex Mock.strict "t1" emptyList Mock.empty)
     = ([], [], Some (ErrWrap
         "failed to pull tenant index and no fallback configured"
         ErrDoesNotExist)).
Proof.
  destruct (C8_no_builders_means_follower Mock.strict "t1" Mock.empty)
    as [Hb Hf].
  - vm_compute. discriminate.
  - split; [exact Hb|].
    apply (Hf emptyList ErrDoesNotExist Mock.empty); reflexivity.
Defined.


(** C2 fails as it stands: the previous list holds two metas under the ID
    of block 1, which the store lists as live; the first of them is not in
    the live list that is returned, where the last one stands for the
    block. *)
Lemma C2_counterexample :
  Mock.old_meta ∈ Metas Mock.held_twice "t1"
  /\ backend.BlockID Mock.old_meta ∈ (Blocks "t1" Mock.one_block).1.1.1
  /\ val (pollTenantBlocks Mock.config "t1" Mock.held_twice Mock.one_block)
     = ([Mock.meta 1%N "t1"], [], None)
  /\ Mock.old_meta ∉
       (val (pollTenantBlocks Mock.config "t1" Mock.held_twice
               Mock.one_block)).1.1.
Proof.
  split; [vm_compute; left|].
  split; [vm_compute; left|].
  split; [vm_compute; reflexivity|].
  vm_compute. intros Hin. apply list_elem_of_singleton in Hin. discriminate.
Qed.

Lemma C2_known_meta_is_carried_forward_witness :
  Mock.meta 1%N "t1" ∈
    (val (pollTenantBlocks Mock.config "t1" Mock.held_twice
            Mock.one_block)).1.1
  /\ ~ In (EvCall (CallBlockMeta 1%N "t1"))
          (evs (pollTenantBlocks Mock.config "t1" Mock.held_twice
                  Mock.one_block)).
Proof.
  eapply (C2_known_meta_is_carried_forward Mock.config "t1" Mock.held_twice
            Mock.one_block _ [1%N] [] 1%N (Mock.meta 1%N "t1")
            [Mock.old_meta] []).
  - reflexivity.
  - vm_compute. reflexivity.
  - reflexivity.
  - intros M' HM'. inversion HM'.
  - left.
  - vm_compute. reflexivity.
Defined.

Lemma ghost_reads_fail_softly :
  reads_fail_softly (Reader0 := Steady.reader Mock.ghost)
                    (Compactor0 := Steady.compactor Mock.ghost)
                    Mock.config "t1".
Proof.
  intros id []. cbn. split; [discriminate|]. split; [|right; reflexivity].
  destruct (id =? 7)%N; [right|left]; reflexivity.
Qed.

Lemma ghost_metas_carry_their_id :
  metas_carry_their_id (Reader0 := Steady.reader Mock.ghost)
                       (Compactor0 := Steady.compactor Mock.ghost).
Proof.
  split; intros id t w m; cbn; [|discriminate].
  destruct (id =? 7)%N; cbn; [discriminate|]. intros [= <-]. reflexivity.
Qed.

Lemma C6_missing_metas_are_dropped_witness :
  In (EvCall (CallCompactedBlockMeta 7%N "t1"))
     (evs (pollBlock (Reader0 := Steady.reader Mock.ghost)
                     (Compactor0 := Steady.compactor Mock.ghost)
                     Mock.config "t1" 7%N false tt))
  /\ val (pollBlock (Reader0 := Steady.reader Mock.ghost)
                    (Compactor0 := Steady.compactor Mock.ghost)
                    Mock.config "t1" 7%N false tt)
     = (None, None, None)
  /\ (val (pollTenantBlocks (Reader0 := Steady.reader Mock.ghost)
                            (Compactor0 := Steady.compactor Mock.ghost)
                            (Runtime0 := Steady.runtime Mock.ghost)
                            Mock.config "t1" emptyList tt)).2 = None
  /\ forall m,
       m ∈ (val (pollTenantBlocks (Reader0 := Steady.reader Mock.ghost)
                                  (Compactor0 := Steady.compactor Mock.ghost)
                                  (Runtime0 := Steady.runtime Mock.ghost)
                                  Mock.config "t1" emptyList tt)).1.1 ->
       backend.BlockID m <> 7%N.
Proof.
  destruct (C6_missing_metas_are_dropped
              (Reader0 := Steady.reader Mock.ghost)
              (Compactor0 := Steady.compactor Mock.ghost)
              (Runtime0 := Steady.runtime Mock.ghost)
              Mock.config "t1") as (Htries & Hneither & Hpoll).
  split.
  { apply (Htries 7%N tt tt tt None (Some ErrDoesNotExist));
      [left; split; reflexivity|reflexivity|reflexivity]. }
  split.
  { apply (Hneither 7%N false tt tt tt tt None (Some ErrDoesNotExist)
                    None (Some ErrDoesNotExist));
      [left; split; reflexivity|split; reflexivity|reflexivity|reflexivity]. }
  destruct (Hpoll emptyList tt eq_refl ghost_reads_fail_softly)
    as [Hok Hdropped].
  split; [exact Hok|].
  apply (Hdropped 7%N).
  - intros []. split; reflexivity.
  - split; intros x Hx; vm_compute in Hx; inversion Hx.
  - exact ghost_metas_carry_their_id.
Defined.







(** C1 fails as it stands: with block 1 known as live from the previous
    cycle and listed by the store both as live and as compacted, [Do]
    returns a live and a compacted meta of block 1 for the tenant. *)
Lemma C1_counterexample :
  exists (bl : PerTenant) (cbl : PerTenantCompacted)
         (live : list backend.BlockMeta)
         (comp : list backend.CompactedBlockMeta),
    val (Do Mock.config Mock.old_list Mock.listed_twice)
    = (Some bl, Some cbl, None)
    /\ bl !! "t1" = Some live
    /\ cbl !! "t1" = Some comp
    /\ ~ unique_block_ids live comp.
Proof.
  exists (default ∅ (val (Do Mock.config Mock.old_list Mock.listed_twice)).1.1),
         (default ∅ (val (Do Mock.config Mock.old_list Mock.listed_twice)).1.2),
         [Mock.old_meta], [Mock.cmeta 1%N "t1"].
  split; [vm_compute; reflexivity|].
  split; [vm_compute; reflexivity|].
  split; [vm_compute; reflexivity|].
  intros Hnd. apply NoDup_cons in Hnd as [Hnot _]. apply Hnot. left.
Qed.

Lemma old_list_is_sound : list_is_sound Mock.old_list.
Proof.
  intros t. unfold Metas, CompactedMetas, Mock.old_list. cbn [metas compactedMetas].
  rewrite lookup_empty. destruct (decide (t = "t1")) as [->|Hne].
  - rewrite lookup_singleton_eq. vm_compute. repeat constructor. set_solver.
  - rewrite lookup_singleton_ne by congruence. constructor.
Qed.

Lemma snapshot_is_sound :
  listings_are_sets (W := unit) /\ metas_carry_their_id (W := unit)
  /\ indexes_are_sound (W := unit).
Proof.
  split; [|split; [split|]].
  - intros t w. cbn. repeat (constructor; [set_solver|]). constructor.
  - intros id t w m. cbn. destruct (id =? 2)%N; [discriminate|].
    intros [= <-]. reflexivity.
  - intros id t w m. cbn. intros [= <-]. reflexivity.
  - intros t w idx. discriminate.
Qed.

Lemma C1_unique_block_ids_of_a_sound_store_witness :
  unique_block_ids
    (default [] (default ∅ (val (Do Mock.config Mock.old_list tt)).1.1 !! "t1"))
    (default [] (default ∅ (val (Do Mock.config Mock.old_list tt)).1.2 !! "t1")).
Proof.
  destruct snapshot_is_sound as (Hsets & Hid & Hidx).
  apply (C1_unique_block_ids_of_a_sound_store Mock.config Mock.old_list tt
           (default ∅ (val (Do Mock.config Mock.old_list tt)).1.1)
           (default ∅ (val (Do Mock.config Mock.old_list tt)).1.2)
           "t1" _ _ Hsets Hid Hidx old_list_is_sound).
  - vm_compute. reflexivity.
  - vm_compute. reflexivity.
  - vm_compute. reflexivity.
Defined.

Lemma snapshot_is_unchanging : unchanging (W := unit).
Proof.
  split; intros;
    repeat match goal with w : unit |- _ => destruct w end; reflexivity.
Qed.



(** * The further properties at work *)

Lemma sumTotalBackendMetaMetrics_ignores_order_witness :
  sumTotalBackendMetaMetrics [Mock.meta 1%N "t1"; Mock.old_meta] []
  = sumTotalBackendMetaMetrics [Mock.old_meta; Mock.meta 1%N "t1"] [].
Proof.
  apply sumTotalBackendMetaMetrics_ignores_order.
  - apply perm_swap.
  - reflexivity.
Defined.

Lemma sumTotalBackendMetaMetrics_exact_without_overflow_witness :
  sumTotalBackendMetaMetrics [Mock.meta 1%N "t1"; Mock.old_meta]
                             [Mock.cmeta 2%N "t1"]
  = {| blockMetaTotalObjects := 17; compactedBlockMetaTotalObjects := 10;
       blockMetaTotalBytes := 170; compactedBlockMetaTotalBytes := 100 |}.
Proof.
  apply (sumTotalBackendMetaMetrics_exact_without_overflow
           [Mock.meta 1%N "t1"; Mock.old_meta] [Mock.cmeta 2%N "t1"]).
  - repeat constructor; cbn; lia.
  - repeat constructor; cbn; lia.
  - reflexivity.
  - reflexivity.
  - reflexivity.
  - reflexivity.
Defined.

Lemma pollBlock_error_is_recorded_witness :
  pollUnknown_collect (val (pollBlock Mock.config "t1" 1%N false Mock.broken))
                      ([], [], [])
  = ([], [], [] ++ [ErrOpaque "read failed"]).
Proof.
  apply (pollBlock_error_is_recorded Mock.config "t1" 1%N false Mock.broken
           (ErrOpaque "read failed") ([], [], [])).
  reflexivity.
Defined.

Lemma deleteTenant_gives_up_when_Find_fails_witness :
  val (deleteTenant Mock.reaping "t3" Mock.unwalkable)
  = Some (ErrOpaque "walk failed")
  /\ evs (deleteTenant Mock.reaping "t3" Mock.unwalkable)
     = [EvCall (CallFind ["t3"])].
Proof.
  apply (deleteTenant_gives_up_when_Find_fails Mock.reaping "t3"
           Mock.unwalkable Mock.unwalkable []).
  - reflexivity.
  - discriminate.
  - reflexivity.
Defined.

Lemma deleteTenant_deletes_found_objects_only_witness :
  exists (o : backend.FindMatch) (dir : string),
    In o (Find ["t3"] Mock.deserted).1.1
    /\ ["t3/b1/"] = [dir]
    /\ dir +:+ "data" = backend.Key o.
Proof.
  apply (deleteTenant_deletes_found_objects_only Mock.reaping "t3"
           Mock.deserted "data" ["t3/b1/"] None).
  vm_compute. tauto.
Defined.

Lemma deleteTenant_spares_tenants_with_recent_objects_witness :
  Forall (fun o => 100 < saturate_int64 (1000 - backend.Modified o))
         [ {| backend.Key := "t3/b1/data"; backend.Modified := 10 |};
           {| backend.Key := "t3/b1/bloom-0"; backend.Modified := 20 |} ].
Proof.
  apply (deleteTenant_spares_tenants_with_recent_objects
           (Reader0 := Steady.reader Mock.deserted)
           (Writer0 := Steady.writer Mock.deserted)
           (Runtime0 := Steady.runtime Mock.deserted)
           Mock.reaping "t3" tt 1000 "data" ["t3/b1/"] None).
  - intros w'. reflexivity.
  - vm_compute. tauto.
Defined.

Lemma pollUnknown_error_discards_the_metas_witness :
  val (pollUnknown Mock.config {[ 1%N := false ]} "t1" Mock.broken)
  = ([], [], Some (ErrJoin [ErrOpaque "read failed"]))
  /\ (exists errs, errs <> [] /\ ErrJoin [ErrOpaque "read failed"] = ErrJoin errs)
  /\ In (EvMetric (TenantIndexErrorsInc "t1"))
        (evs (pollUnknown Mock.config {[ 1%N := false ]} "t1" Mock.broken)).
Proof.
  apply (pollUnknown_error_discards_the_metas Mock.config {[ 1%N := false ]}
           "t1" Mock.broken (ErrJoin [ErrOpaque "read failed"])).
  vm_compute. reflexivity.
Defined.

Lemma pollTenantBlocks_returns_listed_blocks_only_witness :
  (forall m, m ∈ [Mock.old_meta] -> backend.BlockID m ∈ [1%N; 2%N])
  /\ (forall k, k ∈ [Mock.cmeta 2%N "t1"; Mock.cmeta 3%N "t1"] ->
        CompactedBlockID k ∈ [3%N] \/ CompactedBlockID k ∈ [1%N; 2%N]).
Proof.
  destruct snapshot_is_sound as (_ & Hid & _).
  apply (pollTenantBlocks_returns_listed_blocks_only Mock.config "t1"
           Mock.old_list tt [Mock.old_meta]
           [Mock.cmeta 2%N "t1"; Mock.cmeta 3%N "t1"] Hid).
  vm_compute. reflexivity.
Defined.

Lemma pollTenantBlocks_reads_nothing_when_all_is_known_witness :
  evs (pollTenantBlocks Mock.config "t1" Mock.old_list Mock.one_block)
  = [EvCall (CallBlocks "t1")]
  /\ exists (l : list backend.BlockMeta) (c : list backend.CompactedBlockMeta),
       val (pollTenantBlocks Mock.config "t1" Mock.old_list Mock.one_block)
       = (l, c, None)
       /\ map backend.BlockID l = [1%N]
       /\ map CompactedBlockID c = [].
Proof.
  apply (pollTenantBlocks_reads_nothing_when_all_is_known Mock.config "t1"
           Mock.old_list Mock.one_block Mock.one_block [1%N] []).
  - reflexivity.
  - intros id Hid. apply list_elem_of_singleton in Hid as ->.
    exists Mock.old_meta. split; [|reflexivity].
    vm_compute. left.
  - intros id Hid. inversion Hid.
Defined.

Lemma flagged_metas_carry_their_id :
  metas_carry_their_id (Reader0 := Steady.reader Mock.flagged)
                       (Compactor0 := Steady.compactor Mock.flagged).
Proof. split; intros id t w m [= <-]; reflexivity. Qed.

Lemma pollTenantBlocks_leaves_out_nocompact_blocks_witness :
  backend.BlockID (Mock.meta 1%N "t1") <> 2%N.
Proof.
  apply (pollTenantBlocks_leaves_out_nocompact_blocks
           (Reader0 := Steady.reader Mock.flagged)
           (Compactor0 := Steady.compactor Mock.flagged)
           (Runtime0 := Steady.runtime Mock.flagged)
           Mock.skipping "t1" emptyList tt [Mock.meta 1%N "t1"] [] 2%N).
  - reflexivity.
  - exact flagged_metas_carry_their_id.
  - intros w'. reflexivity.
  - intros m Hm. vm_compute in Hm. inversion Hm.
  - vm_compute. reflexivity.
  - left.
Defined.

Lemma pollTenantAndCreateIndex_follower_returns_the_index_witness :
  val (pollTenantAndCreateIndex Mock.strict "t1" Mock.old_list Mock.indexed)
  = ([Mock.meta 1%N "t1"], [Mock.cmeta 2%N "t1"], None)
  /\ Forall (fun e => follower_call e = true)
            (evs (pollTenantAndCreateIndex Mock.strict "t1" Mock.old_list
                    Mock.indexed)).
Proof.
  apply (pollTenantAndCreateIndex_follower_returns_the_index Mock.strict "t1"
           Mock.old_list Mock.indexed Mock.indexed Mock.index_of_t1).
  - reflexivity.
  - reflexivity.
  - reflexivity.
Defined.

Lemma pollTenantAndCreateIndex_writes_what_it_returns_witness :
  "t1" = "t1"
  /\ (val (pollTenantAndCreateIndex Mock.config "t1" emptyList Mock.one_block)
      = ([Mock.meta 1%N "t1"], [], None)
      \/ ([Mock.meta 1%N "t1"] = [] /\ [] = ([] : list backend.CompactedBlockMeta)
          /\ exists e,
               val (pollTenantAndCreateIndex Mock.config "t1" emptyList
                      Mock.one_block)
               = ([], [], Some (ErrWrap "failed to delete tenant" e)))).
Proof.
  apply (pollTenantAndCreateIndex_writes_what_it_returns Mock.config "t1"
           emptyList Mock.one_block "t1" [Mock.meta 1%N "t1"] []).
  vm_compute. tauto.
Defined.

Lemma pollTenantAndCreateIndex_spares_tenants_with_blocks_witness :
  Forall (fun e => is_reaping e = false)
         (evs (pollTenantAndCreateIndex Mock.reaping "t1" emptyList
                 Mock.one_block)).
Proof.
  apply (pollTenantAndCreateIndex_spares_tenants_with_blocks Mock.reaping "t1"
           emptyList Mock.one_block [Mock.meta 1%N "t1"] []).
  - vm_compute. reflexivity.
  - left. discriminate.
Defined.

Lemma Do_gives_up_when_the_tenants_cannot_be_listed_witness :
  val (Do Mock.config emptyList Mock.unlisted)
  = (None, None, Some (ErrOpaque "listing tenants failed"))
  /\ evs (Do Mock.config emptyList Mock.unlisted)
     = [EvCall CallTenants; EvMetric (BlocklistErrorsInc "")].
Proof.
  apply (Do_gives_up_when_the_tenants_cannot_be_listed Mock.config emptyList
           Mock.unlisted Mock.unlisted []).
  reflexivity.
Defined.

Lemma Do_maps_have_the_same_listed_tenants_witness :
  (is_Some (default ∅ (val (Do Mock.config Mock.old_list Mock.one_failing)).1.1
            !! "t1")
   <-> is_Some (default ∅ (val (Do Mock.config Mock.old_list Mock.one_failing)).1.2
                !! "t1"))
  /\ (is_Some (default ∅ (val (Do Mock.config Mock.old_list Mock.one_failing)).1.1
               !! "t1")
      -> "t1" ∈ (Tenants (Now Mock.one_failing).2).1.1).
Proof.
  apply (Do_maps_have_the_same_listed_tenants Mock.config Mock.old_list
           Mock.one_failing
           (default ∅ (val (Do Mock.config Mock.old_list Mock.one_failing)).1.1)
           (default ∅ (val (Do Mock.config Mock.old_list Mock.one_failing)).1.2)
           "t1").
  vm_compute. reflexivity.
Defined.

Lemma Do_stops_when_cancelled_witness :
  val (Do Mock.config emptyList Mock.called_off)
  = (None, None, Some (ErrOpaque "context canceled"))
  /\ evs (Do Mock.config emptyList Mock.called_off) = [EvCall CallTenants].
Proof.
  apply (Do_stops_when_cancelled Mock.config emptyList Mock.called_off
           Mock.called_off "t1" []).
  - reflexivity.
  - reflexivity.
Defined.

Lemma Do_polls_nothing_with_a_negative_retry_tolerance_witness :
  Forall (fun e => forall c, e = EvCall c -> c = CallTenants)
         (evs (Do Mock.no_retry Mock.old_list Mock.one_block))
  /\ forall (bl : PerTenant) (cbl : PerTenantCompacted),
       val (Do Mock.no_retry Mock.old_list Mock.one_block)
       = (Some bl, Some cbl, None) ->
       bl = ∅ /\ cbl = ∅.
Proof.
  apply (Do_polls_nothing_with_a_negative_retry_tolerance Mock.no_retry
           Mock.old_list Mock.one_block).
  cbn. lia.
Defined.

Lemma Do_fails_with_a_negative_failure_tolerance_witness :
  (exists e, val (Do Mock.no_budget emptyList Mock.one_block)
             = (None, None, Some e))
  /\ Forall cycle_event (evs (Do Mock.no_budget emptyList Mock.one_block)).
Proof.
  apply (Do_fails_with_a_negative_failure_tolerance Mock.no_budget emptyList
           Mock.one_block).
  cbn. lia.
Defined.

Lemma Do_succeeds_within_the_failure_tolerance_witness :
  Z.of_nat (count is_failure (evs (Do Mock.config Mock.old_list Mock.one_failing)))
  <= 1.
Proof.
  apply (Do_succeeds_within_the_failure_tolerance Mock.config Mock.old_list
           Mock.one_failing
           (default ∅ (val (Do Mock.config Mock.old_list Mock.one_failing)).1.1)
           (default ∅ (val (Do Mock.config Mock.old_list Mock.one_failing)).1.2)).
  - cbn. lia.
  - vm_compute. reflexivity.
Defined.

Lemma Do_deletes_nothing_unless_enabled_witness :
  Forall (fun e => is_reaping e = false)
         (evs (Do Mock.config emptyList Mock.deserted)).
Proof.
  apply (Do_deletes_nothing_unless_enabled Mock.config emptyList Mock.deserted).
  reflexivity.
Defined.

Lemma OwnsNothingSharder_makes_a_follower_witness :
  Forall (fun e => follower_call e = true)
         (evs (Do (JobSharder0 := ownsNothingSharder) Mock.strict emptyList
                 Mock.one_block)).
Proof.
  apply (OwnsNothingSharder_makes_a_follower Mock.strict emptyList
           Mock.one_block).
  reflexivity.
Defined.

Lemma Do_fails_after_exiting_early_witness :
  val (Do Mock.no_tolerance emptyList Mock.one_failing)
  = (None, None, Some ErrTooManyTenantFailures).
Proof.
  apply (Do_fails_after_exiting_early Mock.no_tolerance emptyList
           Mock.one_failing).
  vm_compute. tauto.
Defined.

Lemma tenantIndexBuilder_owns_one_of_the_jobs_witness :
  val (tenantIndexBuilder Mock.config "t1" tt)
  = existsb (fun j : nat => Mock.owned Steady.snapshot
                              (builder_job "t1" (Z.of_nat j)))
            (seq 0 1).
Proof.
  apply (tenantIndexBuilder_owns_one_of_the_jobs Mock.config
           (Mock.owned Steady.snapshot) "t1" tt).
  intros job w'. reflexivity.
Defined.
